(** * Translator: a shallow embedding of [src/translator.py]

    The Python class [Translator] encodes text into "Basic Leet" and decodes
    the reply of a language model: a cascade of extraction strategies built
    on regular expressions, then substitution passes, then a cleaning.

    Data model:
    - a Python [str] is a list of Unicode code points ([N]); the character
      data outside ASCII that the program consults ([str.lower], [\w], case
      folding under IGNORECASE) is a parameter, the class [unicode];
    - a Python [dict] is an association list in insertion order, with the
      update-in-place semantics of [d[k] = v]: the order of iteration decides
      the order of the replacement passes;
    - the [re] module is a backtracking matcher over the constructs the
      patterns of the program use, with one search loop shared by [re.sub],
      [re.finditer], [re.findall], [re.split] and [re.search];
    - operations that can raise (indexing a [list], a method call on [None])
      live in the error monad [py];
    - [self.table] is loaded from a JSON file and is a parameter.

    The [debug] flag only guards [print] statements; it is taken to be off.

    Of [src/api_client.py] and [src/main.py] the parts that compute are
    modelled behind the translator: the prompt, the handling of one query and
    the debug flags.

    The file has five parts: the model, the vocabulary of the specification,
    the theory of the matcher and of the search loop, the properties of the
    translator, and further properties of the three source files. *)

From Stdlib Require Import String Ascii List NArith Arith Bool Lia.
Import ListNotations.

Set Implicit Arguments.

(** ** Strings *)

Definition char := N.
Definition str := list char.

Definition chr_eqb (a b : char) : bool := N.eqb a b.

Fixpoint str_eqb (a b : str) : bool :=
  match a, b with
  | [], [] => true
  | x :: a', y :: b' => chr_eqb x y && str_eqb a' b'
  | _, _ => false
  end.

(** ASCII literals of the source, as code points. *)
Definition u (s : string) : str :=
  map N_of_ascii (list_ascii_of_string s).

Definition ch (a : ascii) : char := N_of_ascii a.
Arguments ch a%_char.

Definition NL : char := 10%N.
Definition BULLET : char := 8226%N.   (* U+2022, the bullet of the patterns *)

(** [text[a:b]] for [0 <= a], [0 <= b]. *)
Definition slice (s : str) (a b : nat) : str := firstn (b - a) (skipn a s).

(** [sep.join(parts)] *)
Fixpoint join (sep : str) (parts : list str) : str :=
  match parts with
  | [] => []
  | [p] => p
  | p :: ps => p ++ sep ++ join sep ps
  end.

(** [a in s] for a character. *)
Definition has_char (c : char) (s : str) : bool := existsb (chr_eqb c) s.

Fixpoint starts_with (pre s : str) : bool :=
  match pre, s with
  | [], _ => true
  | x :: pre', y :: s' => chr_eqb x y && starts_with pre' s'
  | _ :: _, [] => false
  end.

(** [pat] occurs in [s] as a substring. *)
Fixpoint occurs (pat s : str) : bool :=
  starts_with pat s || match s with [] => false | _ :: s' => occurs pat s' end.

(** ** Unicode character data

    [Py_UNICODE_ISSPACE], used by [str.strip] and by [\s]. *)
Definition is_space (c : char) : bool :=
  ((9 <=? c) && (c <=? 13) || (28 <=? c) && (c <=? 32) ||
   (c =? 133) || (c =? 160) || (c =? 5760) ||
   (8192 <=? c) && (c <=? 8202) || (c =? 8232) || (c =? 8233) ||
   (c =? 8239) || (c =? 8287) || (c =? 12288))%N.

Definition is_ascii (c : char) : bool := (c <? 128)%N.

Definition ascii_lower (c : char) : char :=
  if ((65 <=? c) && (c <=? 90))%N then (c + 32)%N else c.

Definition ascii_upper (c : char) : char :=
  if ((97 <=? c) && (c <=? 122))%N then (c - 32)%N else c.

Definition ascii_alnum (c : char) : bool :=
  ((48 <=? c) && (c <=? 57) || (65 <=? c) && (c <=? 90) ||
   (97 <=? c) && (c <=? 122))%N.

(** The part of the Unicode character database that lies outside ASCII is
    not tabulated: the development is parametric in it. *)
Class unicode := {
  ext_tolower : char -> char;   (* simple lower-case mapping, code points >= 128 *)
  ext_toupper : char -> char;   (* simple upper-case mapping, code points >= 128 *)
  ext_isalnum : char -> bool;   (* [str.isalnum], code points >= 128 *)
  ext_lower : str -> str        (* [str.lower] on a string that is not pure ASCII *)
}.

(** A database that leaves every non-ASCII character alone. *)
Definition plain_unicode : unicode :=
  {| ext_tolower := fun c => c; ext_toupper := fun c => c;
     ext_isalnum := fun _ => false; ext_lower := fun s => s |}.

(** [str.strip] *)
Fixpoint lstrip (s : str) : str :=
  match s with
  | c :: s' => if is_space c then lstrip s' else s
  | [] => []
  end.

Definition rstrip (s : str) : str := rev (lstrip (rev s)).

Definition strip (s : str) : str := rstrip (lstrip s).

(** ** Exceptions *)

Inductive exn := IndexError | AttributeError.

Inductive py (A : Type) : Type :=
| Ret (a : A)
| Raise (e : exn).
Arguments Ret {A} a.
Arguments Raise {A} e.

Definition bind {A B} (x : py A) (f : A -> py B) : py B :=
  match x with
  | Ret a => f a
  | Raise e => Raise e
  end.

Notation "x <- c1 ;; c2" := (bind c1 (fun x => c2))
  (at level 61, c1 at next level, right associativity).

(** [for x in xs: acc = body(x, acc)], stopping at the first exception. *)
Fixpoint for_each {A B} (xs : list A) (acc : B) (body : A -> B -> py B) : py B :=
  match xs with
  | [] => Ret acc
  | x :: xs' => acc' <- body x acc ;; for_each xs' acc' body
  end.

(** [enumerate(xs)] *)
Fixpoint enumerate_from {A} (i : nat) (xs : list A) : list (nat * A) :=
  match xs with
  | [] => []
  | x :: xs' => (i, x) :: enumerate_from (S i) xs'
  end.

Definition enumerate {A} (xs : list A) : list (nat * A) := enumerate_from 0 xs.

(** [xs[i]] *)
Definition index {A} (xs : list A) (i : nat) : py A :=
  match nth_error xs i with
  | Some x => Ret x
  | None => Raise IndexError
  end.

(** ** Dictionaries, in insertion order *)

Definition dict := list (str * str).

Fixpoint dict_get (d : dict) (k : str) : option str :=
  match d with
  | [] => None
  | (k', v) :: d' => if str_eqb k' k then Some v else dict_get d' k
  end.

(** [d[k] = v]: an existing key keeps its place. *)
Fixpoint dict_set (d : dict) (k v : str) : dict :=
  match d with
  | [] => [(k, v)]
  | (k', v') :: d' => if str_eqb k' k then (k', v) :: d' else (k', v') :: dict_set d' k v
  end.

(** A dict display [{k1: v1, k2: v2, ...}] or comprehension. *)
Definition dict_of (items : list (str * str)) : dict :=
  fold_left (fun d kv => dict_set d (fst kv) (snd kv)) items [].

(** ** [str.replace(old, new)] *)

Fixpoint replace_from (old new : str) (s : str) (skip : nat) : str :=
  match s with
  | [] => []
  | c :: s' =>
      match skip with
      | S n => replace_from old new s' n
      | O => if starts_with old s
             then new ++ replace_from old new s' (length old - 1)
             else c :: replace_from old new s' 0
      end
  end.

Definition replace (old new : str) (s : str) : str :=
  match old with
  | [] => new ++ flat_map (fun c => c :: new) s
  | _ :: _ => replace_from old new s 0
  end.

(** ** Case mapping and word characters *)

Section WithUnicode.

Context {U : unicode}.

Definition tolower (c : char) : char :=
  if is_ascii c then ascii_lower c else ext_tolower c.

Definition toupper (c : char) : char :=
  if is_ascii c then ascii_upper c else ext_toupper c.

(** [\w]: alphanumeric or underscore. *)
Definition is_word (c : char) : bool :=
  if is_ascii c then ascii_alnum c || (c =? 95)%N else ext_isalnum c.

(** [str.lower] *)
Definition lower (s : str) : str :=
  if forallb is_ascii s then map ascii_lower s else ext_lower s.

(** ** Regular expressions

    The constructs that occur in the patterns of [translator.py]. Repetition
    with [*], [+], [{n,}] and their lazy forms is only ever applied to a
    single character or class there, and [?] to a group. *)

Inductive citem :=
| IChr (c : char)            (* a literal member *)
| IRange (lo hi : char).     (* [lo-hi] *)

Inductive cclass :=
| CSet (negated : bool) (items : list citem)   (* [...] and [^...] *)
| CSpace                                       (* \s *)
| CWord                                        (* \w *)
| CAny.                                        (* . *)

Inductive regex :=
| Eps
| Chr (c : char)                                (* a literal character *)
| Cls (cl : cclass)                             (* one character of a class *)
| Seq (r1 r2 : regex)
| Alt (r1 r2 : regex)                           (* r1|r2 *)
| Opt (r : regex)                               (* (?:r)? *)
| Rep (greedy : bool) (lo : nat) (cl : cclass)  (* cl{lo,} and cl{lo,}? *)
| Grp (n : nat) (r : regex)                     (* the n-th capturing group *)
| Ahead (r : regex)                             (* (?=r) *)
| Bol                                           (* ^ *)
| Eol                                           (* $ *)
| EndZ                                          (* \Z *)
| WordB.                                        (* \b *)

Record flags := { IGNORECASE : bool; MULTILINE : bool; DOTALL : bool }.

Definition no_flags : flags :=
  {| IGNORECASE := false; MULTILINE := false; DOTALL := false |}.

(** A literal string, and the concatenation of several expressions. *)
Fixpoint lit (s : str) : regex :=
  match s with
  | [] => Eps
  | [c] => Chr c
  | c :: s' => Seq (Chr c) (lit s')
  end.

Fixpoint seq (rs : list regex) : regex :=
  match rs with
  | [] => Eps
  | [r] => r
  | r :: rs' => Seq r (seq rs')
  end.

Fixpoint alt (rs : list regex) : regex :=
  match rs with
  | [] => Eps
  | [r] => r
  | r :: rs' => Alt r (alt rs')
  end.

Definition star (cl : cclass) : regex := Rep true 0 cl.
Definition plus (cl : cclass) : regex := Rep true 1 cl.
Definition star_lazy (cl : cclass) : regex := Rep false 0 cl.

(** The number of capturing groups. *)
Fixpoint ngroups (r : regex) : nat :=
  match r with
  | Seq r1 r2 | Alt r1 r2 => Nat.max (ngroups r1) (ngroups r2)
  | Opt r1 | Ahead r1 => ngroups r1
  | Grp n r1 => Nat.max n (ngroups r1)
  | _ => 0
  end.

(** A place in the subject string: the previous character, the offset and
    the text that remains. *)
Record pos := { prev : option char; idx : nat; rest : str }.

Definition caps := list (option (nat * nat)).

(** [l[i] = v] where [i] is in range. *)
Fixpoint set_nth {A} (i : nat) (v : A) (l : list A) : list A :=
  match l, i with
  | [], _ => []
  | _ :: l', O => v :: l'
  | x :: l', S i' => x :: set_nth i' v l'
  end.

(** Group [n] (counted from 1) is recorded at place [n - 1]. *)
Definition set_cap (n : nat) (span : nat * nat) (c : caps) : caps :=
  match n with
  | O => c
  | S i => set_nth i (Some span) c
  end.

Definition result := (pos * caps)%type.

Section Matcher.

Variable fl : flags.

(** The characters [c] has the same upper case as, besides itself
    ([_casefix._EXTRA_CASES] at the ASCII letters). *)
Definition case_fixes (lo : char) : list char :=
  if (lo =? 105)%N then [305%N]            (* i: dotless i *)
  else if (lo =? 115)%N then [383%N]       (* s: long s *)
  else [].

Definition iscased (c : char) : bool :=
  negb (chr_eqb c (tolower c)) || negb (chr_eqb c (toupper c)).

Definition in_chars (cs : list char) (x : char) : bool := existsb (chr_eqb x) cs.

(** A literal of the pattern against a character of the subject. *)
Definition chr_match (a x : char) : bool :=
  if IGNORECASE fl && iscased a then
    let lo := tolower a in
    match case_fixes lo with
    | [] => chr_eqb (tolower x) lo
    | fx => in_chars (lo :: fx) (tolower x) || in_chars (lo :: fx) (toupper x)
    end
  else chr_eqb a x.

Definition item_cased (it : citem) : bool :=
  match it with
  | IChr c => iscased c
  | IRange lo hi => existsb iscased (map N.of_nat (List.seq (N.to_nat lo) (S (N.to_nat hi) - N.to_nat lo)))
  end.

Definition item_mem (it : citem) (x : char) : bool :=
  match it with
  | IChr c => chr_eqb c x
  | IRange lo hi => ((lo <=? x) && (x <=? hi))%N
  end.

(** Under IGNORECASE the members of a set are lower-cased ([_optimize_charset]). *)
Definition item_mem_folded (it : citem) (x : char) : bool :=
  match it with
  | IChr c => in_chars (tolower c :: case_fixes (tolower c)) x
  | IRange lo hi =>
      existsb (fun c => in_chars (tolower c :: case_fixes (tolower c)) x)
              (map N.of_nat (List.seq (N.to_nat lo) (S (N.to_nat hi) - N.to_nat lo)))
  end.

Definition cls_match (cl : cclass) (x : char) : bool :=
  match cl with
  | CSet neg items =>
      if IGNORECASE fl && existsb item_cased items then
        let test y := xorb neg (existsb (fun it => item_mem_folded it y) items) in
        test (tolower x) || test (toupper x)
      else xorb neg (existsb (fun it => item_mem it x) items)
  | CSpace => is_space x
  | CWord => is_word x
  | CAny => DOTALL fl || negb (chr_eqb x NL)
  end.

Definition at_bol (p : pos) : bool :=
  match prev p with
  | None => true
  | Some c => MULTILINE fl && chr_eqb c NL
  end.

Definition at_eol (p : pos) : bool :=
  match rest p with
  | [] => true
  | c :: tl => chr_eqb c NL && (MULTILINE fl || match tl with [] => true | _ => false end)
  end.

Definition at_end (p : pos) : bool :=
  match rest p with [] => true | _ => false end.

Definition at_wordb (p : pos) : bool :=
  let before := match prev p with Some c => is_word c | None => false end in
  let after := match rest p with c :: _ => is_word c | [] => false end in
  xorb before after.

(** Greedy and lazy repetition of a character test, at least [lo] times;
    [k] continues the match. *)
Fixpoint rep_greedy (t : char -> bool) (lo : nat) (pv : option char) (i : nat)
    (s : str) (k : pos -> option result) : option result :=
  let stop := if lo =? 0 then k {| prev := pv; idx := i; rest := s |} else None in
  match s with
  | x :: s' =>
      if t x then
        match rep_greedy t (pred lo) (Some x) (S i) s' k with
        | Some r => Some r
        | None => stop
        end
      else stop
  | [] => stop
  end.

Fixpoint rep_lazy (t : char -> bool) (lo : nat) (pv : option char) (i : nat)
    (s : str) (k : pos -> option result) : option result :=
  match (if lo =? 0 then k {| prev := pv; idx := i; rest := s |} else None) with
  | Some r => Some r
  | None =>
      match s with
      | x :: s' => if t x then rep_lazy t (pred lo) (Some x) (S i) s' k else None
      | [] => None
      end
  end.

Definition one (t : char -> bool) (p : pos) (k : pos -> option result) : option result :=
  match rest p with
  | x :: s' => if t x then k {| prev := Some x; idx := S (idx p); rest := s' |} else None
  | [] => None
  end.

(** The backtracking matcher: [m r p c k] matches [r] at [p] with the groups
    [c] set so far and hands every way of matching it, in the order of
    preference of [re], to the continuation [k] until one succeeds. *)
Fixpoint m (r : regex) (p : pos) (c : caps) (k : pos -> caps -> option result)
    {struct r} : option result :=
  match r with
  | Eps => k p c
  | Chr a => one (chr_match a) p (fun p' => k p' c)
  | Cls cl => one (cls_match cl) p (fun p' => k p' c)
  | Seq r1 r2 => m r1 p c (fun p' c' => m r2 p' c' k)
  | Alt r1 r2 =>
      match m r1 p c k with
      | Some x => Some x
      | None => m r2 p c k
      end
  | Opt r1 =>
      match m r1 p c k with
      | Some x => Some x
      | None => k p c
      end
  | Rep greedy lo cl =>
      (if greedy then rep_greedy else rep_lazy)
        (cls_match cl) lo (prev p) (idx p) (rest p) (fun p' => k p' c)
  | Grp n r1 => m r1 p c (fun p' c' => k p' (set_cap n (idx p, idx p') c'))
  | Ahead r1 =>
      match m r1 p c (fun p' c' => Some (p', c')) with
      | Some (_, c') => k p c'
      | None => None
      end
  | Bol => if at_bol p then k p c else None
  | Eol => if at_eol p then k p c else None
  | EndZ => if at_end p then k p c else None
  | WordB => if at_wordb p then k p c else None
  end.

End Matcher.

(** *** The search loop *)

Record rmatch := { m_start : nat; m_end : nat; m_caps : caps }.

(** A compiled pattern. *)
Record pattern := { p_flags : flags; p_re : regex }.

Definition compile (fl : flags) (r : regex) : pattern := {| p_flags := fl; p_re := r |}.

(** One attempt at one place; [must_advance] refuses the empty match. *)
Definition try_at (pt : pattern) (p : pos) (must_advance : bool) : option rmatch :=
  match m (p_flags pt) (p_re pt) p (repeat None (ngroups (p_re pt)))
          (fun p' c' => if must_advance && (idx p' =? idx p) then None else Some (p', c')) with
  | Some (p', c') => Some {| m_start := idx p; m_end := idx p'; m_caps := c' |}
  | None => None
  end.

(** The matches found at [p], and how many characters the scan then skips
    ([0]: the character at [p] is unmatched text). After an empty match the
    search is repeated in place and must advance. *)
Definition here (pt : pattern) (p : pos) : list rmatch * nat :=
  match try_at pt p false with
  | None => ([], 0)
  | Some m1 =>
      if m_end m1 =? idx p then
        match try_at pt p true with
        | None => ([m1], 0)
        | Some m2 => ([m1; m2], m_end m2 - idx p)
        end
      else ([m1], m_end m1 - idx p)
  end.

(** The subject cut into unmatched characters and matches, left to right. *)
Inductive token :=
| TChar (c : char)
| TMatch (mt : rmatch).

Fixpoint scan (pt : pattern) (pv : option char) (i : nat) (s : str) (skip : nat)
    : list token :=
  match skip with
  | S sk =>
      match s with
      | [] => []
      | x :: s' => scan pt (Some x) (S i) s' sk
      end
  | O =>
      let (ms, n) := here pt {| prev := pv; idx := i; rest := s |} in
      map TMatch ms ++
      match s with
      | [] => []
      | x :: s' =>
          match n with
          | O => TChar x :: scan pt (Some x) (S i) s' 0
          | S n' => scan pt (Some x) (S i) s' n'
          end
      end
  end.

Definition tokens (pt : pattern) (s : str) : list token := scan pt None 0 s 0.

(** [pattern.finditer(s)] *)
Fixpoint matches_of (ts : list token) : list rmatch :=
  match ts with
  | [] => []
  | TChar _ :: ts' => matches_of ts'
  | TMatch mt :: ts' => mt :: matches_of ts'
  end.

Definition finditer (pt : pattern) (s : str) : list rmatch := matches_of (tokens pt s).

(** [pattern.search(s)] *)
Definition search (pt : pattern) (s : str) : option rmatch := hd_error (finditer pt s).

(** [pattern.sub(repl, s)] for a replacement without backslashes. *)
Fixpoint subst_tokens (repl : str) (ts : list token) : str :=
  match ts with
  | [] => []
  | TChar c :: ts' => c :: subst_tokens repl ts'
  | TMatch _ :: ts' => repl ++ subst_tokens repl ts'
  end.

Definition sub (pt : pattern) (repl : str) (s : str) : str := subst_tokens repl (tokens pt s).

(** [pattern.split(s)] for a pattern without groups. *)
Fixpoint split_tokens (cur : str) (ts : list token) : list str :=
  match ts with
  | [] => [rev cur]
  | TChar c :: ts' => split_tokens (c :: cur) ts'
  | TMatch _ :: ts' => rev cur :: split_tokens [] ts'
  end.

Definition split (pt : pattern) (s : str) : list str := split_tokens [] (tokens pt s).

(** [match.group(n)]: [None] for a group that took no part. *)
Definition group (s : str) (mt : rmatch) (n : nat) : py (option str) :=
  match n with
  | O => Ret (Some (slice s (m_start mt) (m_end mt)))
  | S n' =>
      match nth_error (m_caps mt) n' with
      | None => Raise IndexError
      | Some None => Ret None
      | Some (Some (a, b)) => Ret (Some (slice s a b))
      end
  end.

(** [pattern.findall(s)] for a pattern with one group. *)
Definition findall1 (pt : pattern) (s : str) : list str :=
  map (fun mt => match nth_error (m_caps mt) 0 with
                 | Some (Some (a, b)) => slice s a b
                 | _ => []
                 end) (finditer pt s).

(** ** The translator *)

Section Translator.

(** [self.table], loaded from [translation_table.json]. *)
Variable table : dict.

(** [self.reverse_table = {v: k for k, v in self.table.items()}] *)
Definition reverse_table : dict :=
  dict_of (map (fun kv => (snd kv, fst kv)) table).

Definition extended_reverse : dict :=
  dict_of
    [ (u "0", u "o"); (u "O", u "o");
      (u "1", u "i"); (u "I", u "i");
      (u "3", u "e"); (u "E", u "e");
      (u "4", u "a"); (u "A", u "a");
      (u "7", u "t"); (u "T", u "t");
      (u "_", u " ");
      (u "5", u "s"); (u "S", u "s");
      (u "6", u "g"); (u "G", u "g");
      (u "8", u "b"); (u "B", u "b");
      (u "9", u "g"); (u "G", u "g");
      (u "2", u "z"); (u "Z", u "z") ].

Definition character_names : list str :=
  [ u "HOUSE"; u "FOREMAN"; u "CAMERON"; u "WILSON";
    u "CHASE"; u "CUDDY"; u "THIRTEEN"; u "TAUB" ].

(** *** [to_leetspeak] *)

Definition to_leetspeak (text : str) : str :=
  fold_left
    (fun result char =>
       match dict_get table [char] with
       | Some v => result ++ v
       | None => result ++ [char]
       end)
    (lower text) [].

(** *** [from_leetspeak] *)

Definition numeric_fixes : dict :=
  dict_of
    [ (u "io", u "10"); (u "ii", u "11"); (u "iz", u "12"); (u "ie", u "13"); (u "ia", u "14");
      (u "is", u "15"); (u "ig", u "16"); (u "it", u "17"); (u "ib", u "18"); (u "ig", u "19");
      (u "zo", u "20"); (u "zi", u "21"); (u "zz", u "22"); (u "ze", u "23"); (u "za", u "24");
      (u "zs", u "25"); (u "zg", u "26"); (u "zt", u "27"); (u "zb", u "28"); (u "zg", u "29");
      (u "eo", u "30"); (u "ei", u "31");
      (u "ao", u "40"); (u "sooo", u "5000"); (u "iooo", u "1000") ].

(** [for leet, normal in d.items(): result = result.replace(leet, normal)] *)
Definition replace_all (d : dict) (s : str) : str :=
  fold_left (fun result kv => replace (fst kv) (snd kv) result) d s.

(** [r'\b' + re.escape(leet) + r'\b'], for a word of letters. *)
Definition word_pattern (leet : str) : pattern :=
  compile no_flags (seq [WordB; lit leet; WordB]).

Definition numeric_pass (s : str) : str :=
  fold_left (fun result kv => sub (word_pattern (fst kv)) (snd kv) result) numeric_fixes s.

Definition from_leetspeak (leetspeak : str) : str :=
  match leetspeak with
  | [] => []
  | _ :: _ =>
      let result := replace_all reverse_table leetspeak in
      let result := replace_all extended_reverse result in
      numeric_pass result
  end.

(** *** [contains_leetspeak] *)

(** [r'[0-9_]'] *)
Definition leet_indicator : pattern :=
  compile no_flags (Cls (CSet false [IRange (ch "0") (ch "9"); IChr (ch "_")])).

Definition contains_leetspeak (text : str) : bool :=
  match search leet_indicator text with
  | Some _ => true
  | None => false
  end.

(** *** The patterns of [extract_leetspeak] *)

Definition line_start : regex := Alt Bol (Chr NL).                  (* (?:^|\n) *)
Definition bullet_char : cclass := CSet false [IChr BULLET; IChr (ch "*"); IChr (ch "-")].   (* [•*-] *)
Definition not_rparen : cclass := CSet true [IChr (ch ")")].              (* [^)] *)

(** [r'```(?:markdown)?|```'] *)
Definition fence : pattern :=
  compile no_flags
    (Alt (Seq (lit (u "```")) (Opt (lit (u "markdown")))) (lit (u "```"))).

(** [(?:^|\n)\s*(?:HOUSE|HoUse)(?:\s*:|\.)?(?:\s*\([^)]*\))?\s*(.*?)
     (?=(?:^|\n)\s*(?:FOREMAN|CAMERON|WILSON|CHASE|CUDDY|$))],
    with DOTALL, MULTILINE and IGNORECASE. *)
Definition house_pattern : pattern :=
  compile {| IGNORECASE := true; MULTILINE := true; DOTALL := true |}
    (seq [ line_start; star CSpace;
           Alt (lit (u "HOUSE")) (lit (u "HoUse"));
           Opt (Alt (Seq (star CSpace) (Chr (ch ":"))) (Chr (ch ".")));
           Opt (seq [star CSpace; Chr (ch "("); star not_rparen; Chr (ch ")")]);
           star CSpace;
           Grp 1 (star_lazy CAny);
           Ahead (seq [ line_start; star CSpace;
                        alt [ lit (u "FOREMAN"); lit (u "CAMERON"); lit (u "WILSON");
                              lit (u "CHASE"); lit (u "CUDDY"); Eol ] ]) ]).

(** [(?:^|\n)\s*[•*-]\s*(.*?)(?=(?:^|\n)\s*[•*-]|\Z)], with DOTALL and MULTILINE. *)
Definition bullet_pattern : pattern :=
  compile {| IGNORECASE := false; MULTILINE := true; DOTALL := true |}
    (seq [ line_start; star CSpace; Cls bullet_char; star CSpace;
           Grp 1 (star_lazy CAny);
           Ahead (Alt (seq [line_start; star CSpace; Cls bullet_char]) EndZ) ]).

(** [r'(?:^|\n)\s*[•*-]\s+'] *)
Definition bullet_marker : pattern :=
  compile no_flags (seq [line_start; star CSpace; Cls bullet_char; plus CSpace]).

(** [r'```(?:\w+)?\n?(.*?)```'], with DOTALL. *)
Definition code_block : pattern :=
  compile {| IGNORECASE := false; MULTILINE := false; DOTALL := true |}
    (seq [ lit (u "```"); Opt (plus CWord); Opt (Chr NL);
           Grp 1 (star_lazy CAny); lit (u "```") ]).

(** [r'\n\s*\n'] *)
Definition blank_line : pattern :=
  compile no_flags (seq [Chr NL; star CSpace; Chr NL]).

(** *** [_extract_full_bullet_content] *)

Definition _extract_full_bullet_content (text : str) : py (option str) :=
  let bullet_markers := finditer bullet_marker text in
  match bullet_markers with
  | [] => Ret None
  | _ :: _ =>
      bullet_points <-
        for_each (enumerate bullet_markers) []
          (fun im bullet_points =>
             let (i, marker) := im in
             let start := m_end marker in
             end_ <- (if i =? List.length bullet_markers - 1
                      then Ret (List.length text)
                      else next <- index bullet_markers (i + 1) ;; Ret (m_start next)) ;;
             let content := strip (slice text start end_) in
             match content with
             | [] => Ret bullet_points
             | _ :: _ => Ret (bullet_points ++ [content])
             end) ;;
      match bullet_points with
      | [] => Ret None
      | _ :: _ => Ret (Some (join [NL; NL] bullet_points))
      end
  end.

(** *** [extract_leetspeak] *)

Definition nonempty (s : str) : bool :=
  match s with [] => false | _ :: _ => true end.

(** Strategies 4 and 5: the paragraphs with leetspeak, else the response. *)
Definition leet_paragraphs_or_all (response : str) : str :=
  let paragraphs := split blank_line response in
  let leet_paragraphs := filter contains_leetspeak paragraphs in
  match leet_paragraphs with
  | _ :: _ => join [NL; NL] leet_paragraphs
  | [] => response
  end.

(** Strategy 3 and what follows it. *)
Definition code_blocks_or_later (response : str) : str :=
  let code_blocks := findall1 code_block response in
  let code_content := filter contains_leetspeak code_blocks in
  match code_blocks, code_content with
  | _ :: _, _ :: _ => join [NL; NL] code_content
  | _, _ => leet_paragraphs_or_all response
  end.

(** The loop over [house_matches]. *)
Definition house_segments (response : str) : py (list str) :=
  for_each (finditer house_pattern response) []
    (fun mt house_dialogue =>
       g <- group response mt 1 ;;
       dialogue <- match g with
                   | Some d => Ret (strip d)
                   | None => Raise AttributeError
                   end ;;
       if nonempty dialogue && contains_leetspeak dialogue
       then Ret (house_dialogue ++ [dialogue])
       else Ret house_dialogue).

Definition extract_leetspeak (response : str) : py str :=
  if negb (nonempty response) || (List.length (strip response) =? 0) then Ret []
  else
    let response := sub fence [] response in
    (* STRATEGY 1 *)
    house_dialogue <- house_segments response ;;
    match house_dialogue with
    | _ :: _ =>
        let combined_dialogue := join [NL] house_dialogue in
        let bullet_matches := findall1 bullet_pattern combined_dialogue in
        match bullet_matches with
        | _ :: _ =>
            full_content <- _extract_full_bullet_content combined_dialogue ;;
            match full_content with
            | Some ((_ :: _) as content) => Ret content
            | _ => Ret combined_dialogue
            end
        | [] => Ret combined_dialogue
        end
    | [] =>
        (* STRATEGY 2 *)
        full_content <-
          (if has_char BULLET response || has_char (ch "*") response || has_char (ch "-") response
           then _extract_full_bullet_content response
           else Ret None) ;;
        match full_content with
        | Some ((_ :: _) as content) => Ret content
        | _ => (* STRATEGIES 3, 4, 5 *) Ret (code_blocks_or_later response)
        end
    end.

(** *** [normalize_character_names] *)

(** [r'\b' + ''.join(f'[{c.lower()}{c.upper()}]' for c in name) + r'\b'],
    with IGNORECASE; names are ASCII. *)
Definition name_pattern (name : str) : pattern :=
  compile {| IGNORECASE := true; MULTILINE := false; DOTALL := false |}
    (seq (WordB ::
          map (fun c => Cls (CSet false [IChr (ascii_lower c); IChr (ascii_upper c)])) name
          ++ [WordB])).

Definition normalize_character_names (text : str) : str :=
  fold_left (fun text name => sub (name_pattern name) name text) character_names text.

(** *** [clean_stage_directions] *)

Definition newline : cclass := CSet false [IChr NL].

(** [r'\([^)]*\)'] *)
Definition parenthetical : pattern :=
  compile no_flags (seq [Chr (ch "("); star not_rparen; Chr (ch ")")]).

(** [r'\[[^\]]*\]'] *)
Definition bracketed : pattern :=
  compile no_flags (seq [Chr (ch "["); star (CSet true [IChr (ch "]")]); Chr (ch "]")]).

(** [r'\n{3,}'] *)
Definition newlines3 : pattern := compile no_flags (Rep true 3 newline).

Definition clean_stage_directions (text : str) : str :=
  let text := sub parenthetical [] text in
  let text := sub bracketed [] text in
  sub newlines3 [NL; NL] text.

(** *** [process_response] *)

Definition house_label : regex :=
  alt [lit (u "HOUSE"); lit (u "HoUse"); lit (u "H0use")].

(** [r'(?:HOUSE|HoUse|H0use)\s*\([^)]*\)'], with IGNORECASE. *)
Definition house_action : pattern :=
  compile {| IGNORECASE := true; MULTILINE := false; DOTALL := false |}
    (seq [house_label; star CSpace; Chr (ch "("); star not_rparen; Chr (ch ")")]).

(** [r'^(?:HOUSE|HoUse|H0use)\s*(?::)?\s*'], with MULTILINE and IGNORECASE. *)
Definition house_prefix : pattern :=
  compile {| IGNORECASE := true; MULTILINE := true; DOTALL := false |}
    (seq [Bol; house_label; star CSpace; Opt (Chr (ch ":")); star CSpace]).

(** [r'\[SCENE (?:START|END)\]'] *)
Definition scene_marker : pattern :=
  compile no_flags
    (seq [lit (u "[SCENE "); Alt (lit (u "START")) (lit (u "END")); Chr (ch "]")]).

(** The steps of [process_response] that follow [from_leetspeak]. *)
Definition post_decode (decoded : str) : str :=
  let decoded := normalize_character_names decoded in
  let decoded := sub fence [] decoded in
  let decoded := sub scene_marker [] decoded in
  let decoded := sub newlines3 [NL; NL] decoded in
  strip decoded.

Definition process_response (response : str) : py str :=
  extracted <- extract_leetspeak response ;;
  let cleaned := sub house_action [] extracted in
  let cleaned := sub house_prefix [] cleaned in
  let cleaned := clean_stage_directions cleaned in
  let decoded := from_leetspeak cleaned in
  Ret (post_decode decoded).

End Translator.

End WithUnicode.

(** * The client and the command line: [src/api_client.py], [src/main.py]

    Of [GeminiClient] the construction of the prompt is modelled; the request
    itself, its rate limiter and the clock are not: the reply of the API is a
    parameter. Of [IloIke] the handling of one query and the switch of the
    debug mode are modelled, not the terminal. *)

(** ** [GeminiClient.create_prompt] *)

Definition LEETSPEAK_PLACEHOLDER : str := u "{{LEETSPEAK_PLACEHOLDER}}".

(** [self.prompt_template.replace('{{LEETSPEAK_PLACEHOLDER}}', leetspeak_query)];
    [self.prompt_template] is read from a file and is a parameter. *)
Definition create_prompt (prompt_template leetspeak_query : str) : str :=
  replace LEETSPEAK_PLACEHOLDER leetspeak_query prompt_template.

(** ** The debug flags *)

(** The [debug] attributes of the application and of its components:
    [IloIke.debug_mode], [Translator.debug], [GeminiClient.debug] and
    [RateLimiter.debug]. *)
Record debug_flags := {
  debug_mode : bool;
  translator_debug : bool;
  client_debug : bool;
  limiter_debug : bool
}.

(** [Translator.set_debug] *)
Definition Translator_set_debug (debug : bool) (st : debug_flags) : debug_flags :=
  {| debug_mode := debug_mode st; translator_debug := debug;
     client_debug := client_debug st; limiter_debug := limiter_debug st |}.

(** [RateLimiter.set_debug] *)
Definition RateLimiter_set_debug (debug : bool) (st : debug_flags) : debug_flags :=
  {| debug_mode := debug_mode st; translator_debug := translator_debug st;
     client_debug := client_debug st; limiter_debug := debug |}.

(** [GeminiClient.set_debug]: [self.debug = debug], then
    [self.rate_limiter.set_debug(debug)]. *)
Definition GeminiClient_set_debug (debug : bool) (st : debug_flags) : debug_flags :=
  let st := {| debug_mode := debug_mode st; translator_debug := translator_debug st;
               client_debug := debug; limiter_debug := limiter_debug st |} in
  RateLimiter_set_debug debug st.

(** The flags as [IloIke.__init__] leaves them: [debug_mode] is read from the
    configuration and handed to the constructors of the components. *)
Definition init_debug_flags (debug_mode : bool) : debug_flags :=
  {| debug_mode := debug_mode; translator_debug := debug_mode;
     client_debug := debug_mode; limiter_debug := debug_mode |}.

(** [IloIke.toggle_debug_mode]: the message returned, [None] for a command
    that is neither [debug on] nor [debug off], and the flags afterwards. *)
Definition toggle_debug_mode (command : str) (st : debug_flags)
    : option str * debug_flags :=
  if str_eqb command (u "debug on") then
    let st := {| debug_mode := true; translator_debug := translator_debug st;
                 client_debug := client_debug st; limiter_debug := limiter_debug st |} in
    let st := Translator_set_debug true st in
    let st := GeminiClient_set_debug true st in
    (Some (u "[bold green]Debug mode enabled[/bold green]"), st)
  else if str_eqb command (u "debug off") then
    let st := {| debug_mode := false; translator_debug := translator_debug st;
                 client_debug := client_debug st; limiter_debug := limiter_debug st |} in
    let st := Translator_set_debug false st in
    let st := GeminiClient_set_debug false st in
    (Some (u "[bold green]Debug mode disabled[/bold green]"), st)
  else (None, st).

(** ** [IloIke.handle_query] *)

Section IloIke.

Context {U : unicode}.

(** [self.translator.table] and [self.gemini_client.prompt_template]. *)
Variable table : dict.
Variable prompt_template : str.

(** What [GeminiClient.generate_content] returns for a prompt: the text of
    the first candidate of the reply, or the empty string when the request
    fails or the reply has no candidate. *)
Variable generate_content : str -> str.

(** With the debug mode off [display_debug] does nothing. *)
Definition handle_query (query : str) : py str :=
  let leetspeak_query := to_leetspeak table query in
  let prompt := create_prompt prompt_template leetspeak_query in
  let response := generate_content prompt in
  decoded_content <- process_response table response ;;
  Ret decoded_content.

End IloIke.

(** * Vocabulary of the specification *)

(** Modelled from the spec: the file [translation_table.json] that [__init__]
    loads is not among the sources. The spec describes the table as a mapping
    of a few lower-case characters to their leet forms; the entries are the
    ones the comments of [extended_reverse] name (o to 0, i to 1, e to 3,
    a to 4, t to 7, space to underscore). *)
Definition documented_table : dict :=
  [ (u "o", u "0"); (u "i", u "1"); (u "e", u "3"); (u "a", u "4");
    (u "t", u "7"); (u " ", u "_") ].

(** ** Texts of the claims *)

Definition FENCE : str := u "```".

Definition NL3 : str := [NL; NL; NL].

Definition SCENE_START : str := u "[SCENE START]".
Definition SCENE_END : str := u "[SCENE END]".

(** The keys of the extended table that are no digits. *)
Definition REPLACED : str := u "_OIEATSGBZ".

Definition HOUSE_ANSWER : str := u "HOUSE: The answer is 4pple and 0range. [SCENE END]".

Definition HOUSE_BULLETS : str := u "HOUSE: * f00 " ++ [NL] ++ u "* b4r".

(** ** Characters and runs *)

Definition is_digit (c : char) : bool := ((ch "0" <=? c) && (c <=? ch "9"))%N.

(** An ASCII digit or an underscore. *)
Definition is_leet_char (c : char) : bool := is_digit c || chr_eqb c (ch "_").

Definition blank (s : str) : bool := forallb is_space s.

(** The number of leading characters of [s] that pass [t]. *)
Fixpoint lead_by (t : char -> bool) (s : str) : nat :=
  match s with
  | x :: s' => if t x then S (lead_by t s') else 0
  | [] => 0
  end.

(** The number of leading [b] of [s]. *)
Fixpoint lead (b : char) (s : str) : nat :=
  match s with
  | x :: s' => if chr_eqb b x then S (lead b s') else 0
  | [] => 0
  end.

(** ** Tables of single characters *)

Definition subst1 (a b c : char) : char := if chr_eqb a c then b else c.

(** A table of single characters, applied entry after entry to one character. *)
Definition subst_char (d : list (char * char)) (c : char) : char :=
  fold_left (fun c ab => subst1 (fst ab) (snd ab) c) d c.

Definition singles (d : list (char * char)) : dict :=
  map (fun ab => ([fst ab], [snd ab])) d.

Definition values_not_keys (d : list (char * char)) : bool :=
  forallb (fun ab => forallb (fun ab' => negb (chr_eqb (snd ab) (fst ab'))) d) d.

(** [extended_reverse], entry by entry. *)
Definition extended_pairs : list (char * char) :=
  [ (ch "0", ch "o"); (ch "O", ch "o"); (ch "1", ch "i"); (ch "I", ch "i");
    (ch "3", ch "e"); (ch "E", ch "e"); (ch "4", ch "a"); (ch "A", ch "a");
    (ch "7", ch "t"); (ch "T", ch "t"); (ch "_", ch " ");
    (ch "5", ch "s"); (ch "S", ch "s"); (ch "6", ch "g"); (ch "G", ch "g");
    (ch "8", ch "b"); (ch "B", ch "b"); (ch "9", ch "g");
    (ch "2", ch "z"); (ch "Z", ch "z") ].

Section Vocabulary.

Context {U : unicode}.

(** White space has no case: part of the Unicode data this development is
    parametric in. *)
Definition space_caseless : Prop := forall x, is_space x = true -> tolower x = x.

(** ** Whole words *)

Definition word_opt (c : option char) : bool :=
  match c with Some x => is_word x | None => false end.

(** [w] stands at the head of [s], with a word boundary on either side;
    [pv] is the character before [s]. *)
Definition word_here (w : str) (pv : option char) (s : str) : bool :=
  starts_with w s &&
  xorb (word_opt pv) (word_opt (hd_error s)) &&
  xorb (word_opt (match rev w with x :: _ => Some x | [] => pv end))
       (word_opt (hd_error (skipn (List.length w) s))).

Fixpoint word_occurs_from (w : str) (pv : option char) (s : str) : bool :=
  word_here w pv s ||
  match s with
  | [] => false
  | x :: s' => word_occurs_from w (Some x) s'
  end.

(** [w] occurs in [s] as a whole word. *)
Definition word_occurs (w s : str) : bool := word_occurs_from w None s.

(** ** What a match is *)

Definition step (p : pos) (x : char) (s' : str) : pos :=
  {| prev := Some x; idx := S (idx p); rest := s' |}.

(** [run t n p p']: [p'] is [p] after [n] characters that pass [t]. *)
Inductive run (t : char -> bool) : nat -> pos -> pos -> Prop :=
| run_stop p : run t 0 p p
| run_more n p x s' p' :
    rest p = x :: s' -> t x = true -> run t n (step p x s') p' -> run t (S n) p p'.

Section Matches.

Variable fl : flags.

(** The ways an expression can match, without the order of preference. *)
Inductive matches : regex -> pos -> caps -> pos -> caps -> Prop :=
| M_Eps p c : matches Eps p c p c
| M_Chr a p c x s' :
    rest p = x :: s' -> chr_match fl a x = true -> matches (Chr a) p c (step p x s') c
| M_Cls cl p c x s' :
    rest p = x :: s' -> cls_match fl cl x = true -> matches (Cls cl) p c (step p x s') c
| M_Seq r1 r2 p c p1 c1 p2 c2 :
    matches r1 p c p1 c1 -> matches r2 p1 c1 p2 c2 -> matches (Seq r1 r2) p c p2 c2
| M_AltL r1 r2 p c p' c' : matches r1 p c p' c' -> matches (Alt r1 r2) p c p' c'
| M_AltR r1 r2 p c p' c' : matches r2 p c p' c' -> matches (Alt r1 r2) p c p' c'
| M_OptSome r p c p' c' : matches r p c p' c' -> matches (Opt r) p c p' c'
| M_OptNone r p c : matches (Opt r) p c p c
| M_Rep g lo cl n p c p' :
    lo <= n -> run (cls_match fl cl) n p p' -> matches (Rep g lo cl) p c p' c
| M_Grp n r p c p' c' :
    matches r p c p' c' -> matches (Grp n r) p c p' (set_cap n (idx p, idx p') c')
| M_Ahead r p c p1 c1 : matches r p c p1 c1 -> matches (Ahead r) p c p c1
| M_Bol p c : at_bol fl p = true -> matches Bol p c p c
| M_Eol p c : at_eol fl p = true -> matches Eol p c p c
| M_EndZ p c : at_end p = true -> matches EndZ p c p c
| M_WordB p c : at_wordb p = true -> matches WordB p c p c.

End Matches.

(** The least number of characters a match consumes. *)
Fixpoint min_len (r : regex) : nat :=
  match r with
  | Chr _ | Cls _ => 1
  | Seq r1 r2 => min_len r1 + min_len r2
  | Alt r1 r2 => Nat.min (min_len r1) (min_len r2)
  | Rep _ lo _ => lo
  | Grp _ r1 => min_len r1
  | _ => 0
  end.

(** [p'] lies [w] further than [p]. *)
Definition ahead_by (w : str) (p p' : pos) : Prop :=
  rest p = w ++ rest p' /\ idx p' = idx p + List.length w /\
  prev p' = match rev w with x :: _ => Some x | [] => prev p end.

(** The place in [pre ++ t] between [pre] and [t]. *)
Definition pos_at (pre t : str) : pos :=
  {| prev := hd_error (rev pre); idx := List.length pre; rest := t |}.

Section Never.

Variable pt : pattern.

Definition never_matches (s : str) : Prop :=
  forall pre t, s = pre ++ t -> try_at pt (pos_at pre t) false = None.

End Never.

(** ** Bullets *)

(** Where the body of the [i]-th bullet ends: at the next marker, or at the
    end of the text. *)
Definition body_end (ms : list rmatch) (text : str) (i : nat) : nat :=
  match nth_error ms (S i) with
  | Some next => m_start next
  | None => List.length text
  end.

(** The trimmed body of every bullet of [text]. *)
Definition bullet_bodies (text : str) : list str :=
  let ms := finditer bullet_marker text in
  map (fun im => strip (slice text (m_end (snd im)) (body_end ms text (fst im))))
      (enumerate ms).

(** ** The cascade without its third strategy *)

(** The cascade of [extract_leetspeak] with Strategy 3 deleted, as the claim
    words it. *)
Definition extract_leetspeak_without_code_blocks (response : str) : py str :=
  if negb (nonempty response) || (List.length (strip response) =? 0) then Ret []
  else
    let response := sub fence [] response in
    house_dialogue <- house_segments response ;;
    match house_dialogue with
    | _ :: _ =>
        let combined_dialogue := join [NL] house_dialogue in
        let bullet_matches := findall1 bullet_pattern combined_dialogue in
        match bullet_matches with
        | _ :: _ =>
            full_content <- _extract_full_bullet_content combined_dialogue ;;
            match full_content with
            | Some ((_ :: _) as content) => Ret content
            | _ => Ret combined_dialogue
            end
        | [] => Ret combined_dialogue
        end
    | [] =>
        full_content <-
          (if has_char BULLET response || has_char (ch "*") response || has_char (ch "-") response
           then _extract_full_bullet_content response
           else Ret None) ;;
        match full_content with
        | Some ((_ :: _) as content) => Ret content
        | _ => Ret (leet_paragraphs_or_all response)
        end
    end.

Section Tables.

Variable table : dict.

(** Every entry of the table is undone by the extended table. *)
Definition agrees_with_extended : Prop :=
  forall k v, In (k, v) table -> In (v, k) extended_reverse.

End Tables.

End Vocabulary.

(** ** One pass of [re.sub] *)

Section Rewriting.

Context {U : unicode}.
Variable pt : pattern.
Variable repl : str.

(** [rewrites pre t o]: the pass of [pattern.sub(repl, ...)] that stands
    between [pre] and [t] turns [t] into [o]. A character at which the
    pattern does not match is kept; a match, which spans the text [w], is
    replaced and the pass goes on behind it. *)
Inductive rewrites : str -> str -> str -> Prop :=
| rw_end pre : rewrites pre [] []
| rw_keep pre x t o :
    try_at pt (pos_at pre (x :: t)) false = None ->
    rewrites (pre ++ [x]) t o ->
    rewrites pre (x :: t) (x :: o)
| rw_match pre w t o mt :
    try_at pt (pos_at pre (w ++ t)) false = Some mt ->
    w <> [] ->
    m_end mt = List.length pre + List.length w ->
    rewrites (pre ++ w) t o ->
    rewrites pre (w ++ t) (repl ++ o).

End Rewriting.

(** An expression every match of which consumes [min_len] characters. *)
Fixpoint rigid (r : regex) : bool :=
  match r with
  | Seq r1 r2 => rigid r1 && rigid r2
  | Grp _ r1 => rigid r1
  | Alt _ _ | Opt _ | Rep _ _ _ => false
  | _ => true
  end.

(** ** Asides *)

(** No [a] of [s] is followed, anywhere later in [s], by a [b]: [s] holds no
    aside that [a] opens and [b] closes. *)
Fixpoint no_pair (a b : char) (s : str) : bool :=
  match s with
  | [] => true
  | x :: s' => (negb (chr_eqb a x) || negb (has_char b s')) && no_pair a b s'
  end.

(** [a], then characters other than [b], then [b]: the shape of
    [parenthetical] and of [bracketed]. *)
Definition delimited (a b : char) : regex :=
  seq [Chr a; star (CSet true [IChr b]); Chr b].

(** ** Keys of the table *)

(** A key [to_leetspeak] can look up in an ASCII text: one character that is
    no upper-case ASCII letter. *)
Definition reachable (k : str) : bool :=
  match k with
  | [c] => negb ((65 <=? c) && (c <=? 90))%N
  | _ => false
  end.

(** [(k, v)] as [(v, k)]. *)
Definition swap (kv : str * str) : str * str := (snd kv, fst kv).

(** The commands of a session, one after the other. *)
Definition toggle_all (commands : list str) (st : debug_flags) : debug_flags :=
  fold_left (fun st command => snd (toggle_debug_mode command st)) commands st.

(** ** Names in any case *)

(** [[{c.lower()}{c.upper()}]] *)
Definition either_case (c : char) : cclass :=
  CSet false [IChr (ascii_lower c); IChr (ascii_upper c)].

(** The ASCII characters. *)
Definition ascii_chars : list char := map N.of_nat (List.seq 0 128).

(** ** A line of House *)

(** The flags of [house_pattern]. *)
Definition house_flags : flags :=
  {| IGNORECASE := true; MULTILINE := true; DOTALL := true |}.

(** The look-ahead of [house_pattern]: the next speaker, or the end of a line. *)
Definition next_speaker : regex :=
  seq [ line_start; star CSpace;
        alt [ lit (u "FOREMAN"); lit (u "CAMERON"); lit (u "WILSON");
              lit (u "CHASE"); lit (u "CUDDY"); Eol ] ].

Definition HOUSE_LABEL : str := u "HOUSE: ".

(** The characters a line of dialogue is taken to be free of: the newline,
    the backtick and the three bullet characters. *)
Definition LINE_BREAKERS : str := [NL; ch "`"; BULLET; ch "*"; ch "-"].

(** ** Plain prose *)

(** The characters at which the passes of [process_response] look for
    structure: those that break a line of House, and the opening parenthesis
    and bracket. *)
Definition MARKUP : str := LINE_BREAKERS ++ [ch "("; ch "["].

(** ** Bullet lists *)

(** The characters that mark a bullet. *)
Definition BULLET_MARKS : str := [BULLET; ch "*"; ch "-"].

(** A list of bullets, one to a line: the mark, a space and the item. *)
Definition bullet_list (b : char) (items : list str) : str :=
  join [NL] (map (fun item => b :: ch " " :: item) items).

(** The lines of a bullet list after the first. *)
Definition more_bullets (b : char) (items : list str) : str :=
  flat_map (fun item => NL :: b :: ch " " :: item) items.

(** The texts between the matches [ms]: from the end of each to the start of
    the next, or to the end of the text. *)
Fixpoint bodies_between (text : str) (ms : list rmatch) : list str :=
  match ms with
  | [] => []
  | mt :: ms' =>
      slice text (m_end mt)
        (match ms' with next :: _ => m_start next | [] => List.length text end)
      :: bodies_between text ms'
  end.

(** Where the markers of the lines after the first stand, when the first of
    them starts at [i]: each spans the newline, the mark and the space. *)
Fixpoint marker_places (i : nat) (items : list str) : list rmatch :=
  match items with
  | [] => []
  | item :: items' =>
      {| m_start := i; m_end := i + 3; m_caps := [] |}
      :: marker_places (i + 3 + List.length item) items'
  end.

(** * Strings and lists *)

(** Case analysis on [H : In x l] for a list [l] given in full; [tac] closes
    the goal from the equation of each member. *)
Ltac members H tac := repeat (destruct H as [H|H]; [tac H|]); destruct H.

(** Comparisons of code points, from [bool] to [lia]. *)
Ltac bool_lia :=
  repeat rewrite ?orb_true_iff, ?andb_true_iff, ?N.leb_le, ?N.eqb_eq; lia.

(** ** Prefixes and occurrences *)

Lemma chr_eqb_eq a b : chr_eqb a b = true <-> a = b.
Proof. apply N.eqb_eq. Qed.

Lemma chr_eqb_refl a : chr_eqb a a = true.
Proof. apply N.eqb_refl. Qed.

Lemma str_eqb_eq a : forall b, str_eqb a b = true -> a = b.
Proof.
  induction a as [|x a IH]; intros [|y b]; simpl; try discriminate; [reflexivity|].
  intros H. apply andb_prop in H. destruct H as (H1 & H2).
  apply chr_eqb_eq in H1. apply IH in H2. congruence.
Qed.

Lemma starts_with_iff w s : starts_with w s = true <-> exists t, s = w ++ t.
Proof.
  revert s; induction w as [|x w IH]; intros s; simpl.
  - split; eauto.
  - destruct s as [|y s].
    + split; [discriminate|intros (t & H); discriminate].
    + rewrite andb_true_iff, chr_eqb_eq, IH. split.
      * intros (-> & t & ->). eauto.
      * intros (t & H). inversion H; subst. eauto.
Qed.

Lemma starts_with_app w t : starts_with w (w ++ t) = true.
Proof. apply starts_with_iff. eauto. Qed.

Lemma occurs_iff w s : occurs w s = true <-> exists pre t, s = pre ++ w ++ t.
Proof.
  induction s as [|y s IH]; simpl.
  - rewrite orb_false_r, starts_with_iff. split.
    + intros (t & H). exists [], t. exact H.
    + intros (pre & t & H). destruct pre; [eauto|discriminate].
  - rewrite orb_true_iff, starts_with_iff, IH. split.
    + intros [(t & H)|(pre & t & H)].
      * exists [], t. exact H.
      * exists (y :: pre), t. simpl. congruence.
    + intros (pre & t & H). destruct pre as [|z pre].
      * left. eauto.
      * right. inversion H; subst. eauto.
Qed.

Lemma occurs_at w pre t : starts_with w t = true -> occurs w (pre ++ t) = true.
Proof.
  intros H. apply starts_with_iff in H. destruct H as (t' & ->).
  apply occurs_iff. eauto.
Qed.

Lemma occurs_suffix w pre t : occurs w t = true -> occurs w (pre ++ t) = true.
Proof.
  intros H. apply occurs_iff in H. destruct H as (a & b & ->).
  apply occurs_iff. exists (pre ++ a), b. rewrite <- app_assoc. reflexivity.
Qed.

Lemma occurs_prefix w s t : occurs w s = true -> occurs w (s ++ t) = true.
Proof.
  intros H. apply occurs_iff in H. destruct H as (a & b & ->).
  apply occurs_iff. exists a, (b ++ t). rewrite <- !app_assoc. reflexivity.
Qed.

(** ** Runs of one character *)

Lemma starts_with_3 b s : starts_with [b; b; b] s = (3 <=? lead b s).
Proof.
  destruct s as [|x [|y [|z s]]]; simpl; try reflexivity.
  - destruct (chr_eqb b x); reflexivity.
  - destruct (chr_eqb b x); [|reflexivity]. destruct (chr_eqb b y); reflexivity.
  - destruct (chr_eqb b x); [|reflexivity]. destruct (chr_eqb b y); [|reflexivity].
    destruct (chr_eqb b z); reflexivity.
Qed.

Lemma occurs_cons_short b x s :
  occurs [b; b; b] s = false -> (chr_eqb b x = true -> lead b s <= 1) ->
  occurs [b; b; b] (x :: s) = false.
Proof.
  intros Hs Hl. cbn [occurs]. rewrite Hs, orb_false_r, starts_with_3.
  apply Nat.leb_gt. simpl. destruct (chr_eqb b x); [|lia]. specialize (Hl eq_refl). lia.
Qed.

Lemma lead_by_ext t1 t2 s : (forall x, t1 x = t2 x) -> lead_by t1 s = lead_by t2 s.
Proof. intros H. induction s as [|x s IH]; simpl; [reflexivity|]. rewrite H, IH. reflexivity. Qed.

Lemma lead_lead_by b s : lead b s = lead_by (chr_eqb b) s.
Proof. induction s as [|x s IH]; simpl; [reflexivity|]. rewrite IH. reflexivity. Qed.

Lemma lead_by_skipn t s : lead_by t (skipn (lead_by t s) s) = 0.
Proof.
  induction s as [|x s IH]; simpl; [reflexivity|].
  destruct (t x) eqn:E; simpl; [exact IH|]. rewrite E. reflexivity.
Qed.

(** ** Trimming *)

Lemma lstrip_suffix s : exists pre, s = pre ++ lstrip s.
Proof.
  induction s as [|c s (pre & IH)]; simpl.
  - exists []. reflexivity.
  - destruct (is_space c).
    + exists (c :: pre). simpl. congruence.
    + exists []. reflexivity.
Qed.

Lemma lstrip_head s : match lstrip s with c :: _ => is_space c = false | [] => True end.
Proof.
  induction s as [|c s IH]; simpl; [exact I|].
  destruct (is_space c) eqn:E; [exact IH|exact E].
Qed.

Lemma lstrip_fixed s :
  match s with c :: _ => is_space c = false | [] => True end -> lstrip s = s.
Proof. destruct s as [|c s]; simpl; [reflexivity|]. intros ->. reflexivity. Qed.

Lemma lstrip_idem s : lstrip (lstrip s) = lstrip s.
Proof. apply lstrip_fixed, lstrip_head. Qed.

Lemma rstrip_prefix s : exists post, s = rstrip s ++ post.
Proof.
  unfold rstrip. destruct (lstrip_suffix (rev s)) as (pre & H).
  exists (rev pre). rewrite <- rev_app_distr, <- H, rev_involutive. reflexivity.
Qed.

Lemma rstrip_idem s : rstrip (rstrip s) = rstrip s.
Proof. unfold rstrip. rewrite rev_involutive, lstrip_idem. reflexivity. Qed.

(** Trimming the right end keeps a left end that is already trimmed. *)
Lemma lstrip_rstrip s : lstrip s = s -> lstrip (rstrip s) = rstrip s.
Proof.
  intros H. apply lstrip_fixed.
  destruct (rstrip_prefix s) as (post & E).
  destruct (rstrip s) as [|c r]; [exact I|].
  rewrite E in H. simpl in H. destruct (is_space c) eqn:Q; [|reflexivity].
  exfalso. destruct (lstrip_suffix (r ++ post)) as (pre & E').
  assert (L : List.length (lstrip (r ++ post)) <= List.length (r ++ post)).
  { rewrite E' at 2. rewrite length_app. lia. }
  rewrite H in L. simpl in L. lia.
Qed.

Lemma strip_idem s : strip (strip s) = strip s.
Proof.
  unfold strip. rewrite (lstrip_rstrip (lstrip_idem s)).
  apply rstrip_idem.
Qed.

Lemma occurs_strip w s : occurs w (strip s) = true -> occurs w s = true.
Proof.
  unfold strip. intros H.
  destruct (lstrip_suffix s) as (pre & E). destruct (rstrip_prefix (lstrip s)) as (post & E').
  rewrite E, E'. apply occurs_suffix, occurs_prefix. exact H.
Qed.

(** ** White space *)

Lemma lstrip_blank s : blank s = true -> lstrip s = [].
Proof.
  induction s as [|c s IH]; simpl; [reflexivity|].
  intros H. apply andb_prop in H. destruct H as (-> & H). apply IH. exact H.
Qed.

Lemma strip_blank s : blank s = true -> strip s = [].
Proof. intros H. unfold strip. rewrite lstrip_blank by exact H. reflexivity. Qed.

Lemma lstrip_nil_blank s : lstrip s = [] -> blank s = true.
Proof.
  induction s as [|c s IH]; simpl; [reflexivity|].
  destruct (is_space c); [exact IH|discriminate].
Qed.

Lemma strip_nil_blank s : strip s = [] -> blank s = true.
Proof.
  unfold strip, rstrip. intros H.
  assert (H' : lstrip (rev (lstrip s)) = []).
  { destruct (lstrip (rev (lstrip s))); [reflexivity|].
    apply (f_equal (@List.length char)) in H. rewrite length_rev in H. discriminate. }
  apply lstrip_nil_blank in H'.
  assert (Hb : blank (lstrip s) = true).
  { unfold blank in *. rewrite forallb_forall in *. intros x Hx. apply H', in_rev.
    rewrite rev_involutive. exact Hx. }
  apply lstrip_nil_blank. pose proof (lstrip_head s) as Hh.
  destruct (lstrip s) as [|c r]; [reflexivity|].
  simpl in Hb. rewrite Hh in Hb. discriminate.
Qed.

Lemma blank_in s x : blank s = true -> In x s -> is_space x = true.
Proof. unfold blank. rewrite forallb_forall. auto. Qed.

Lemma blank_has_char s c : blank s = true -> is_space c = false -> has_char c s = false.
Proof.
  intros Hb Hc. unfold has_char. destruct (existsb (chr_eqb c) s) eqn:E; [|reflexivity].
  apply existsb_exists in E. destruct E as (x & Hin & Hx). apply chr_eqb_eq in Hx. subst x.
  rewrite (@blank_in s c Hb Hin) in Hc. discriminate.
Qed.

(** ** Replacement *)

Lemma replace_from_absent old new s :
  occurs old s = false -> replace_from old new s 0 = s.
Proof.
  induction s as [|c s IH]; intros H; [reflexivity|].
  cbn [occurs] in H. apply orb_false_iff in H. destruct H as (H1 & H2).
  cbn [replace_from]. rewrite H1, IH by exact H2. reflexivity.
Qed.

Lemma replace_absent old new s : occurs old s = false -> replace old new s = s.
Proof.
  intros H. destruct old as [|a old].
  - destruct s; discriminate.
  - apply replace_from_absent. exact H.
Qed.

Lemma replace_from_single a b s : replace_from [a] [b] s 0 = map (subst1 a b) s.
Proof.
  induction s as [|c s IH]; simpl; [reflexivity|].
  unfold subst1 at 1. destruct (chr_eqb a c); simpl; rewrite IH; reflexivity.
Qed.

Lemma replace_single a b s : replace [a] [b] s = map (subst1 a b) s.
Proof. apply replace_from_single. Qed.

Lemma fold_replace_singles d : forall s,
  fold_left (fun result kv => replace (fst kv) (snd kv) result) (singles d) s =
  map (subst_char d) s.
Proof.
  induction d as [|[a b] d IH]; intros s; cbn [singles map fold_left fst snd].
  - symmetry. apply map_id.
  - fold (singles d). rewrite replace_single, IH, map_map. reflexivity.
Qed.

(** No key survives when no value is itself a key. *)
Lemma subst_char_no_key d :
  (forall a b a' b', In (a, b) d -> In (a', b') d -> b <> a') ->
  forall c a b, In (a, b) d -> subst_char d c <> a.
Proof.
  induction d as [|[an bn] d IH] using rev_ind; intros Hd c a b Hin; [destruct Hin|].
  unfold subst_char. rewrite fold_left_app. simpl.
  fold (subst_char d c). unfold subst1.
  apply in_app_or in Hin. destruct Hin as [Hin|[Hin|[]]].
  - assert (Hc : subst_char d c <> a).
    { eapply IH; [|exact Hin]. intros; eapply Hd; apply in_or_app; left; eassumption. }
    destruct (chr_eqb an (subst_char d c)); [|exact Hc].
    eapply Hd; apply in_or_app; [right; left; reflexivity|left; exact Hin].
  - inversion Hin; subst an bn.
    destruct (chr_eqb a (subst_char d c)) eqn:Q.
    + eapply Hd; apply in_or_app; right; left; reflexivity.
    + intros E. rewrite E, chr_eqb_refl in Q. discriminate.
Qed.

Lemma values_not_keys_spec d : values_not_keys d = true ->
  forall a b a' b', In (a, b) d -> In (a', b') d -> b <> a'.
Proof.
  unfold values_not_keys. rewrite forallb_forall. intros H a b a' b' H1 H2 E.
  specialize (H _ H1). rewrite forallb_forall in H. specialize (H _ H2).
  simpl in H. subst. rewrite chr_eqb_refl in H. discriminate.
Qed.

(** ** Dictionaries *)

Lemma dict_set_in d k v a b :
  In (a, b) (dict_set d k v) -> In (a, b) d \/ (a = k /\ b = v).
Proof.
  induction d as [|[k' v'] d IH]; simpl.
  - intros [H|[]]. inversion H; auto.
  - destruct (str_eqb k' k) eqn:E.
    + apply str_eqb_eq in E. subst k'.
      intros [H|H]; [inversion H; subst; auto|auto].
    + intros [H|H]; [auto|]. destruct (IH H); auto.
Qed.

Lemma fold_dict_set_in items : forall d a b,
  In (a, b) (fold_left (fun d kv => dict_set d (fst kv) (snd kv)) items d) ->
  In (a, b) d \/ In (a, b) items.
Proof.
  induction items as [|[k v] items IH]; intros d a b; simpl; [auto|].
  intros H. apply IH in H. destruct H as [H|H]; [|auto].
  apply dict_set_in in H. destruct H as [H|(-> & ->)]; auto.
Qed.

Lemma dict_of_in items a b : In (a, b) (dict_of items) -> In (a, b) items.
Proof. intros H. apply fold_dict_set_in in H. destruct H as [[]|H]. exact H. Qed.

(** ** Loops *)

Lemma filter_none {A} (f : A -> bool) l :
  (forall x, In x l -> f x = false) -> filter f l = [].
Proof.
  induction l as [|x l IH]; intros H; simpl; [reflexivity|].
  rewrite (H x) by (left; reflexivity). apply IH. intros; apply H; right; assumption.
Qed.

Lemma for_each_ret {A B} (body : A -> B -> py B) (g : A -> B -> B) xs : forall acc,
  (forall x a, In x xs -> body x a = Ret (g x a)) ->
  for_each xs acc body = Ret (fold_left (fun a x => g x a) xs acc).
Proof.
  induction xs as [|x xs IH]; intros acc H; simpl; [reflexivity|].
  rewrite (H x acc) by (left; reflexivity). simpl.
  apply IH. intros y a Hy. apply H. right. exact Hy.
Qed.

Lemma for_each_total {A B} (body : A -> B -> py B) xs : forall acc,
  (forall x a, In x xs -> exists b, body x a = Ret b) ->
  exists r, for_each xs acc body = Ret r.
Proof.
  induction xs as [|x xs IH]; intros acc H; simpl; [eauto|].
  destruct (H x acc) as (b & Hb); [left; reflexivity|]. rewrite Hb. simpl.
  apply IH. intros y a Hy. apply H. right. exact Hy.
Qed.

Lemma enumerate_from_in {A} (xs : list A) : forall i j x,
  In (j, x) (enumerate_from i xs) -> i <= j /\ nth_error xs (j - i) = Some x.
Proof.
  induction xs as [|y xs IH]; intros i j x; simpl; [intros []|].
  intros [H|H].
  - inversion H; subst. rewrite Nat.sub_diag. split; [lia|reflexivity].
  - apply IH in H. destruct H as (Hle & Hn). split; [lia|].
    replace (j - i) with (S (j - S i)) by lia. exact Hn.
Qed.

Lemma enumerate_in {A} (xs : list A) j x :
  In (j, x) (enumerate xs) -> nth_error xs j = Some x.
Proof.
  intros H. apply enumerate_from_in in H. rewrite Nat.sub_0_r in H. apply H.
Qed.

Lemma fold_left_collect {A} (f : A -> str) xs : forall acc,
  fold_left (fun a x => match f x with [] => a | _ :: _ => a ++ [f x] end) xs acc =
  acc ++ filter nonempty (map f xs).
Proof.
  induction xs as [|x xs IH]; intros acc; simpl.
  - rewrite app_nil_r. reflexivity.
  - rewrite IH. destruct (f x) eqn:E; simpl; [reflexivity|].
    rewrite <- app_assoc. reflexivity.
Qed.

(** * The matcher *)

Section MatcherTheory.

Context {U : unicode}.
Variable fl : flags.

(** ** Soundness *)

Lemma one_sound t p k x :
  one t p k = Some x ->
  exists y s', rest p = y :: s' /\ t y = true /\ k (step p y s') = Some x.
Proof.
  unfold one. destruct (rest p) as [|y s'] eqn:E; [discriminate|].
  destruct (t y) eqn:T; [|discriminate].
  intros H. exists y, s'. repeat split; auto.
Qed.

Lemma rep_greedy_sound t s : forall lo pv i k x,
  rep_greedy t lo pv i s k = Some x ->
  exists n p', lo <= n /\ run t n {| prev := pv; idx := i; rest := s |} p' /\ k p' = Some x.
Proof.
  induction s as [|y s IH]; intros lo pv i k x; simpl.
  - destruct lo; simpl; [|discriminate].
    intros H. exists 0, {| prev := pv; idx := i; rest := [] |}. repeat split; auto. constructor.
  - assert (Hstop : (if lo =? 0 then k {| prev := pv; idx := i; rest := y :: s |} else None) = Some x ->
            exists n p', lo <= n /\ run t n {| prev := pv; idx := i; rest := y :: s |} p' /\ k p' = Some x).
    { destruct lo; simpl; [|discriminate]. intros H.
      exists 0, {| prev := pv; idx := i; rest := y :: s |}. repeat split; auto. constructor. }
    destruct (t y) eqn:T; [|exact Hstop].
    destruct (rep_greedy t (pred lo) (Some y) (S i) s k) as [r|] eqn:E; [|exact Hstop].
    intros H; inversion H; subst r.
    apply IH in E. destruct E as (n & p' & Hn & Hr & Hk).
    exists (S n), p'. repeat split; [lia| |exact Hk].
    econstructor; [reflexivity|exact T|exact Hr].
Qed.

Lemma rep_lazy_sound t s : forall lo pv i k x,
  rep_lazy t lo pv i s k = Some x ->
  exists n p', lo <= n /\ run t n {| prev := pv; idx := i; rest := s |} p' /\ k p' = Some x.
Proof.
  induction s as [|y s IH]; intros lo pv i k x; simpl.
  - destruct lo; simpl; [|discriminate].
    destruct (k _) eqn:E; [|discriminate]. intros H; inversion H; subst.
    exists 0, {| prev := pv; idx := i; rest := [] |}. repeat split; auto. constructor.
  - destruct (if lo =? 0 then k {| prev := pv; idx := i; rest := y :: s |} else None) as [r|] eqn:E.
    + intros H; inversion H; subst r. destruct lo; simpl in E; [|discriminate].
      exists 0, {| prev := pv; idx := i; rest := y :: s |}. repeat split; auto. constructor.
    + destruct (t y) eqn:T; [|discriminate]. intros H.
      apply IH in H. destruct H as (n & p' & Hn & Hr & Hk).
      exists (S n), p'. repeat split; [lia| |exact Hk].
      econstructor; [reflexivity|exact T|exact Hr].
Qed.

(** Whatever the matcher returns was accepted by the continuation at the
    end of a match. *)
Theorem m_sound r : forall p c k x,
  m fl r p c k = Some x ->
  exists p' c', matches fl r p c p' c' /\ k p' c' = Some x.
Proof.
  induction r as [|a|cl|r1 IHr1 r2 IHr2|r1 IHr1 r2 IHr2|r IHr|greedy lo cl|n r IHr|r IHr| | | |];
    intros p c k x H; simpl in H.
  - exists p, c. split; [constructor|exact H].
  - apply one_sound in H. destruct H as (y & s' & Hr & Ht & Hk).
    exists (step p y s'), c. split; [econstructor; eauto|exact Hk].
  - apply one_sound in H. destruct H as (y & s' & Hr & Ht & Hk).
    exists (step p y s'), c. split; [econstructor; eauto|exact Hk].
  - apply IHr1 in H. destruct H as (p1 & c1 & H1 & H).
    apply IHr2 in H. destruct H as (p2 & c2 & H2 & H).
    exists p2, c2. split; [econstructor; eauto|exact H].
  - destruct (m fl r1 p c k) as [y|] eqn:E.
    + inversion H; subst y. apply IHr1 in E. destruct E as (p' & c' & H1 & Hk).
      exists p', c'. split; [apply M_AltL; exact H1|exact Hk].
    + apply IHr2 in H. destruct H as (p' & c' & H1 & Hk).
      exists p', c'. split; [apply M_AltR; exact H1|exact Hk].
  - destruct (m fl r p c k) as [y|] eqn:E.
    + inversion H; subst y. apply IHr in E. destruct E as (p' & c' & H1 & Hk).
      exists p', c'. split; [apply M_OptSome; exact H1|exact Hk].
    + exists p, c. split; [apply M_OptNone|exact H].
  - assert (exists n p', lo <= n /\ run (cls_match fl cl) n p p' /\ k p' c = Some x) as (n & p' & Hn & Hr & Hk).
    { destruct p as [pv i s]; simpl in H.
      destruct greedy; [apply rep_greedy_sound in H|apply rep_lazy_sound in H]; exact H. }
    exists p', c. split; [econstructor; eauto|exact Hk].
  - apply IHr in H. destruct H as (p' & c' & H1 & Hk).
    exists p', (set_cap n (idx p, idx p') c'). split; [constructor; exact H1|exact Hk].
  - destruct (m fl r p c (fun p' c' => Some (p', c'))) as [[p1 c1]|] eqn:E; [|discriminate].
    apply IHr in E. destruct E as (p' & c' & H1 & Hk). inversion Hk; subst.
    exists p, c1. split; [econstructor; exact H1|exact H].
  - destruct (at_bol fl p) eqn:E; [|discriminate]. exists p, c. split; [constructor; exact E|exact H].
  - destruct (at_eol fl p) eqn:E; [|discriminate]. exists p, c. split; [constructor; exact E|exact H].
  - destruct (at_end p) eqn:E; [|discriminate]. exists p, c. split; [constructor; exact E|exact H].
  - destruct (at_wordb p) eqn:E; [|discriminate]. exists p, c. split; [constructor; exact E|exact H].
Qed.

(** ** The text a match consumes *)

Lemma ahead_by_nil p : ahead_by [] p p.
Proof. unfold ahead_by; simpl. repeat split; lia. Qed.

Lemma ahead_by_step p x s' : rest p = x :: s' -> ahead_by [x] p (step p x s').
Proof. intros H. unfold ahead_by; simpl. repeat split; [exact H|lia]. Qed.

Lemma ahead_by_trans w1 w2 p p1 p2 :
  ahead_by w1 p p1 -> ahead_by w2 p1 p2 -> ahead_by (w1 ++ w2) p p2.
Proof.
  intros (A1 & B1 & C1) (A2 & B2 & C2). unfold ahead_by.
  rewrite A1, A2, B2, B1, C2, C1, <- app_assoc, length_app, rev_app_distr.
  repeat split; [lia|].
  destruct (rev w2); simpl; reflexivity.
Qed.

Lemma run_ahead t n p p' :
  run t n p p' -> exists w, List.length w = n /\ forallb t w = true /\ ahead_by w p p'.
Proof.
  induction 1 as [p|n p x s' p' Hr Ht _ (w & Hl & Hall & Ha)].
  - exists []. split; [reflexivity|split; [reflexivity|apply ahead_by_nil]].
  - exists (x :: w). simpl. rewrite Hl, Ht, Hall. split; [reflexivity|split; [reflexivity|]].
    change (x :: w) with ([x] ++ w).
    eapply ahead_by_trans; [apply ahead_by_step; exact Hr|exact Ha].
Qed.

(** A match consumes a piece [w] of the text, at least [min_len r] long. *)
Lemma matches_ahead r p c p' c' :
  matches fl r p c p' c' -> exists w, ahead_by w p p' /\ min_len r <= List.length w.
Proof.
  induction 1; simpl;
    try (exists []; split; [apply ahead_by_nil|simpl; lia]).
  - exists [x]. split; [apply ahead_by_step; assumption|simpl; lia].
  - exists [x]. split; [apply ahead_by_step; assumption|simpl; lia].
  - destruct IHmatches1 as (w1 & A1 & L1), IHmatches2 as (w2 & A2 & L2).
    exists (w1 ++ w2). split; [eapply ahead_by_trans; eauto|rewrite length_app; lia].
  - destruct IHmatches as (w & A & L). exists w. split; [exact A|lia].
  - destruct IHmatches as (w & A & L). exists w. split; [exact A|lia].
  - destruct IHmatches as (w & A & L). exists w. split; [exact A|lia].
  - apply run_ahead in H0. destruct H0 as (w & Hl & _ & A). exists w. split; [exact A|lia].
  - exact IHmatches.
Qed.

(** ** Groups *)

(** Groups are only ever set, and their number stays. *)
Lemma set_nth_length {A} i (v : A) l : List.length (set_nth i v l) = List.length l.
Proof.
  revert i; induction l as [|x l IH]; intros [|i]; simpl; auto.
Qed.

Lemma set_cap_length n sp c : List.length (set_cap n sp c) = List.length c.
Proof. destruct n; simpl; [reflexivity|apply set_nth_length]. Qed.

Lemma matches_caps_length r p c p' c' :
  matches fl r p c p' c' -> List.length c' = List.length c.
Proof.
  induction 1; auto; try congruence.
  rewrite set_cap_length. exact IHmatches.
Qed.

Lemma matches_no_group r p c p' c' :
  matches fl r p c p' c' -> ngroups r = 0 -> c' = c.
Proof.
  induction 1; simpl; intros Hg; auto.
  - rewrite IHmatches2, IHmatches1; auto; lia.
  - apply IHmatches; lia.
  - apply IHmatches; lia.
  - destruct n; [simpl; apply IHmatches; lia|lia].
Qed.

(** Matching does not read the groups. *)
Lemma matches_any_caps r p c p' c' :
  matches fl r p c p' c' -> forall d, exists d', matches fl r p d p' d'.
Proof.
  induction 1; intros d; try solve [eexists; econstructor; eassumption].
  - destruct (IHmatches1 d) as (d1 & H1). destruct (IHmatches2 d1) as (d2 & H2).
    exists d2. eapply M_Seq; eassumption.
  - destruct (IHmatches d) as (d' & H'). exists d'. apply M_AltL. exact H'.
  - destruct (IHmatches d) as (d' & H'). exists d'. apply M_AltR. exact H'.
  - destruct (IHmatches d) as (d' & H'). exists d'. apply M_OptSome. exact H'.
  - destruct (IHmatches d) as (d' & H'). eexists. apply M_Grp. exact H'.
  - destruct (IHmatches d) as (d' & H'). exists d'. eapply M_Ahead. exact H'.
Qed.

(** ** Inversion *)

Lemma matches_seq_inv r1 r2 p c p' c' :
  matches fl (Seq r1 r2) p c p' c' ->
  exists p1 c1, matches fl r1 p c p1 c1 /\ matches fl r2 p1 c1 p' c'.
Proof. intros H. inversion H; subst. eauto. Qed.

(** A part without groups leaves the groups as they were. *)
Lemma matches_seq_skip r1 r2 p c p' c' :
  matches fl (Seq r1 r2) p c p' c' -> ngroups r1 = 0 ->
  exists p1, matches fl r2 p1 c p' c'.
Proof.
  intros H Hg. apply matches_seq_inv in H. destruct H as (p1 & c1 & H1 & H2).
  apply matches_no_group in H1; [|exact Hg]. subst c1. eauto.
Qed.

Lemma matches_alt_inv r1 r2 p c p' c' :
  matches fl (Alt r1 r2) p c p' c' ->
  matches fl r1 p c p' c' \/ matches fl r2 p c p' c'.
Proof. intros H. inversion H; subst; auto. Qed.

Lemma matches_opt_inv r p c p' c' :
  matches fl (Opt r) p c p' c' ->
  matches fl r p c p' c' \/ (p' = p /\ c' = c).
Proof. intros H. inversion H; subst; auto. Qed.

Lemma matches_rep_inv g lo cl p c p' c' :
  matches fl (Rep g lo cl) p c p' c' ->
  exists n, lo <= n /\ run (cls_match fl cl) n p p' /\ c' = c.
Proof. intros H. inversion H; subst. eauto. Qed.

(** ** Completeness *)

Lemma rep_greedy_complete t n p p' : run t n p p' ->
  forall lo k, lo <= n -> k p' <> None ->
  rep_greedy t lo (prev p) (idx p) (rest p) k <> None.
Proof.
  induction 1 as [p|n p x s' p' Hr Ht Hrun IH]; intros lo k Hlo Hk.
  - assert (lo = 0) by lia. subst lo. destruct p as [pv i s]; simpl.
    destruct s as [|y s]; simpl; [exact Hk|].
    destruct (t y); [|exact Hk].
    destruct (rep_greedy t 0 (Some y) (S i) s k); [discriminate|exact Hk].
  - rewrite Hr. simpl. rewrite Ht.
    specialize (IH (pred lo) k). simpl in IH.
    destruct (rep_greedy t (pred lo) (Some x) (S (idx p)) s' k); [discriminate|].
    exfalso. apply IH; [lia|exact Hk|reflexivity].
Qed.

Lemma rep_lazy_complete t n p p' : run t n p p' ->
  forall lo k, lo <= n -> k p' <> None ->
  rep_lazy t lo (prev p) (idx p) (rest p) k <> None.
Proof.
  induction 1 as [p|n p x s' p' Hr Ht Hrun IH]; intros lo k Hlo Hk.
  - assert (lo = 0) by lia. subst lo. destruct p as [pv i s]; simpl.
    destruct s as [|y s]; simpl; destruct (k _); try discriminate; contradiction.
  - destruct p as [pv i s]. simpl in Hr. subst s. simpl.
    destruct (if lo =? 0 then k _ else None); [discriminate|].
    rewrite Ht. apply (IH (pred lo) k); [lia|exact Hk].
Qed.

(** If the expression can match up to a place the continuation accepts
    whatever the groups, the matcher finds some match. *)
Theorem m_complete r p c p' c' :
  matches fl r p c p' c' ->
  forall d k, (forall d', k p' d' <> None) -> m fl r p d k <> None.
Proof.
  induction 1; intros d k Hk; simpl.
  - apply Hk.
  - unfold one. rewrite H, H0. apply Hk.
  - unfold one. rewrite H, H0. apply Hk.
  - apply IHmatches1. intros d'. apply IHmatches2. exact Hk.
  - destruct (m fl r1 p d k) eqn:E; [discriminate|].
    exfalso. eapply IHmatches; eassumption.
  - destruct (m fl r1 p d k) eqn:E; [discriminate|]. apply IHmatches. exact Hk.
  - destruct (m fl r p d k) eqn:E; [discriminate|].
    exfalso. eapply IHmatches; eassumption.
  - destruct (m fl r p d k) eqn:E; [discriminate|]. apply Hk.
  - destruct g.
    + eapply rep_greedy_complete; [eassumption|eassumption|apply Hk].
    + eapply rep_lazy_complete; [eassumption|eassumption|apply Hk].
  - apply IHmatches. intros d'. apply Hk.
  - destruct (m fl r p d (fun p' c' => Some (p', c'))) as [[q e]|] eqn:E.
    + apply Hk.
    + exfalso. eapply IHmatches; [|exact E]. intros; discriminate.
  - rewrite H. apply Hk.
  - rewrite H. apply Hk.
  - rewrite H. apply Hk.
  - rewrite H. apply Hk.
Qed.

(** A greedy repetition in front of a continuation that accepts everything
    takes the whole run. *)
Lemma rep_greedy_max t c s : forall lo pv i,
  exists pv',
  rep_greedy t lo pv i s (fun q => Some (q, c)) =
  if lo <=? lead_by t s
  then Some ({| prev := pv'; idx := i + lead_by t s; rest := skipn (lead_by t s) s |}, c)
  else None.
Proof.
  induction s as [|x s IH]; intros lo pv i; simpl.
  - exists pv. destruct lo; simpl; [|reflexivity]. rewrite Nat.add_0_r. reflexivity.
  - destruct (t x) eqn:E.
    + destruct (IH (pred lo) (Some x) (S i)) as (pv' & H). exists pv'. rewrite H.
      destruct lo as [|lo]; simpl.
      * rewrite Nat.add_succ_r. reflexivity.
      * destruct (lo <=? lead_by t s); [rewrite Nat.add_succ_r; reflexivity|reflexivity].
    + exists pv. destruct lo; simpl; [|reflexivity]. rewrite Nat.add_0_r. reflexivity.
Qed.

(** ** Literal strings, matched with regard to case *)

Section Literals.

Hypothesis case_sensitive : IGNORECASE fl = false.

Lemma chr_match_sensitive a x : chr_match fl a x = chr_eqb a x.
Proof. unfold chr_match. rewrite case_sensitive. reflexivity. Qed.

Lemma matches_lit w : forall p c p' c',
  matches fl (lit w) p c p' c' -> ahead_by w p p' /\ c' = c.
Proof.
  induction w as [|x w IH]; intros p c p' c' H.
  - inversion H; subst. split; [apply ahead_by_nil|reflexivity].
  - assert (Hone : forall q e q' e', matches fl (Chr x) q e q' e' -> ahead_by [x] q q' /\ e' = e).
    { intros q e q' e' Hm. inversion Hm; subst.
      rewrite chr_match_sensitive in *.
      match goal with Hc : chr_eqb _ _ = true |- _ => apply chr_eqb_eq in Hc; subst end.
      split; [apply ahead_by_step; assumption|reflexivity]. }
    destruct w as [|y w].
    + apply Hone. exact H.
    + change (lit (x :: y :: w)) with (Seq (Chr x) (lit (y :: w))) in H.
      apply matches_seq_inv in H. destruct H as (p1 & c1 & H1 & H2).
      apply Hone in H1. apply IH in H2. destruct H1 as (A1 & ->). destruct H2 as (A2 & ->).
      split; [|reflexivity]. change (x :: y :: w) with ([x] ++ y :: w).
      eapply ahead_by_trans; eassumption.
Qed.

Lemma lit_matches w : forall p c t,
  rest p = w ++ t -> exists p', matches fl (lit w) p c p' c /\ rest p' = t.
Proof.
  induction w as [|x w IH]; intros p c t H.
  - exists p. split; [constructor|exact H].
  - assert (Hone : matches fl (Chr x) p c (step p x (w ++ t)) c).
    { econstructor; [exact H|]. rewrite chr_match_sensitive. apply chr_eqb_refl. }
    destruct w as [|y w].
    + exists (step p x t). split; [exact Hone|reflexivity].
    + destruct (IH (step p x ((y :: w) ++ t)) c t eq_refl) as (p' & Hm & Hr).
      exists p'. split; [|exact Hr].
      change (lit (x :: y :: w)) with (Seq (Chr x) (lit (y :: w))).
      econstructor; [exact Hone|exact Hm].
Qed.

End Literals.

End MatcherTheory.

(** * The search loop *)

Section ScanTheory.

Context {U : unicode}.
Variable pt : pattern.

(** ** One attempt *)

Lemma pos_at_snoc pre x t :
  {| prev := Some x; idx := S (List.length pre); rest := t |} = pos_at (pre ++ [x]) t.
Proof.
  unfold pos_at. rewrite rev_app_distr, length_app. simpl. f_equal. lia.
Qed.

Lemma try_at_sound p adv mt :
  try_at pt p adv = Some mt ->
  exists p', matches (p_flags pt) (p_re pt) p (repeat None (ngroups (p_re pt))) p' (m_caps mt) /\
             m_start mt = idx p /\ m_end mt = idx p' /\ (adv = true -> idx p' <> idx p).
Proof.
  unfold try_at. intros H.
  destruct (m _ _ _ _ _) as [[p' c']|] eqn:E; [|discriminate].
  inversion H; subst mt; clear H. simpl.
  apply m_sound in E. destruct E as (p1 & c1 & Hm & Hk).
  destruct (adv && (idx p1 =? idx p)) eqn:A; [discriminate|].
  inversion Hk; subst p1 c1.
  exists p'. repeat split; auto.
  intros ->. simpl in A. apply Nat.eqb_neq in A. exact A.
Qed.

Lemma try_at_complete p c p' c' :
  matches (p_flags pt) (p_re pt) p c p' c' -> try_at pt p false <> None.
Proof.
  intros H. unfold try_at.
  destruct (m _ _ _ _ _) as [[q e]|] eqn:E; [discriminate|].
  exfalso. eapply m_complete; [exact H| |exact E]. intros; simpl; discriminate.
Qed.

Lemma try_at_nonempty p adv mt :
  0 < min_len (p_re pt) -> try_at pt p adv = Some mt ->
  m_start mt = idx p /\ idx p < m_end mt.
Proof.
  intros Hlen H. apply try_at_sound in H. destruct H as (p' & Hm & Hs & He & _).
  apply matches_ahead in Hm. destruct Hm as (w & (_ & Hi & _) & Hw). lia.
Qed.

Lemma here_in p ms n mt :
  here pt p = (ms, n) -> In mt ms -> exists adv, try_at pt p adv = Some mt.
Proof.
  unfold here. destruct (try_at pt p false) as [m1|] eqn:E1.
  - destruct (m_end m1 =? idx p).
    + destruct (try_at pt p true) as [m2|] eqn:E2; intros H; inversion H; subst; simpl.
      * intros [<-|[<-|[]]]; eauto.
      * intros [<-|[]]; eauto.
    + intros H; inversion H; subst; simpl. intros [<-|[]]; eauto.
  - intros H; inversion H; subst. intros [].
Qed.

(** For a pattern that cannot match the empty string the second search in
    place never runs. *)
Lemma here_nonempty p :
  0 < min_len (p_re pt) ->
  here pt p = match try_at pt p false with
              | None => ([], 0)
              | Some m1 => ([m1], S (m_end m1 - idx p - 1))
              end.
Proof.
  intros Hlen. unfold here. destruct (try_at pt p false) as [m1|] eqn:E; [|reflexivity].
  apply try_at_nonempty in E; [|exact Hlen]. destruct E as (_ & E).
  destruct (m_end m1 =? idx p) eqn:Q.
  - apply Nat.eqb_eq in Q. lia.
  - do 2 f_equal. lia.
Qed.

(** ** The scan *)

(** Unmatched characters are characters of the subject. *)
Lemma scan_chars t : forall pv i skip x,
  In (TChar x) (scan pt pv i t skip) -> In x t.
Proof.
  induction t as [|y t IH]; intros pv i skip x; simpl.
  - destruct skip; [|intros []].
    destruct (here pt _) as [ms n]. rewrite app_nil_r.
    intros H. apply in_map_iff in H. destruct H as (? & ? & _). discriminate.
  - destruct skip as [|sk].
    + destruct (here pt _) as [ms n]. intros H. apply in_app_or in H. destruct H as [H|H].
      * apply in_map_iff in H. destruct H as (? & ? & _). discriminate.
      * destruct n; [destruct H as [H|H]; [inversion H; auto|]|]; right; eapply IH; exact H.
    + intros H. right. eapply IH; exact H.
Qed.

(** Every match reported was found by an attempt at some place of the subject. *)
Lemma scan_matches t : forall pre skip mt,
  In (TMatch mt) (scan pt (hd_error (rev pre)) (List.length pre) t skip) ->
  exists pre' t' adv, pre ++ t = pre' ++ t' /\ try_at pt (pos_at pre' t') adv = Some mt.
Proof.
  induction t as [|y t IH]; intros pre skip mt; simpl.
  - destruct skip; [|intros []].
    destruct (here pt _) as [ms n] eqn:E. rewrite app_nil_r.
    intros H. apply in_map_iff in H. destruct H as (mt' & Heq & Hin). inversion Heq; subst mt'.
    destruct (here_in _ _ E Hin) as (adv & Ht). exists pre, [], adv. split; [reflexivity|exact Ht].
  - assert (Hnext : forall sk, In (TMatch mt) (scan pt (Some y) (S (List.length pre)) t sk) ->
              exists pre' t' adv, pre ++ y :: t = pre' ++ t' /\ try_at pt (pos_at pre' t') adv = Some mt).
    { intros sk H.
      replace (Some y) with (hd_error (rev (pre ++ [y]))) in H by (rewrite rev_app_distr; reflexivity).
      replace (S (List.length pre)) with (List.length (pre ++ [y])) in H by (rewrite length_app; simpl; lia).
      apply IH in H. destruct H as (pre' & t' & adv & Heq & Ht).
      exists pre', t', adv. split; [|exact Ht]. rewrite <- Heq, <- app_assoc. reflexivity. }
    destruct skip as [|sk]; [|apply Hnext].
    destruct (here pt _) as [ms n] eqn:E. intros H. apply in_app_or in H. destruct H as [H|H].
    + apply in_map_iff in H. destruct H as (mt' & Heq & Hin). inversion Heq; subst mt'.
      destruct (here_in _ _ E Hin) as (adv & Ht). exists pre, (y :: t), adv. split; [reflexivity|exact Ht].
    + destruct n; [destruct H as [H|H]; [discriminate|]|]; eapply Hnext; exact H.
Qed.

(** Where no attempt succeeds, the scan leaves every character in place. *)
Lemma scan_no_match t : forall pre,
  (forall pre' t', pre ++ t = pre' ++ t' -> try_at pt (pos_at pre' t') false = None) ->
  scan pt (hd_error (rev pre)) (List.length pre) t 0 = map TChar t.
Proof.
  induction t as [|y t IH]; intros pre Hno; simpl.
  - unfold here. fold (pos_at pre []). rewrite (Hno pre []); reflexivity.
  - unfold here. fold (pos_at pre (y :: t)). rewrite (Hno pre (y :: t)) by reflexivity. simpl.
    f_equal.
    replace (Some y) with (hd_error (rev (pre ++ [y]))) by (rewrite rev_app_distr; reflexivity).
    replace (S (List.length pre)) with (List.length (pre ++ [y])) by (rewrite length_app; simpl; lia).
    apply IH. intros pre' t' Heq. apply Hno. rewrite <- Heq, <- app_assoc. reflexivity.
Qed.

Lemma subst_tokens_chars repl ts : subst_tokens repl (map TChar ts) = ts.
Proof. induction ts; simpl; congruence. Qed.

Lemma matches_of_chars ts : matches_of (map TChar ts) = [].
Proof. induction ts; simpl; auto. Qed.

Lemma split_tokens_chars ts : forall cur, split_tokens cur (map TChar ts) = [rev cur ++ ts].
Proof.
  induction ts as [|x ts IH]; intros cur; simpl.
  - rewrite app_nil_r. reflexivity.
  - rewrite IH. simpl. rewrite <- app_assoc. reflexivity.
Qed.

Lemma matches_of_in ts mt : In mt (matches_of ts) <-> In (TMatch mt) ts.
Proof.
  induction ts as [|[c|m0] ts IH]; simpl; [tauto| |].
  - rewrite IH. split; [auto|intros [H|H]; [discriminate|exact H]].
  - rewrite IH. split; intros [H|H]; auto; [left; congruence|left; inversion H; reflexivity].
Qed.

(** The characters of a substitution come from the subject or from the
    replacement. *)
Lemma subst_tokens_in repl ts x :
  In x (subst_tokens repl ts) -> In x repl \/ In (TChar x) ts.
Proof.
  induction ts as [|[c|m0] ts IH]; simpl; [tauto| |].
  - intros [->|H]; [right; left; reflexivity|]. destruct (IH H); auto.
  - intros H. apply in_app_or in H. destruct H as [H|H]; [auto|]. destruct (IH H); auto.
Qed.

Lemma split_tokens_in ts : forall cur piece x,
  In piece (split_tokens cur ts) -> In x piece -> In x cur \/ In (TChar x) ts.
Proof.
  induction ts as [|[c|m0] ts IH]; intros cur piece x; simpl.
  - intros [<-|[]] H. left. apply in_rev. exact H.
  - intros Hp Hx. destruct (IH _ _ _ Hp Hx) as [[->|H]|H]; auto.
  - intros [<-|Hp] Hx.
    + left. apply in_rev. exact Hx.
    + destruct (IH _ _ _ Hp Hx) as [[]|H]; auto.
Qed.

(** ** [sub], [finditer] and [split] *)

Lemma tokens_no_match s : never_matches pt s -> tokens pt s = map TChar s.
Proof. intros H. apply (scan_no_match s []). exact H. Qed.

Lemma sub_no_match repl s : never_matches pt s -> sub pt repl s = s.
Proof. intros H. unfold sub. rewrite tokens_no_match by exact H. apply subst_tokens_chars. Qed.

Lemma finditer_no_match s : never_matches pt s -> finditer pt s = [].
Proof. intros H. unfold finditer. rewrite tokens_no_match by exact H. apply matches_of_chars. Qed.

Lemma split_no_match s : never_matches pt s -> split pt s = [s].
Proof. intros H. unfold split. rewrite tokens_no_match by exact H. apply split_tokens_chars. Qed.

(** A pattern that begins with a literal only matches where the literal stands. *)
Lemma never_matches_without w s :
  (forall p adv mt, try_at pt p adv = Some mt -> starts_with w (rest p) = true) ->
  occurs w s = false -> never_matches pt s.
Proof.
  intros Hw Hs pre t -> .
  destruct (try_at pt (pos_at pre t) false) as [mt|] eqn:E; [|reflexivity].
  apply Hw in E. cbn [pos_at rest] in E.
  rewrite (occurs_at _ pre _ E) in Hs. discriminate.
Qed.

(** Every match of [finditer] starts at a place of the subject where an
    attempt succeeded. *)
Lemma finditer_in s mt :
  In mt (finditer pt s) ->
  exists pre t adv, s = pre ++ t /\ try_at pt (pos_at pre t) adv = Some mt.
Proof.
  unfold finditer, tokens. intros H. apply matches_of_in in H.
  apply (scan_matches s [] 0) in H. exact H.
Qed.

Lemma sub_in repl s x : In x (sub pt repl s) -> In x repl \/ In x s.
Proof.
  unfold sub, tokens. intros H. apply subst_tokens_in in H. destruct H as [H|H]; [auto|].
  right. eapply scan_chars; exact H.
Qed.

Lemma split_in s piece x : In piece (split pt s) -> In x piece -> In x s.
Proof.
  unfold split, tokens. intros Hp Hx.
  destruct (split_tokens_in _ _ _ _ Hp Hx) as [[]|H]. eapply scan_chars; exact H.
Qed.

End ScanTheory.

(** * The patterns of the translator *)

Section Patterns.

Context {U : unicode}.

(** ** [leet_indicator] *)

Lemma leet_indicator_here pv i x s :
  here leet_indicator {| prev := pv; idx := i; rest := x :: s |} =
  if is_leet_char x
  then ([{| m_start := i; m_end := S i; m_caps := [] |}], 1)
  else ([], 0).
Proof.
  rewrite here_nonempty by (cbn; lia).
  unfold try_at, is_leet_char, is_digit. cbn -[N.eqb N.leb Nat.sub]. unfold chr_eqb.
  rewrite (N.eqb_sym 95 x), orb_false_r.
  destruct ((48 <=? x)%N && (x <=? 57)%N || (x =? 95)%N); cbn -[Nat.sub]; [|reflexivity].
  replace (S i - i - 1) with 0 by lia. reflexivity.
Qed.

Lemma leet_indicator_scan s : forall pv i,
  match hd_error (matches_of (scan leet_indicator pv i s 0)) with
  | Some _ => true
  | None => false
  end = existsb is_leet_char s.
Proof.
  induction s as [|x s IH]; intros pv i.
  - reflexivity.
  - cbn [scan existsb]. rewrite leet_indicator_here.
    destruct (is_leet_char x); cbn; [reflexivity|apply IH].
Qed.

(** ** [fence] and [code_block] *)

Lemma fence_some p adv mt :
  try_at fence p adv = Some mt -> starts_with FENCE (rest p) = true.
Proof.
  intros H. apply try_at_sound in H. destruct H as (p' & H & _).
  cbn [fence p_re p_flags compile] in H.
  apply starts_with_iff.
  apply matches_alt_inv in H. destruct H as [H|H].
  - apply matches_seq_inv in H. destruct H as (p1 & c1 & H & _).
    apply matches_lit in H; [|reflexivity]. destruct H as ((Hr & _) & _). eexists. exact Hr.
  - apply matches_lit in H; [|reflexivity]. destruct H as ((Hr & _) & _). eexists. exact Hr.
Qed.

Lemma fence_none p :
  try_at fence p false = None -> starts_with FENCE (rest p) = false.
Proof.
  intros H. destruct (starts_with FENCE (rest p)) eqn:E; [|reflexivity].
  exfalso. apply starts_with_iff in E. destruct E as (t & E).
  destruct (@lit_matches _ no_flags eq_refl FENCE p [] t E) as (p' & Hm & _).
  eapply try_at_complete; [|exact H].
  cbn [fence p_re p_flags compile]. apply M_AltR. exact Hm.
Qed.

Lemma code_block_some p adv mt :
  try_at code_block p adv = Some mt -> starts_with FENCE (rest p) = true.
Proof.
  intros H. apply try_at_sound in H. destruct H as (p' & H & _).
  cbn [code_block p_re p_flags compile seq] in H.
  apply matches_seq_inv in H. destruct H as (p1 & c1 & H & _).
  apply matches_lit in H; [|reflexivity]. destruct H as ((Hr & _) & _).
  apply starts_with_iff. eexists. exact Hr.
Qed.

(** ** [newlines3] *)

Lemma newline_class x : cls_match no_flags newline x = chr_eqb NL x.
Proof. unfold cls_match, newline. cbn. rewrite orb_false_r. reflexivity. Qed.

(** [\n{3,}] matches exactly the runs of three newlines and more, whole. *)
Lemma newlines3_try p :
  exists c,
  try_at newlines3 p false =
  if 3 <=? lead NL (rest p)
  then Some {| m_start := idx p; m_end := idx p + lead NL (rest p); m_caps := c |}
  else None.
Proof.
  unfold try_at. cbn [newlines3 p_re p_flags compile m ngroups repeat andb].
  destruct (rep_greedy_max (cls_match no_flags newline) [] (rest p) 3 (prev p) (idx p))
    as (pv' & H).
  rewrite H. rewrite (lead_by_ext _ (chr_eqb NL) _ newline_class), <- lead_lead_by.
  exists []. destruct (3 <=? lead NL (rest p)); reflexivity.
Qed.

Lemma newlines3_some p adv mt :
  try_at newlines3 p adv = Some mt -> starts_with NL3 (rest p) = true.
Proof.
  intros H. apply try_at_sound in H. destruct H as (p' & H & _).
  cbn [newlines3 p_re p_flags compile] in H.
  apply matches_rep_inv in H. destruct H as (n & Hn & Hrun & _).
  apply run_ahead in Hrun. destruct Hrun as (w & Hl & Hall & (Hrest & _)).
  rewrite Hrest. destruct w as [|a [|b [|c w]]]; simpl in Hl; try lia.
  cbn [forallb] in Hall. rewrite !newline_class in Hall.
  apply andb_prop in Hall. destruct Hall as (Ha & Hall).
  apply andb_prop in Hall. destruct Hall as (Hb & Hall).
  apply andb_prop in Hall. destruct Hall as (Hc & _).
  unfold NL3. cbn [app starts_with]. rewrite Ha, Hb, Hc. reflexivity.
Qed.

(** ** [scene_marker] *)

Lemma scene_marker_some p adv mt :
  try_at scene_marker p adv = Some mt ->
  starts_with SCENE_START (rest p) = true \/ starts_with SCENE_END (rest p) = true.
Proof.
  intros H. apply try_at_sound in H. destruct H as (p' & H & _).
  cbn [scene_marker p_re p_flags compile seq] in H.
  apply matches_seq_inv in H. destruct H as (p1 & c1 & H1 & H).
  apply matches_seq_inv in H. destruct H as (p2 & c2 & H2 & H3).
  apply matches_lit in H1; [|reflexivity]. destruct H1 as ((R1 & _) & _).
  change (Chr (ch "]")) with (lit (u "]")) in H3.
  apply matches_lit in H3; [|reflexivity]. destruct H3 as ((R3 & _) & _).
  apply matches_alt_inv in H2. destruct H2 as [H2|H2];
    (apply matches_lit in H2; [|reflexivity]); destruct H2 as ((R2 & _) & _);
    rewrite R1, R2, R3; [left|right]; apply starts_with_iff; eexists; reflexivity.
Qed.

Lemma scene_marker_never s :
  occurs SCENE_START s = false -> occurs SCENE_END s = false ->
  never_matches scene_marker s.
Proof.
  intros H1 H2 pre t ->.
  destruct (try_at scene_marker (pos_at pre t) false) eqn:E; [|reflexivity].
  apply scene_marker_some in E. cbn [pos_at rest] in E.
  destruct E as [E|E]; apply (occurs_at _ pre) in E; congruence.
Qed.

(** ** [word_pattern] *)

Lemma at_wordb_spec p :
  at_wordb p = xorb (word_opt (prev p)) (word_opt (hd_error (rest p))).
Proof. unfold at_wordb, word_opt. destruct (prev p), (rest p); reflexivity. Qed.

Lemma word_occurs_from_at w pre : forall pv t,
  word_here w (match rev pre with x :: _ => Some x | [] => pv end) t = true ->
  word_occurs_from w pv (pre ++ t) = true.
Proof.
  induction pre as [|y pre IH]; intros pv t H.
  - simpl in *. destruct t; simpl; rewrite H; reflexivity.
  - cbn [app word_occurs_from]. rewrite (IH (Some y) t); [apply orb_true_r|].
    simpl in H. destruct (rev pre) eqn:E; simpl in *; exact H.
Qed.

Lemma word_pattern_some w pre t adv mt :
  try_at (word_pattern w) (pos_at pre t) adv = Some mt ->
  word_occurs w (pre ++ t) = true.
Proof.
  intros H. apply try_at_sound in H. destruct H as (p' & H & _).
  cbn [word_pattern p_re p_flags compile seq] in H.
  apply matches_seq_inv in H. destruct H as (p1 & c1 & Hb1 & H).
  apply matches_seq_inv in H. destruct H as (p2 & c2 & Hl & Hb2).
  inversion Hb1; subst. inversion Hb2; subst.
  apply matches_lit in Hl; [|reflexivity]. destruct Hl as ((Hr & Hi & Hp) & _).
  apply word_occurs_from_at. unfold word_here.
  match goal with H1 : at_wordb (pos_at _ _) = true, H2 : at_wordb p' = true |- _ =>
    rewrite at_wordb_spec in H1, H2; cbn [pos_at prev rest] in H1, Hr, Hp end.
  rewrite Hr, starts_with_app.
  replace (match rev pre with x :: _ => Some x | [] => None end) with (hd_error (rev pre))
    by (destruct (rev pre); reflexivity).
  match goal with H1 : xorb _ (word_opt (hd_error t)) = true |- _ =>
    rewrite Hr in H1; rewrite H1 end.
  rewrite skipn_app, Nat.sub_diag, skipn_all. cbn [app skipn andb].
  rewrite Hp in *. assumption.
Qed.

Lemma word_pattern_never w s :
  word_occurs w s = false -> never_matches (word_pattern w) s.
Proof.
  intros H pre t ->.
  destruct (try_at (word_pattern w) (pos_at pre t) false) eqn:E; [|reflexivity].
  apply word_pattern_some in E. congruence.
Qed.

(** ** [house_pattern] *)

(** Group 1 of [house_pattern] takes part in every match. *)
Lemma house_pattern_group p adv mt :
  try_at house_pattern p adv = Some mt -> exists a b, m_caps mt = [Some (a, b)].
Proof.
  intros H. apply try_at_sound in H. destruct H as (p' & H & _).
  cbn [house_pattern p_re p_flags compile seq] in H.
  change (ngroups _) with 1 in H. cbn [repeat] in H.
  do 6 (apply matches_seq_skip in H; [destruct H as (? & H)|reflexivity]).
  apply matches_seq_inv in H. destruct H as (p7 & c7 & Hg & Ha).
  apply matches_no_group in Ha; [|reflexivity]. subst c7.
  inversion Hg; subst.
  match goal with Hm : matches _ (star_lazy _) _ _ _ _ |- _ =>
    apply matches_no_group in Hm; [|reflexivity]; subst end.
  simpl. eauto.
Qed.

Lemma house_pattern_some p adv mt :
  try_at house_pattern p adv = Some mt ->
  exists x, In x (rest p) /\ chr_match (p_flags house_pattern) (ch "H") x = true.
Proof.
  intros H. apply try_at_sound in H. destruct H as (p' & H & _).
  cbn [house_pattern p_re compile seq] in H.
  apply matches_seq_inv in H. destruct H as (p1 & c1 & H1 & H).
  apply matches_seq_inv in H. destruct H as (p2 & c2 & H2 & H).
  apply matches_seq_inv in H. destruct H as (p3 & c3 & H3 & _).
  apply matches_ahead in H1. destruct H1 as (w1 & (R1 & _) & _).
  apply matches_ahead in H2. destruct H2 as (w2 & (R2 & _) & _).
  assert (Hx : exists x s', rest p2 = x :: s' /\ chr_match (p_flags house_pattern) (ch "H") x = true).
  { apply matches_alt_inv in H3. destruct H3 as [H3|H3];
      cbn [lit u map list_ascii_of_string] in H3;
      apply matches_seq_inv in H3; destruct H3 as (q & e & H3 & _);
      inversion H3; subst; eauto. }
  destruct Hx as (x & s' & R3 & Hx). exists x. split; [|exact Hx].
  rewrite R1, R2, R3. apply in_or_app. right. apply in_or_app. right. left. reflexivity.
Qed.

(** ** No pattern of the translator matches the empty string *)

Lemma translator_patterns_nonempty :
  forallb (fun pt => 0 <? min_len (p_re pt))
    ([ fence; house_pattern; bullet_pattern; bullet_marker; code_block; blank_line;
       leet_indicator; parenthetical; bracketed; newlines3; house_action;
       house_prefix; scene_marker ]
     ++ map name_pattern character_names
     ++ map (fun kv => word_pattern (fst kv)) numeric_fixes) = true.
Proof. reflexivity. Qed.

End Patterns.

(** * [contains_leetspeak] *)

Section Contains.

Context {U : unicode}.

Lemma contains_leetspeak_existsb text :
  contains_leetspeak text = existsb is_leet_char text.
Proof.
  unfold contains_leetspeak, search, finditer, tokens. apply leet_indicator_scan.
Qed.

(** C9. contains_leetspeak(text) is true if and only if text contains an ASCII
    digit or an underscore. *)
Theorem contains_leetspeak_iff text :
  contains_leetspeak text = true <->
  exists c, In c text /\ (is_digit c = true \/ c = ch "_").
Proof.
  rewrite contains_leetspeak_existsb. split.
  - intros H. apply existsb_exists in H. destruct H as (c & Hin & Hc).
    exists c. split; [exact Hin|]. unfold is_leet_char in Hc.
    apply orb_prop in Hc. destruct Hc as [Hc|Hc]; [left; exact Hc|right; apply chr_eqb_eq; exact Hc].
  - intros (c & Hin & Hc). apply existsb_exists. exists c. split; [exact Hin|].
    unfold is_leet_char. destruct Hc as [Hc| ->].
    + rewrite Hc. reflexivity.
    + rewrite chr_eqb_refl. apply orb_true_r.
Qed.

End Contains.

(** * Decoding *)

Section Decoding.

Context {U : unicode}.
Variable table : dict.

(** ** The extended pass and the numeric pass *)

Lemma extended_reverse_singles : extended_reverse = singles extended_pairs.
Proof. reflexivity. Qed.

Lemma extended_pass_map s :
  replace_all extended_reverse s = map (subst_char extended_pairs) s.
Proof.
  unfold replace_all. rewrite extended_reverse_singles. apply fold_replace_singles.
Qed.

Lemma extended_pass_no_key s c a b :
  In (a, b) extended_pairs -> In c (replace_all extended_reverse s) -> c <> a.
Proof.
  intros Hk Hc. rewrite extended_pass_map in Hc. apply in_map_iff in Hc.
  destruct Hc as (c0 & <- & _).
  eapply subst_char_no_key; [apply values_not_keys_spec; reflexivity|exact Hk].
Qed.

(** The numeric pass only adds characters of its replacement strings. *)
Lemma numeric_fold_in (d : dict) : forall s c,
  In c (fold_left (fun result kv => sub (word_pattern (fst kv)) (snd kv) result) d s) ->
  In c s \/ exists kv, In kv d /\ In c (snd kv).
Proof.
  induction d as [|kv d IH]; intros s c; simpl; [auto|].
  intros H. apply IH in H. destruct H as [H|(kv' & Hin & Hc)].
  - apply sub_in in H. destruct H as [H|H]; [right; exists kv; auto|auto].
  - right. exists kv'. auto.
Qed.

Lemma numeric_pass_in s c :
  In c (numeric_pass s) -> In c s \/ is_digit c = true.
Proof.
  intros H. apply numeric_fold_in in H. destruct H as [H|(kv & Hin & Hc)]; [auto|right].
  assert (Hall : forallb (fun kv => forallb is_digit (snd kv)) numeric_fixes = true) by reflexivity.
  rewrite forallb_forall in Hall. specialize (Hall _ Hin).
  rewrite forallb_forall in Hall. apply Hall. exact Hc.
Qed.

(** C10. For every table and every input, the output of from_leetspeak contains no
    underscore and none of the upper-case letters O, I, E, A, T, S, G, B, Z. *)
Theorem decoded_free_of_replaced s c :
  In c REPLACED -> ~ In c (from_leetspeak table s).
Proof.
  intros Hbad Hc. unfold from_leetspeak in Hc. destruct s as [|x s]; [destruct Hc|].
  apply numeric_pass_in in Hc. destruct Hc as [Hc|Hd].
  - assert (Hkey : exists b, In (c, b) extended_pairs).
    { unfold REPLACED in Hbad. cbn in Hbad.
      members Hbad ltac:(fun E => rewrite <- E; eexists; cbn; tauto). }
    destruct Hkey as (b & Hkey).
    eapply extended_pass_no_key; [exact Hkey|exact Hc|reflexivity].
  - unfold REPLACED in Hbad. cbn in Hbad.
    members Hbad ltac:(fun E => rewrite <- E in Hd; discriminate Hd).
Qed.

(** ** A table the extended pass undoes *)

Lemma subst_char_absorbs a b c :
  In (a, b) extended_pairs ->
  subst_char extended_pairs (subst1 a b c) = subst_char extended_pairs c.
Proof.
  intros Hin. unfold subst1. destruct (chr_eqb a c) eqn:E; [|reflexivity].
  apply chr_eqb_eq in E. subst c.
  cbn in Hin. members Hin ltac:(fun E => inversion E; reflexivity).
Qed.

Lemma primary_pass_absorbed_fold (d : dict) :
  (forall old new, In (old, new) d ->
     exists a b, old = [a] /\ new = [b] /\ In (a, b) extended_pairs) ->
  forall s, map (subst_char extended_pairs) (replace_all d s) =
            map (subst_char extended_pairs) s.
Proof.
  unfold replace_all. induction d as [|[old new] d IH]; intros H s; [reflexivity|].
  cbn [fold_left fst snd].
  rewrite IH by (intros; eapply H; right; eassumption).
  destruct (H old new) as (a & b & -> & -> & Hin); [left; reflexivity|].
  rewrite replace_single, map_map. apply map_ext. intros c.
  apply subst_char_absorbs. exact Hin.
Qed.

(** For such a table the first pass of [from_leetspeak] is absorbed by the second. *)
Lemma primary_pass_absorbed s :
  agrees_with_extended table ->
  replace_all extended_reverse (replace_all (reverse_table table) s) =
  replace_all extended_reverse s.
Proof.
  intros H. rewrite !extended_pass_map. apply primary_pass_absorbed_fold.
  intros old new Hin. unfold reverse_table in Hin. apply dict_of_in in Hin.
  apply in_map_iff in Hin. destruct Hin as ([k v] & E & Hin). simpl in E. inversion E; subst.
  apply H in Hin. rewrite extended_reverse_singles in Hin. apply in_map_iff in Hin.
  destruct Hin as ([a b] & E' & Hin). inversion E'; subst. eauto.
Qed.

(** ** Text the passes leave alone *)

Lemma to_leetspeak_fold s : forall acc,
  (forall c, In c s -> dict_get table [c] = None) ->
  fold_left (fun result char =>
               match dict_get table [char] with
               | Some v => result ++ v
               | None => result ++ [char]
               end) s acc = acc ++ s.
Proof.
  induction s as [|c s IH]; intros acc H; simpl.
  - rewrite app_nil_r. reflexivity.
  - rewrite (H c) by (left; reflexivity). rewrite IH by (intros; apply H; right; assumption).
    rewrite <- app_assoc. reflexivity.
Qed.

Lemma to_leetspeak_plain s :
  lower s = s -> (forall c, In c s -> dict_get table [c] = None) ->
  to_leetspeak table s = s.
Proof.
  intros Hl Hk. unfold to_leetspeak. rewrite Hl. apply (to_leetspeak_fold s [] Hk).
Qed.

Lemma replace_all_absent (d : dict) s :
  (forall old new, In (old, new) d -> occurs old s = false) -> replace_all d s = s.
Proof.
  unfold replace_all. induction d as [|[old new] d IH]; intros H; simpl; [reflexivity|].
  rewrite replace_absent by (eapply H; left; reflexivity).
  apply IH. intros; eapply H; right; eassumption.
Qed.

Lemma numeric_pass_absent s :
  (forall w d, In (w, d) numeric_fixes -> word_occurs w s = false) -> numeric_pass s = s.
Proof.
  unfold numeric_pass. generalize numeric_fixes as nf.
  induction nf as [|[w d] nf IH]; intros H; simpl; [reflexivity|].
  rewrite sub_no_match by (apply word_pattern_never; eapply H; left; reflexivity).
  apply IH. intros; eapply H; right; eassumption.
Qed.

Lemma from_leetspeak_plain s :
  (forall k v, In (k, v) table -> occurs v s = false) ->
  (forall old new, In (old, new) extended_reverse -> occurs old s = false) ->
  (forall w d, In (w, d) numeric_fixes -> word_occurs w s = false) ->
  from_leetspeak table s = s.
Proof.
  intros H1 H2 H3. unfold from_leetspeak. destruct s as [|x s]; [reflexivity|].
  rewrite (@replace_all_absent (reverse_table table)).
  - rewrite (@replace_all_absent extended_reverse) by exact H2.
    apply numeric_pass_absent. exact H3.
  - intros old new Hin. unfold reverse_table in Hin. apply dict_of_in in Hin.
    apply in_map_iff in Hin. destruct Hin as ([k v] & E & Hin).
    simpl in E. inversion E; subst. eapply H1. exact Hin.
Qed.

(** C1 (amended). For every string s that lower-casing leaves unchanged, built
    only from characters that are not keys of the table, in which no leet value of
    the table and no key of the extended reverse table occurs and no numeric-fix
    word stands as a whole word, from_leetspeak(to_leetspeak(s)) = s. *)
Theorem roundtrip_on_untouched_text s :
  lower s = s ->
  (forall c, In c s -> dict_get table [c] = None) ->
  (forall k v, In (k, v) table -> occurs v s = false) ->
  (forall old new, In (old, new) extended_reverse -> occurs old s = false) ->
  (forall w d, In (w, d) numeric_fixes -> word_occurs w s = false) ->
  from_leetspeak table (to_leetspeak table s) = s.
Proof.
  intros Hl Hk H1 H2 H3. rewrite to_leetspeak_plain by assumption.
  apply from_leetspeak_plain; assumption.
Qed.

End Decoding.

(** C10, witness: no underscore is left in the decoding of [4_B]. *)
Lemma decoded_free_of_replaced_witness :
  ~ In (ch "_") (@from_leetspeak plain_unicode documented_table (u "4_B")).
Proof.
  apply (@decoded_free_of_replaced plain_unicode documented_table (u "4_B") (ch "_")).
  cbn. tauto.
Defined.

(** C1, counterexample: [H], [5] and [zz] are built from characters that are no
    keys of the documented table, yet decoding their encodings gives [h], [s] and
    [22]. *)
Lemma roundtrip_fails :
  let fails s :=
    (forall c, In c s -> dict_get documented_table [c] = None) /\
    @from_leetspeak plain_unicode documented_table
      (@to_leetspeak plain_unicode documented_table s) <> s in
  fails (u "H") /\ fails (u "5") /\ fails (u "zz").
Proof.
  cbn zeta. repeat split; try (vm_compute; discriminate);
    intros c Hc; cbn in Hc; members Hc ltac:(fun E => rewrite <- E; reflexivity).
Qed.

(** C1, witness: the amended round trip at the documented table and the text
    [hull:hunk]. *)
Lemma roundtrip_on_untouched_text_witness :
  @from_leetspeak plain_unicode documented_table
     (@to_leetspeak plain_unicode documented_table (u "hull:hunk")) = u "hull:hunk".
Proof.
  apply (@roundtrip_on_untouched_text plain_unicode documented_table (u "hull:hunk")).
  - reflexivity.
  - intros c Hc. cbn in Hc. members Hc ltac:(fun E => rewrite <- E; reflexivity).
  - intros k v Hin. cbn in Hin. members Hin ltac:(fun E => inversion E; reflexivity).
  - intros old new Hin. vm_compute in Hin. members Hin ltac:(fun E => inversion E; reflexivity).
  - intros w d Hin. vm_compute in Hin. members Hin ltac:(fun E => inversion E; reflexivity).
Defined.

(** * Bullet points *)

Section Bullets.

Context {U : unicode}.

Lemma extract_full_bullet_content_spec text :
  _extract_full_bullet_content text =
  Ret (match filter nonempty (bullet_bodies text) with
       | [] => None
       | b :: bs => Some (join [NL; NL] (b :: bs))
       end).
Proof.
  unfold _extract_full_bullet_content, bullet_bodies.
  destruct (finditer bullet_marker text) as [|m0 ms] eqn:E; [reflexivity|].
  rewrite <- E. set (all := finditer bullet_marker text).
  rewrite (@for_each_ret _ _ _
            (fun im acc =>
               match strip (slice text (m_end (snd im)) (body_end all text (fst im))) with
               | [] => acc
               | _ :: _ => acc ++ [strip (slice text (m_end (snd im)) (body_end all text (fst im)))]
               end)).
  - rewrite (fold_left_collect
               (fun im => strip (slice text (m_end (snd im)) (body_end all text (fst im))))).
    simpl. destruct (filter _ _); reflexivity.
  - intros [i marker] acc Hin. apply enumerate_in in Hin. simpl.
    assert (Hi : i < List.length all) by (apply nth_error_Some; congruence).
    assert (Hend : (if i =? List.length all - 1
                    then Ret (List.length text)
                    else next <- index all (i + 1) ;; Ret (m_start next)) =
                   Ret (body_end all text i)).
    { unfold body_end, index. rewrite Nat.add_1_r.
      destruct (i =? List.length all - 1) eqn:Q.
      - apply Nat.eqb_eq in Q.
        replace (nth_error all (S i)) with (@None rmatch); [reflexivity|].
        symmetry. apply nth_error_None. lia.
      - apply Nat.eqb_neq in Q.
        destruct (nth_error all (S i)) eqn:N; [reflexivity|].
        apply nth_error_None in N. lia. }
    rewrite Hend. simpl. destruct (strip _); reflexivity.
Qed.

(** C8 (amended). _extract_full_bullet_content returns None for a text without
    bullet markers, and returns the same None for a text whose bullet markers are
    all followed by bodies that trim to empty. *)
Theorem bullet_content_none text :
  (finditer bullet_marker text = [] -> _extract_full_bullet_content text = Ret None) /\
  (finditer bullet_marker text <> [] ->
   (forall b, In b (bullet_bodies text) -> b = []) ->
   _extract_full_bullet_content text = Ret None).
Proof.
  split.
  - intros H. unfold _extract_full_bullet_content. rewrite H. reflexivity.
  - intros _ H. rewrite extract_full_bullet_content_spec.
    rewrite filter_none; [reflexivity|].
    intros b Hb. rewrite (H b Hb). reflexivity.
Qed.

End Bullets.

(** C8, counterexample: [abc] has no bullet marker, [* ] has one marker with an
    empty body, and the two results are equal. *)
Lemma bullet_outcomes_coincide :
  let none := u "abc" in
  let empty := u "* " in
  @finditer plain_unicode bullet_marker none = [] /\
  @finditer plain_unicode bullet_marker empty <> [] /\
  (forall b, In b (@bullet_bodies plain_unicode empty) -> b = []) /\
  @_extract_full_bullet_content plain_unicode none =
  @_extract_full_bullet_content plain_unicode empty.
Proof.
  cbn zeta. split; [reflexivity|]. split; [vm_compute; discriminate|].
  split; [|reflexivity].
  intros b Hb. vm_compute in Hb. members Hb ltac:(fun E => rewrite <- E; reflexivity).
Qed.

(** C8, witness: both cases of the amended claim, at [abc] and at [* ]. *)
Lemma bullet_content_none_witness :
  @_extract_full_bullet_content plain_unicode (u "abc") = Ret None /\
  @_extract_full_bullet_content plain_unicode (u "* ") = Ret None.
Proof.
  split.
  - apply (proj1 (@bullet_content_none plain_unicode (u "abc"))). reflexivity.
  - apply (proj2 (@bullet_content_none plain_unicode (u "* "))).
    + vm_compute. discriminate.
    + intros b Hb. vm_compute in Hb. members Hb ltac:(fun E => rewrite <- E; reflexivity).
Defined.

(** * Fences and code blocks *)

Section CodeBlocks.

Context {U : unicode}.

(** While fences are removed from [t], what is kept never holds three
    backticks in a row, and starts with no more backticks than [t] has once
    the scan has skipped to its next place. *)
Lemma fence_scan_invariant t : forall pv i skip,
  let o := subst_tokens [] (scan fence pv i t skip) in
  occurs FENCE o = false /\ lead (ch "`") o <= 2 /\
  (skip = 0 -> lead (ch "`") o <= lead (ch "`") t).
Proof.
  induction t as [|x t IH]; intros pv i skip; cbn zeta.
  - assert (E : subst_tokens [] (scan fence pv i [] skip) = []).
    { destruct skip; [|reflexivity]. cbn [scan].
      rewrite here_nonempty by (cbn; lia).
      destruct (try_at fence _ false) eqn:T; [|reflexivity].
      apply fence_some in T. discriminate. }
    rewrite E. repeat split; simpl; lia.
  - destruct skip as [|sk].
    + cbn [scan]. rewrite here_nonempty by (cbn; lia).
      destruct (try_at fence _ false) as [m1|] eqn:T.
      * apply fence_some in T. cbn [rest] in T.
        change FENCE with [ch "`"; ch "`"; ch "`"] in T. rewrite starts_with_3 in T.
        apply Nat.leb_le in T.
        cbn [map app subst_tokens idx].
        destruct (IH (Some x) (S i) (m_end m1 - i - 1)) as (A & B & _).
        repeat split; [exact A|exact B|lia].
      * apply fence_none in T. cbn [rest] in T.
        change FENCE with [ch "`"; ch "`"; ch "`"] in T. rewrite starts_with_3 in T.
        apply Nat.leb_gt in T.
        cbn [map app subst_tokens idx].
        destruct (IH (Some x) (S i) 0) as (A & B & C). specialize (C eq_refl).
        cbn [lead] in T |- *.
        destruct (chr_eqb (ch "`") x) eqn:Q.
        -- repeat split; [|lia|lia].
           apply (@occurs_cons_short (ch "`")); [exact A|]. intros _. lia.
        -- repeat split; [|lia|lia].
           apply (@occurs_cons_short (ch "`")); [exact A|]. rewrite Q. discriminate.
    + cbn [scan]. destruct (IH (Some x) (S i) sk) as (A & B & _).
      repeat split; [exact A|exact B|discriminate].
Qed.

(** After the fence stripping no triple backtick is left. *)
Lemma strip_fences_clean s : occurs FENCE (sub fence [] s) = false.
Proof. apply (fence_scan_invariant s None 0 0). Qed.

Lemma code_block_unreachable s : occurs FENCE s = false -> findall1 code_block s = [].
Proof.
  intros H. unfold findall1. rewrite finditer_no_match; [reflexivity|].
  eapply never_matches_without; [apply code_block_some|exact H].
Qed.

Lemma code_blocks_skipped response :
  code_blocks_or_later (sub fence [] response) = leet_paragraphs_or_all (sub fence [] response).
Proof.
  unfold code_blocks_or_later.
  rewrite code_block_unreachable by apply strip_fences_clean. reflexivity.
Qed.

(** C4. For every response, the fence stripping leaves no triple backtick, so the
    code-block pattern finds nothing in the stripped text, and extract_leetspeak
    equals the cascade with Strategy 3 deleted. *)
Theorem strategy3_unreachable response :
  occurs FENCE (sub fence [] response) = false /\
  findall1 code_block (sub fence [] response) = [] /\
  extract_leetspeak response = extract_leetspeak_without_code_blocks response.
Proof.
  split; [apply strip_fences_clean|].
  split; [apply code_block_unreachable, strip_fences_clean|].
  unfold extract_leetspeak, extract_leetspeak_without_code_blocks.
  rewrite code_blocks_skipped. reflexivity.
Qed.

End CodeBlocks.

(** * Exceptions *)

Section Totality.

Context {U : unicode}.

Lemma house_segments_total response : exists l, house_segments response = Ret l.
Proof.
  unfold house_segments. apply for_each_total. intros mt acc Hin.
  apply finditer_in in Hin. destruct Hin as (pre & t & adv & _ & Ht).
  apply house_pattern_group in Ht. destruct Ht as (a & b & Hc).
  unfold group. rewrite Hc. simpl.
  destruct (nonempty _ && contains_leetspeak _); eauto.
Qed.

Lemma extract_leetspeak_total response : exists r, extract_leetspeak response = Ret r.
Proof.
  unfold extract_leetspeak.
  destruct (negb (nonempty response) || (List.length (strip response) =? 0)); [eauto|].
  set (r := sub fence [] response).
  destruct (house_segments_total r) as (l & Hl). rewrite Hl. cbn [bind].
  destruct l as [|d l].
  - match goal with |- context [if ?b then _ else _] => destruct b end; cbn [bind]; [|eauto].
    rewrite extract_full_bullet_content_spec. cbn [bind].
    destruct (filter nonempty (bullet_bodies r)) as [|b bs]; [eauto|].
    destruct (join [NL; NL] (b :: bs)); eauto.
  - destruct (findall1 bullet_pattern (join [NL] (d :: l))); [eauto|].
    rewrite extract_full_bullet_content_spec. cbn [bind].
    destruct (filter nonempty (bullet_bodies (join [NL] (d :: l)))) as [|b bs]; [eauto|].
    destruct (join [NL; NL] (b :: bs)); eauto.
Qed.

Lemma process_response_total table response :
  exists r, process_response table response = Ret r.
Proof.
  unfold process_response.
  destruct (extract_leetspeak_total response) as (r & Hr). rewrite Hr. simpl. eauto.
Qed.

(** C6. For every table and every response, extract_leetspeak and process_response
    return a string: neither the method call on group 1 nor the indexing of the
    bullet markers ever raises. *)
Theorem pipeline_total table response :
  (exists r, extract_leetspeak response = Ret r) /\
  (exists r, process_response table response = Ret r).
Proof. split; [apply extract_leetspeak_total|apply process_response_total]. Qed.

End Totality.

(** * Blank responses *)

Section Blank.

Context {U : unicode}.

Lemma house_pattern_blank s :
  space_caseless -> blank s = true -> finditer house_pattern s = [].
Proof.
  intros Hcase Hb. apply finditer_no_match. intros pre t ->.
  destruct (try_at house_pattern (pos_at pre t) false) eqn:E; [|reflexivity].
  apply house_pattern_some in E. destruct E as (x & Hin & Hx). cbn [pos_at rest] in Hin.
  assert (Hs : is_space x = true) by (eapply blank_in; [exact Hb|apply in_or_app; right; exact Hin]).
  unfold chr_match in Hx. cbn in Hx. rewrite (Hcase x Hs) in Hx.
  apply chr_eqb_eq in Hx. subst x. discriminate.
Qed.

Lemma leet_paragraphs_blank s : blank s = true -> leet_paragraphs_or_all s = s.
Proof.
  intros Hb. unfold leet_paragraphs_or_all.
  replace (filter contains_leetspeak (split blank_line s)) with (@nil str); [reflexivity|].
  symmetry. apply filter_none. intros piece Hp.
  rewrite contains_leetspeak_existsb.
  destruct (existsb is_leet_char piece) eqn:E; [|reflexivity].
  apply existsb_exists in E. destruct E as (x & Hx & Hl).
  assert (Hs : is_space x = true) by (eapply blank_in; [exact Hb|eapply split_in; eassumption]).
  unfold is_leet_char, is_digit, is_space, chr_eqb, ch in *. cbn in Hl, Hs.
  exfalso. revert Hl Hs. bool_lia.
Qed.

(** A response that is blank once its fences are gone, but not before, is
    returned without its fences. *)
Lemma blank_after_fences_kept response :
  space_caseless -> blank response = false -> blank (sub fence [] response) = true ->
  extract_leetspeak response = Ret (sub fence [] response).
Proof.
  intros Hcase Hnb Hb. unfold extract_leetspeak.
  assert (Hguard : negb (nonempty response) || (List.length (strip response) =? 0) = false).
  { apply orb_false_iff. split.
    - destruct response; [discriminate|reflexivity].
    - apply Nat.eqb_neq. intros Hl. apply length_zero_iff_nil in Hl.
      apply strip_nil_blank in Hl. congruence. }
  rewrite Hguard. set (r := sub fence [] response) in *.
  unfold house_segments. rewrite house_pattern_blank by assumption. cbn [for_each bind].
  rewrite !blank_has_char by (assumption || reflexivity). cbn [orb bind].
  unfold r at 1. rewrite code_blocks_skipped. fold r.
  rewrite leet_paragraphs_blank by assumption. reflexivity.
Qed.

(** An empty or blank response yields the empty string. *)
Lemma blank_gives_empty response : blank response = true -> extract_leetspeak response = Ret [].
Proof.
  intros H. unfold extract_leetspeak. rewrite (strip_blank _ H).
  rewrite orb_true_r. reflexivity.
Qed.

(** C5 (amended). An empty or whitespace-only response yields the empty string. A
    response that is whitespace-only only after its fences are stripped is not
    caught by the check, which runs before the stripping: extract_leetspeak
    returns the stripped text unchanged. (White space is taken to have no case, as
    in Unicode.) *)
Theorem extract_blank_response response :
  space_caseless ->
  (blank response = true -> extract_leetspeak response = Ret []) /\
  (blank response = false -> blank (sub fence [] response) = true ->
   extract_leetspeak response = Ret (sub fence [] response)).
Proof.
  intros Hcase. split; [apply blank_gives_empty|apply blank_after_fences_kept; exact Hcase].
Qed.

End Blank.

Lemma plain_space_caseless : @space_caseless plain_unicode.
Proof.
  intros x Hx. unfold tolower, is_ascii, ascii_lower. cbn [plain_unicode ext_tolower].
  destruct (x <? 128)%N; [|reflexivity].
  destruct ((65 <=? x)%N && (x <=? 90)%N) eqn:E; [|reflexivity].
  exfalso. unfold is_space in Hx. revert E Hx. bool_lia.
Defined.

(** C5, counterexample: two fences around a space are whitespace-only once the
    fences are stripped, and the result is not the empty string. *)
Lemma fence_stripped_blank_returned :
  let response := u "``` ```" in
  blank (@sub plain_unicode fence [] response) = true /\
  @extract_leetspeak plain_unicode response <> Ret [].
Proof. split; [reflexivity|vm_compute; discriminate]. Qed.

(** C5, witness: three spaces give the empty string; two fences around a space
    give the space. *)
Lemma extract_blank_response_witness :
  @extract_leetspeak plain_unicode (u "   ") = Ret [] /\
  @extract_leetspeak plain_unicode (u "``` ```") = Ret (u " ").
Proof.
  split.
  - apply (proj1 (@extract_blank_response plain_unicode (u "   ") plain_space_caseless)). reflexivity.
  - apply (proj2 (@extract_blank_response plain_unicode (u "``` ```") plain_space_caseless)); reflexivity.
Defined.

(** * Cleaning after the decoding *)

Section Cleaning.

Context {U : unicode}.

Lemma occurs_NL3_cons x s :
  occurs NL3 s = false -> (chr_eqb NL x = true -> lead NL s <= 1) ->
  occurs NL3 (x :: s) = false.
Proof. apply (@occurs_cons_short NL). Qed.

Lemma newlines3_scan_invariant t : forall pv i skip,
  let o := subst_tokens [NL; NL] (scan newlines3 pv i t skip) in
  occurs NL3 o = false /\ lead NL o <= 2 /\ lead NL o <= lead NL (skipn skip t).
Proof.
  induction t as [|x t IH]; intros pv i skip; cbn zeta.
  - assert (E : subst_tokens [NL; NL] (scan newlines3 pv i [] skip) = []).
    { destruct skip; [|reflexivity]. cbn [scan].
      rewrite here_nonempty by (cbn; lia).
      destruct (newlines3_try {| prev := pv; idx := i; rest := [] |}) as (c & ->).
      reflexivity. }
    rewrite E. repeat split; simpl; lia.
  - destruct skip as [|sk].
    + cbn [scan]. rewrite here_nonempty by (cbn; lia).
      destruct (newlines3_try {| prev := pv; idx := i; rest := x :: t |}) as (c & ->).
      cbn [rest idx]. destruct (3 <=? lead NL (x :: t)) eqn:T.
      * apply Nat.leb_le in T. cbn [m_end map app subst_tokens skipn].
        set (L := lead NL (x :: t)) in *.
        destruct (IH (Some x) (S i) (i + L - i - 1)) as (A & B & C).
        replace (skipn (i + L - i - 1) t) with (skipn L (x :: t)) in C
          by (replace (i + L - i - 1) with (L - 1) by lia;
              destruct L; [lia|simpl; rewrite Nat.sub_0_r; reflexivity]).
        assert (Z : lead NL (skipn L (x :: t)) = 0)
          by (unfold L; rewrite !lead_lead_by; apply lead_by_skipn).
        assert (Ho : lead NL (subst_tokens [NL; NL] (scan newlines3 (Some x) (S i) t (i + L - i - 1))) = 0) by lia.
        repeat split.
        -- apply occurs_NL3_cons; [apply occurs_NL3_cons; [exact A|]|]; intros _.
           ++ lia.
           ++ cbn [lead]. rewrite chr_eqb_refl. lia.
        -- cbn [lead]. rewrite !chr_eqb_refl. lia.
        -- cbn [lead]. rewrite !chr_eqb_refl. fold L. lia.
      * apply Nat.leb_gt in T. cbn [map app subst_tokens skipn].
        destruct (IH (Some x) (S i) 0) as (A & B & C). cbn [skipn] in C.
        cbn [lead] in T |- *.
        destruct (chr_eqb NL x) eqn:Q.
        -- repeat split; [|lia|lia].
           apply occurs_NL3_cons; [exact A|]. intros _. lia.
        -- repeat split; [|lia|lia].
           apply occurs_NL3_cons; [exact A|]. rewrite Q. discriminate.
    + cbn [scan skipn]. apply IH.
Qed.

(** After the collapse no three newlines stand in a row. *)
Lemma newlines_collapsed s : occurs NL3 (sub newlines3 [NL; NL] s) = false.
Proof. apply (newlines3_scan_invariant s None 0 0). Qed.

Lemma post_decode_shape x :
  let y := post_decode x in occurs NL3 y = false /\ strip y = y.
Proof.
  cbn zeta. unfold post_decode. split.
  - destruct (occurs NL3 (strip _)) eqn:E; [|reflexivity].
    apply occurs_strip in E. rewrite newlines_collapsed in E. discriminate.
  - apply strip_idem.
Qed.

(** C7 (amended). If the output y of the post-decode cleaner holds no triple
    backtick, no scene marker and only character names in proper case
    (normalize_character_names(y) = y), then cleaning y again returns y. *)
Theorem post_decode_stable x :
  let y := post_decode x in
  normalize_character_names y = y ->
  occurs FENCE y = false ->
  occurs SCENE_START y = false ->
  occurs SCENE_END y = false ->
  post_decode y = y.
Proof.
  cbn zeta. intros Hn Hf Hs He.
  destruct (post_decode_shape x) as (Hnl & Hst).
  unfold post_decode at 1. rewrite Hn.
  rewrite (@sub_no_match _ fence) by (eapply never_matches_without; [apply fence_some|exact Hf]).
  rewrite (@sub_no_match _ scene_marker) by (apply scene_marker_never; assumption).
  rewrite (@sub_no_match _ newlines3) by (eapply never_matches_without; [apply newlines3_some|exact Hnl]).
  exact Hst.
Qed.

End Cleaning.

(** C7, counterexample: removing the marker from [[SCENE [SCENE END]END]] leaves a
    marker, removing it from between backticks leaves a fence, and removing the
    fence from [ho```use] leaves a name; a second cleaning changes each of the
    three results. *)
Lemma post_decode_not_idempotent :
  let changes x :=
    @post_decode plain_unicode (@post_decode plain_unicode x) <> @post_decode plain_unicode x in
  changes (u "[SCENE [SCENE END]END]") /\
  changes (u "``[SCENE END]`") /\
  changes (u "ho```use").
Proof. cbn zeta. repeat split; vm_compute; discriminate. Qed.

(** C7, witness: the amended idempotence at a text with a mixed-case name, fences
    and a scene marker. *)
Lemma post_decode_stable_witness :
  let x := u "hoUSe: ```ok``` [SCENE START] fine." in
  @post_decode plain_unicode (@post_decode plain_unicode x) = @post_decode plain_unicode x.
Proof.
  apply (@post_decode_stable plain_unicode); vm_compute; reflexivity.
Defined.

(** * Two scenarios *)

Section Scenarios.

Context {U : unicode}.
Variable table : dict.

Lemma house_answer_extracted : extract_leetspeak HOUSE_ANSWER = Ret HOUSE_ANSWER.
Proof. vm_compute. reflexivity. Qed.

Lemma house_answer_cleaned :
  clean_stage_directions (sub house_prefix [] (sub house_action [] HOUSE_ANSWER)) =
  u "The answer is 4pple and 0range. ".
Proof. vm_compute. reflexivity. Qed.

(** C2 (amended). For every table whose entries the extended reverse table undoes,
    process_response maps the raw response [HOUSE: The answer is 4pple and 0range.
    [SCENE END]] to exactly [the answer 15 apple and orange.]: 4 and 0 are decoded
    to a and o, the scene marker and the leading HOUSE: label are stripped, the
    extended pass turns T into t and the numeric pass rewrites the word [is] to
    [15]. *)
Theorem house_answer_decoded :
  agrees_with_extended table ->
  process_response table HOUSE_ANSWER = Ret (u "the answer 15 apple and orange.").
Proof.
  intros H. unfold process_response. rewrite house_answer_extracted. cbn [bind].
  rewrite house_answer_cleaned. f_equal.
  change (from_leetspeak table (u "The answer is 4pple and 0range. "))
    with (numeric_pass (replace_all extended_reverse
            (replace_all (reverse_table table) (u "The answer is 4pple and 0range. ")))).
  rewrite primary_pass_absorbed by exact H.
  vm_compute. reflexivity.
Qed.

(** C3. On the input [HOUSE: * f00 ] followed by a newline and [* b4r], the
    speaker pattern finds no dialogue: its look-ahead wants a line start before
    the end of the text. extract_leetspeak returns the single bullet body [b4r]
    instead of the two bodies [f00] and [b4r] joined by a blank line, which is
    what the same input with a newline at its end returns. *)
Theorem house_bullets_lose_first_bullet :
  finditer house_pattern HOUSE_BULLETS = [] /\
  extract_leetspeak HOUSE_BULLETS = Ret (u "b4r") /\
  extract_leetspeak (HOUSE_BULLETS ++ [NL]) = Ret (u "f00" ++ [NL; NL] ++ u "b4r").
Proof. repeat split; vm_compute; reflexivity. Qed.

End Scenarios.

Lemma documented_table_agrees : agrees_with_extended documented_table.
Proof.
  intros k v Hin. cbn in Hin.
  members Hin ltac:(fun E => inversion E; vm_compute; repeat first [left; reflexivity|right]).
Defined.

(** C2, witness: the amended scenario at the documented table. *)
Lemma house_answer_decoded_witness :
  @process_response plain_unicode documented_table HOUSE_ANSWER =
  Ret (u "the answer 15 apple and orange.").
Proof. apply (@house_answer_decoded plain_unicode documented_table documented_table_agrees). Defined.

(** C2, counterexample: at the documented table the result is not [The answer is
    apple and orange.] *)
Lemma house_answer_differs :
  @process_response plain_unicode documented_table HOUSE_ANSWER <>
  Ret (u "The answer is apple and orange.").
Proof. vm_compute. discriminate. Qed.

(** * One pass of [re.sub], step by step *)

Section RewritingTheory.

Context {U : unicode}.
Variable pt : pattern.

Lemma scan_skip n : forall pre t,
  n <= List.length t ->
  scan pt (hd_error (rev pre)) (List.length pre) t n =
  scan pt (hd_error (rev (pre ++ firstn n t))) (List.length (pre ++ firstn n t)) (skipn n t) 0.
Proof.
  induction n as [|n IH]; intros pre t Hn.
  - simpl firstn. simpl skipn. rewrite app_nil_r. reflexivity.
  - destruct t as [|x t]; simpl in Hn; [lia|].
    cbn [scan firstn skipn].
    replace (pre ++ x :: firstn n t) with ((pre ++ [x]) ++ firstn n t)
      by (rewrite <- app_assoc; reflexivity).
    rewrite <- IH by lia.
    rewrite rev_app_distr, length_app. simpl. f_equal. lia.
Qed.

(** The text a match spans. *)
Lemma try_at_span pre t adv mt :
  try_at pt (pos_at pre t) adv = Some mt ->
  exists w t', t = w ++ t' /\ m_end mt = List.length pre + List.length w /\
               min_len (p_re pt) <= List.length w.
Proof.
  intros H. apply try_at_sound in H. destruct H as (p' & Hm & _ & He & _).
  apply matches_ahead in Hm. destruct Hm as (w & (Hr & Hi & _) & Hw).
  simpl in Hr, Hi. exists w, (rest p'). repeat split; [exact Hr|lia|exact Hw].
Qed.

Lemma scan_snoc pre x t n :
  scan pt (Some x) (S (List.length pre)) t n =
  scan pt (hd_error (rev (pre ++ [x]))) (List.length (pre ++ [x])) t n.
Proof. rewrite rev_app_distr, length_app. simpl. f_equal. lia. Qed.

Hypothesis nonempty_matches : 0 < min_len (p_re pt).

Lemma scan_rewrites repl n : forall t pre,
  List.length t <= n ->
  rewrites pt repl pre t
    (subst_tokens repl (scan pt (hd_error (rev pre)) (List.length pre) t 0)).
Proof.
  induction n as [|n IH]; intros t pre Hn.
  - destruct t; [|simpl in Hn; lia].
    cbn [scan]. rewrite here_nonempty by exact nonempty_matches.
    destruct (try_at pt _ false) as [m1|] eqn:E.
    + exfalso. change {| prev := hd_error (rev pre); idx := List.length pre; rest := [] |}
        with (pos_at pre []) in E.
      apply try_at_span in E. destruct E as (w & t' & Ht & _ & Hw).
      destruct w; [simpl in Hw; lia|discriminate].
    + simpl. constructor.
  - destruct t as [|x t].
    + apply (IH [] pre). simpl. lia.
    + cbn [scan]. rewrite here_nonempty by exact nonempty_matches.
      change {| prev := hd_error (rev pre); idx := List.length pre; rest := x :: t |}
        with (pos_at pre (x :: t)).
      destruct (try_at pt (pos_at pre (x :: t)) false) as [m1|] eqn:E.
      * destruct (try_at_span _ _ _ E) as (w & t' & Ht & He & Hw).
        destruct w as [|y w]; [simpl in Hw; lia|].
        simpl in Ht. inversion Ht; subst y t.
        cbn [map app subst_tokens idx pos_at].
        replace (m_end m1 - List.length pre - 1) with (List.length w)
          by (rewrite He; simpl; lia).
        rewrite scan_snoc.
        rewrite scan_skip by (rewrite length_app; lia).
        rewrite firstn_app, Nat.sub_diag, firstn_all, firstn_O, app_nil_r.
        rewrite skipn_app, Nat.sub_diag, skipn_all. simpl skipn.
        rewrite <- app_assoc. simpl app.
        apply (@rw_match _ pt repl pre (x :: w) t' _ m1); [exact E|discriminate|exact He|].
        apply IH. simpl in Hn. rewrite length_app in Hn. lia.
      * cbn [map app subst_tokens].
        apply rw_keep; [exact E|].
        rewrite scan_snoc.
        apply IH. simpl in Hn. lia.
Qed.

Lemma sub_rewrites repl s : rewrites pt repl [] s (sub pt repl s).
Proof. apply (scan_rewrites repl (n := List.length s) s []). lia. Qed.

End RewritingTheory.

Section RewritesFacts.

Context {U : unicode}.
Variable pt : pattern.
Variable repl : str.

Lemma rewrites_in pre t o c :
  rewrites pt repl pre t o -> In c o -> In c repl \/ In c t.
Proof.
  induction 1 as [pre|pre x t o E H IH|pre w t o mt E Hw He H IH]; simpl.
  - intros [].
  - intros [->|Hc]; [auto|]. destruct (IH Hc); auto.
  - rewrite !in_app_iff. intros [Hc|Hc]; [auto|]. destruct (IH Hc); auto.
Qed.

(** A pass that replaces every match by a text of the same length keeps the
    length. *)
Lemma rewrites_length pre t o :
  (forall pre' w t' mt,
     try_at pt (pos_at pre' (w ++ t')) false = Some mt ->
     m_end mt = List.length pre' + List.length w ->
     List.length w = List.length repl) ->
  rewrites pt repl pre t o -> List.length o = List.length t.
Proof.
  intros Hlen. induction 1 as [pre|pre x t o E H IH|pre w t o mt E Hw He H IH]; simpl.
  - reflexivity.
  - rewrite IH. reflexivity.
  - rewrite !length_app, IH, (Hlen _ _ _ _ E He). reflexivity.
Qed.

(** A pass that replaces every match by a text with the same image under
    [f] keeps the image. *)
Lemma rewrites_map (f : char -> char) pre t o :
  (forall pre' w t' mt,
     try_at pt (pos_at pre' (w ++ t')) false = Some mt ->
     m_end mt = List.length pre' + List.length w ->
     map f w = map f repl) ->
  rewrites pt repl pre t o -> map f o = map f t.
Proof.
  intros Hf. induction 1 as [pre|pre x t o E H IH|pre w t o mt E Hw He H IH]; simpl.
  - reflexivity.
  - rewrite IH. reflexivity.
  - rewrite !map_app, IH, (Hf _ _ _ _ E He). reflexivity.
Qed.

End RewritesFacts.

Section Rigid.

Context {U : unicode}.
Variable fl : flags.

Lemma matches_rigid r p c p' c' :
  matches fl r p c p' c' -> rigid r = true -> idx p' = idx p + min_len r.
Proof.
  induction 1; simpl; intros R; try discriminate; try lia; auto.
  apply andb_prop in R. destruct R as (R1 & R2).
  rewrite (IHmatches2 R2), (IHmatches1 R1). lia.
Qed.

End Rigid.

Section RigidPatterns.

Context {U : unicode}.

(** The span of a match of a rigid pattern. *)
Lemma try_at_rigid pt pre w t mt :
  rigid (p_re pt) = true ->
  try_at pt (pos_at pre (w ++ t)) false = Some mt ->
  m_end mt = List.length pre + List.length w ->
  List.length w = min_len (p_re pt).
Proof.
  intros R E He. apply try_at_sound in E. destruct E as (p' & Hm & _ & He' & _).
  apply matches_rigid in Hm; [|exact R]. simpl in Hm. lia.
Qed.

End RigidPatterns.

(** * Encoding and decoding, character by character *)

Lemma app_inv_length {A} (a b x y : list A) :
  List.length a = List.length b -> a ++ x = b ++ y -> a = b /\ x = y.
Proof.
  revert b. induction a as [|h a IH]; intros [|h' b] Hl E; simpl in *; try discriminate.
  - auto.
  - inversion E; subst. destruct (IH b) as (-> & ->); auto.
Qed.

Lemma dict_get_in (d : dict) k v : dict_get d k = Some v -> In (k, v) d.
Proof.
  induction d as [|[k' v'] d IH]; simpl; [discriminate|].
  destruct (str_eqb k' k) eqn:E.
  - intros H. inversion H; subst. apply str_eqb_eq in E. subst. auto.
  - auto.
Qed.

Lemma subst_char_other (d : list (char * char)) : forall c,
  (forall a b, In (a, b) d -> a <> c) -> subst_char d c = c.
Proof.
  unfold subst_char. induction d as [|[a b] d IH]; intros c H; simpl; [reflexivity|].
  unfold subst1 at 2. simpl.
  destruct (chr_eqb a c) eqn:E.
  - apply chr_eqb_eq in E. exfalso. apply (H a b); [left; reflexivity|exact E].
  - apply IH. intros a' b' Hin. apply (H a' b'). right. exact Hin.
Qed.

Lemma subst_char_pair a b :
  In (a, b) extended_pairs -> subst_char extended_pairs a = b.
Proof.
  intros Hin. cbn in Hin. members Hin ltac:(fun E => inversion E; reflexivity).
Qed.

(** The extended pass changes nothing in its own output. *)
Lemma subst_char_idem c :
  subst_char extended_pairs (subst_char extended_pairs c) = subst_char extended_pairs c.
Proof.
  apply subst_char_other. intros a b Hin E.
  assert (H := @subst_char_no_key extended_pairs
                 (values_not_keys_spec extended_pairs eq_refl) c a b Hin).
  congruence.
Qed.

(** The keys of the extended table are the digits and the characters of
    [REPLACED]. *)
Lemma extended_key_leet a b :
  In (a, b) extended_pairs -> is_digit a = true \/ In a REPLACED.
Proof.
  intros Hin. cbn in Hin.
  members Hin ltac:(fun E => inversion E; subst; (left; reflexivity) || (right; cbn; tauto)).
Qed.

Section Roundtrip.

Context {U : unicode}.
Variable table : dict.

Lemma to_leetspeak_flat_map text :
  to_leetspeak table text =
  flat_map (fun c => match dict_get table [c] with Some v => v | None => [c] end)
           (lower text).
Proof.
  unfold to_leetspeak.
  enough (H : forall s acc,
            fold_left (fun result char =>
                         match dict_get table [char] with
                         | Some v => result ++ v
                         | None => result ++ [char]
                         end) s acc =
            acc ++ flat_map (fun c => match dict_get table [c] with
                                      | Some v => v
                                      | None => [c]
                                      end) s) by apply (H (lower text) []).
  induction s as [|c s IH]; intros acc; cbn [fold_left flat_map].
  - rewrite app_nil_r. reflexivity.
  - rewrite IH. destruct (dict_get table [c]); rewrite <- app_assoc; reflexivity.
Qed.

Section Agreeing.

Hypothesis agrees : agrees_with_extended table.

Lemma table_entry_pair k v :
  In (k, v) table -> exists a b, v = [a] /\ k = [b] /\ In (a, b) extended_pairs.
Proof.
  intros Hin. apply agrees in Hin. rewrite extended_reverse_singles in Hin.
  apply in_map_iff in Hin. destruct Hin as ([a b] & E & Hin). inversion E; subst. eauto.
Qed.

(** The extended pass undoes the encoding of text that holds none of its keys. *)
Lemma extended_pass_decodes s :
  lower s = s ->
  (forall c, In c s -> is_digit c = false /\ ~ In c REPLACED) ->
  map (subst_char extended_pairs) (to_leetspeak table s) = s.
Proof.
  intros Hl Hs. rewrite to_leetspeak_flat_map, Hl. clear Hl.
  induction s as [|c s IH]; [reflexivity|].
  cbn [flat_map]. rewrite map_app, IH by (intros; apply Hs; right; assumption).
  replace (c :: s) with ([c] ++ s) by reflexivity. f_equal.
  destruct (dict_get table [c]) as [v|] eqn:E.
  - apply dict_get_in, table_entry_pair in E. destruct E as (a & b & -> & Eb & Hin).
    inversion Eb; subst b. cbn [map]. rewrite (subst_char_pair Hin). reflexivity.
  - cbn [map]. rewrite subst_char_other; [reflexivity|].
    intros a b Hin ->. destruct (Hs c (or_introl eq_refl)) as (Hd & Hr).
    destruct (extended_key_leet Hin); congruence.
Qed.

(** For such a table the first two passes of [from_leetspeak] are one
    substitution of characters. *)
Lemma from_leetspeak_agreeing s :
  from_leetspeak table s =
  match s with
  | [] => []
  | _ :: _ => numeric_pass (map (subst_char extended_pairs) s)
  end.
Proof.
  destruct s as [|x s]; [reflexivity|]. unfold from_leetspeak.
  rewrite primary_pass_absorbed by exact agrees. rewrite extended_pass_map. reflexivity.
Qed.

End Agreeing.

End Roundtrip.

Section NumericPass.

Context {U : unicode}.

Lemma numeric_pass_nil : numeric_pass [] = [].
Proof. reflexivity. Qed.

(** A match of [word_pattern w] spans the text [w]. *)
Lemma word_pattern_span w pre w' t mt :
  try_at (word_pattern w) (pos_at pre (w' ++ t)) false = Some mt ->
  m_end mt = List.length pre + List.length w' ->
  w' = w.
Proof.
  intros E He. apply try_at_sound in E. destruct E as (p' & Hm & _ & He' & _).
  unfold word_pattern, compile in Hm. cbn [p_flags p_re seq] in Hm.
  apply matches_seq_inv in Hm. destruct Hm as (p1 & c1 & H1 & Hm).
  apply matches_seq_inv in Hm. destruct Hm as (p2 & c2 & H2 & H3).
  inversion H1; subst. inversion H3; subst.
  apply matches_lit in H2; [|reflexivity]. destruct H2 as ((Hr & Hi & _) & _).
  simpl in Hr, Hi.
  apply app_inv_length in Hr; [tauto|]. lia.
Qed.

Lemma numeric_fold_map (f : char -> char) (d : dict) :
  (forall w n, In (w, n) d -> w <> [] /\ map f w = map f n) ->
  forall s, map f (fold_left (fun result kv => sub (word_pattern (fst kv)) (snd kv) result) d s)
            = map f s.
Proof.
  induction d as [|[w n] d IH]; intros H s; [reflexivity|].
  cbn [fold_left fst snd]. rewrite IH by (intros; eapply H; right; eassumption).
  destruct (H w n (or_introl eq_refl)) as (Hw & Hf).
  apply (@rewrites_map _ (word_pattern w) n f [] s).
  - intros pre' w' t' mt E He. apply word_pattern_span in E; [|exact He]. subst w'. exact Hf.
  - apply sub_rewrites. destruct w as [|x [|y w]]; [congruence|simpl; lia|simpl; lia].
Qed.

End NumericPass.

Section DecodingLaws.

Context {U : unicode}.
Variable table : dict.

Lemma numeric_fixes_entries w n :
  In (w, n) numeric_fixes ->
  w <> [] /\ List.length w = List.length n /\
  map (subst_char extended_pairs) w = map (subst_char extended_pairs) n /\
  ~ In (ch "6") n.
Proof.
  intros Hin. vm_compute in Hin.
  members Hin ltac:(fun E => inversion E;
    repeat split; [discriminate|vm_compute; intuition discriminate]).
Qed.

(** The extended pass undoes the numeric pass. *)
Lemma numeric_pass_image s :
  map (subst_char extended_pairs) (numeric_pass s) = map (subst_char extended_pairs) s.
Proof.
  apply numeric_fold_map. intros w n Hin. apply numeric_fixes_entries in Hin. tauto.
Qed.

Lemma numeric_fold_length (d : dict) :
  (forall w n, In (w, n) d -> w <> [] /\ List.length w = List.length n) ->
  forall s, List.length (fold_left (fun result kv => sub (word_pattern (fst kv)) (snd kv) result) d s)
            = List.length s.
Proof.
  induction d as [|[w n] d IH]; intros H s; [reflexivity|].
  cbn [fold_left fst snd]. rewrite IH by (intros; eapply H; right; eassumption).
  destruct (H w n (or_introl eq_refl)) as (Hw & Hl).
  apply (@rewrites_length _ (word_pattern w) n [] s).
  - intros pre' w' t' mt E He. apply word_pattern_span in E; [|exact He]. subst w'. exact Hl.
  - apply sub_rewrites. destruct w as [|x [|y w]]; [congruence|simpl; lia|simpl; lia].
Qed.

Lemma numeric_pass_length s : List.length (numeric_pass s) = List.length s.
Proof.
  apply numeric_fold_length. intros w n Hin. apply numeric_fixes_entries in Hin. tauto.
Qed.

(** X1. For a table whose entries the extended table undoes and a text whose
    lower-case form holds no digit, no underscore and none of the letters O, I,
    E, A, T, S, G, B, Z (as the lower-case form of an ASCII text without digits
    and underscores does): decoding the encoding of the text gives the numeric
    pass of its lower-case form, and the lower-case form itself when no
    numeric-fix word stands in it as a whole word. The characters of the text
    may be keys of the table. *)
Theorem roundtrip_up_to_numeric_words text :
  agrees_with_extended table ->
  lower (lower text) = lower text ->
  (forall c, In c (lower text) -> is_digit c = false /\ ~ In c REPLACED) ->
  from_leetspeak table (to_leetspeak table text) = numeric_pass (lower text) /\
  ((forall w d, In (w, d) numeric_fixes -> word_occurs w (lower text) = false) ->
   from_leetspeak table (to_leetspeak table text) = lower text).
Proof.
  intros Ha Hl Hs.
  assert (Et : to_leetspeak table text = to_leetspeak table (lower text)).
  { unfold to_leetspeak. rewrite Hl. reflexivity. }
  assert (E : from_leetspeak table (to_leetspeak table text) = numeric_pass (lower text)).
  { rewrite Et, from_leetspeak_agreeing by exact Ha.
    assert (D := extended_pass_decodes Ha Hl Hs).
    destruct (to_leetspeak table (lower text)) as [|x e].
    - simpl in D. rewrite <- D. symmetry. apply numeric_pass_nil.
    - rewrite D. reflexivity. }
  split; [exact E|].
  intros Hw. rewrite E. apply numeric_pass_absent. exact Hw.
Qed.

(** X2. For a table whose entries the extended table undoes, decoding a decoded
    text changes nothing. *)
Theorem from_leetspeak_idempotent s :
  agrees_with_extended table ->
  from_leetspeak table (from_leetspeak table s) = from_leetspeak table s.
Proof.
  intros Ha. rewrite (from_leetspeak_agreeing Ha s).
  destruct s as [|x s]; [reflexivity|].
  rewrite (from_leetspeak_agreeing Ha).
  destruct (numeric_pass (map (subst_char extended_pairs) (x :: s))) as [|y r] eqn:E;
    [reflexivity|].
  rewrite <- E, numeric_pass_image, map_map.
  f_equal. apply map_ext. intros c. apply subst_char_idem.
Qed.

(** X3. For a table whose entries the extended table undoes, decoding keeps the
    length of the text: every pass replaces characters one for one. *)
Theorem from_leetspeak_length s :
  agrees_with_extended table ->
  List.length (from_leetspeak table s) = List.length s.
Proof.
  intros Ha. rewrite (from_leetspeak_agreeing Ha s).
  destruct s as [|x s]; [reflexivity|].
  rewrite numeric_pass_length, length_map. reflexivity.
Qed.

(** X4. For every table and every input, the output of from_leetspeak never
    contains the digit 6: the extended pass turns it into g, and the numeric
    pass, in which the entries for 16 and 26 are overwritten by those for 19 and
    29, never writes one. *)
Theorem decoded_without_six s : has_char (ch "6") (from_leetspeak table s) = false.
Proof.
  destruct (has_char (ch "6") (from_leetspeak table s)) eqn:E; [exfalso|reflexivity].
  apply existsb_exists in E. destruct E as (c & Hc & E). apply chr_eqb_eq in E. subst c.
  unfold from_leetspeak in Hc. destruct s as [|x s]; [destruct Hc|].
  apply numeric_fold_in in Hc. destruct Hc as [Hc|([w n] & Hin & Hc)].
  - apply (@extended_pass_no_key _ (ch "6") (ch "6") (ch "g")) in Hc; [congruence|].
    cbn. tauto.
  - apply numeric_fixes_entries in Hin. simpl in Hc. tauto.
Qed.

End DecodingLaws.

(** X1, witness: the round trip of [Meet the Goat] at the documented table. *)
Lemma roundtrip_up_to_numeric_words_witness :
  @from_leetspeak plain_unicode documented_table
     (@to_leetspeak plain_unicode documented_table (u "Meet the Goat")) = u "meet the goat".
Proof.
  apply (proj2 (@roundtrip_up_to_numeric_words plain_unicode documented_table
                  (u "Meet the Goat") documented_table_agrees eq_refl
                  ltac:(intros c Hc; cbn in Hc;
                        members Hc ltac:(fun E => rewrite <- E; split;
                          [reflexivity|cbn; intuition discriminate])))).
  intros w d Hin. vm_compute in Hin. members Hin ltac:(fun E => inversion E; reflexivity).
Defined.

(** X2, witness: decoding [7h3_4nsw3r_15_10] twice at the documented table. *)
Lemma from_leetspeak_idempotent_witness :
  let once := @from_leetspeak plain_unicode documented_table (u "7h3_4nsw3r_15_10") in
  @from_leetspeak plain_unicode documented_table once = once.
Proof.
  apply (@from_leetspeak_idempotent plain_unicode documented_table
           (u "7h3_4nsw3r_15_10") documented_table_agrees).
Defined.

(** X3, witness: the length of the decoding of [sooo_m4ny] at the documented table. *)
Lemma from_leetspeak_length_witness :
  List.length (@from_leetspeak plain_unicode documented_table (u "sooo_m4ny")) = 9.
Proof.
  apply (@from_leetspeak_length plain_unicode documented_table
           (u "sooo_m4ny") documented_table_agrees).
Defined.

(** * Cleaning *)

Lemma has_char_in c s : has_char c s = true <-> In c s.
Proof.
  unfold has_char. rewrite existsb_exists. split.
  - intros (x & Hin & E). apply chr_eqb_eq in E. subst. exact Hin.
  - intros H. exists c. split; [exact H|apply chr_eqb_refl].
Qed.

Lemma has_char_not_in c s : has_char c s = false <-> ~ In c s.
Proof. rewrite <- has_char_in. destruct (has_char c s); intuition congruence. Qed.

Lemma no_pair_suffix a b w : forall t, no_pair a b (w ++ t) = true -> no_pair a b t = true.
Proof.
  induction w as [|x w IH]; intros t; simpl; [auto|].
  intros H. apply andb_prop in H. apply IH, H.
Qed.

Lemma no_pair_app_free a b r o :
  ~ In a r -> no_pair a b o = true -> no_pair a b (r ++ o) = true.
Proof.
  induction r as [|x r IH]; simpl; intros Hr Ho; [exact Ho|].
  assert (Hr' : ~ In a r) by (intros Hx; apply Hr; right; exact Hx).
  rewrite (IH Hr' Ho), andb_true_r.
  destruct (chr_eqb a x) eqn:E; [|reflexivity].
  apply chr_eqb_eq in E. exfalso. apply Hr. left. symmetry. exact E.
Qed.

Section Asides.

Context {U : unicode}.

Lemma run_prefix t w : forall p t',
  forallb t w = true -> rest p = w ++ t' ->
  exists p', run t (List.length w) p p' /\ rest p' = t'.
Proof.
  induction w as [|x w IH]; intros p t' Hw Hr; simpl in *.
  - exists p. split; [constructor|exact Hr].
  - apply andb_prop in Hw. destruct Hw as (Hx & Hw).
    destruct (IH (step p x (w ++ t')) t' Hw eq_refl) as (p' & Hrun & Hp').
    exists p'. split; [|exact Hp'].
    eapply run_more; eauto.
Qed.

(** The first [b] of a text that holds one. *)
Lemma first_occurrence (b : char) t :
  In b t -> exists t1 t2, t = t1 ++ b :: t2 /\ forallb (fun x => negb (chr_eqb b x)) t1 = true.
Proof.
  induction t as [|x t IH]; simpl; [intros []|].
  destruct (chr_eqb b x) eqn:E.
  - intros _. apply chr_eqb_eq in E. subst x. exists [], t. auto.
  - intros [->|H]; [rewrite chr_eqb_refl in E; discriminate|].
    destruct (IH H) as (t1 & t2 & -> & H1).
    exists (x :: t1), t2. simpl. rewrite E, H1. auto.
Qed.

(** An opening character with a closing one somewhere behind it is where an
    aside starts. *)
Lemma delimited_complete a b pre t :
  In b t -> try_at (compile no_flags (delimited a b)) (pos_at pre (a :: t)) false <> None.
Proof.
  intros Hin. destruct (first_occurrence b t Hin) as (t1 & t2 & -> & H1).
  set (p := pos_at pre (a :: t1 ++ b :: t2)).
  destruct (@run_prefix (cls_match no_flags (CSet true [IChr b])) t1
              (step p a (t1 ++ b :: t2)) (b :: t2)) as (p1 & Hrun & Hp1).
  { rewrite forallb_forall in *. intros x Hx. specialize (H1 x Hx). cbn.
    rewrite orb_false_r. exact H1. }
  { reflexivity. }
  eapply try_at_complete with (c := []) (c' := []). cbn [p_flags p_re compile delimited seq].
  eapply M_Seq; [apply M_Chr with (s' := t1 ++ b :: t2); [reflexivity|]|].
  - unfold chr_match. cbn. apply chr_eqb_refl.
  - eapply M_Seq.
    + apply M_Rep with (n := List.length t1); [lia|exact Hrun].
    + apply M_Chr with (s' := t2); [exact Hp1|]. unfold chr_match. cbn. apply chr_eqb_refl.
Qed.

(** Removing the asides leaves none. *)
Lemma delimited_removed a b pre t o :
  rewrites (compile no_flags (delimited a b)) [] pre t o -> no_pair a b o = true.
Proof.
  intros H. induction H as [pre|pre x t o E H IH|pre w t o mt E Hw He H IH].
  - reflexivity.
  - simpl. rewrite IH, andb_true_r.
    destruct (chr_eqb a x) eqn:Ex; [|reflexivity]. apply chr_eqb_eq in Ex. subst x.
    simpl. apply negb_true_iff, has_char_not_in. intros Hb.
    apply rewrites_in with (1 := H) in Hb. destruct Hb as [[]|Hb].
    apply (@delimited_complete a b pre t) in Hb. contradiction.
  - exact IH.
Qed.

(** A pass that writes neither [a] nor [b] makes no aside. *)
Lemma no_pair_kept pt repl a b pre t o :
  ~ In a repl -> ~ In b repl ->
  rewrites pt repl pre t o -> no_pair a b t = true -> no_pair a b o = true.
Proof.
  intros Ha Hb H. induction H as [pre|pre x t o E H IH|pre w t o mt E Hw He H IH].
  - auto.
  - simpl. intros Hx. apply andb_prop in Hx. destruct Hx as (Hx & Ht).
    rewrite IH by exact Ht. rewrite andb_true_r.
    destruct (chr_eqb a x); [|reflexivity]. simpl in *.
    apply negb_true_iff, has_char_not_in. apply negb_true_iff, has_char_not_in in Hx.
    intros Hc. apply rewrites_in with (1 := H) in Hc. tauto.
  - intros Hx. apply no_pair_suffix in Hx. apply no_pair_app_free; auto.
Qed.

Lemma sub_no_pair_kept pt repl a b s :
  0 < min_len (p_re pt) -> ~ In a repl -> ~ In b repl ->
  no_pair a b s = true -> no_pair a b (sub pt repl s) = true.
Proof.
  intros Hl Ha Hb. apply no_pair_kept with (pt := pt) (repl := repl) (pre := []); auto.
  apply sub_rewrites. exact Hl.
Qed.

(** X5. In the output of clean_stage_directions no opening parenthesis is
    followed, anywhere later, by a closing one, no opening square bracket by a
    closing one, and no three newlines stand in a row: no parenthetical and no
    bracketed note is left, also none that the removal of another one made. *)
Theorem clean_stage_directions_clean text :
  let cleaned := clean_stage_directions text in
  no_pair (ch "(") (ch ")") cleaned = true /\
  no_pair (ch "[") (ch "]") cleaned = true /\
  occurs NL3 cleaned = false.
Proof.
  cbn zeta. unfold clean_stage_directions. split; [|split].
  - apply sub_no_pair_kept; [simpl; lia|cbn; intuition discriminate..|].
    apply sub_no_pair_kept; [simpl; lia|intros []..|].
    apply (@delimited_removed (ch "(") (ch ")") [] text).
    apply (@sub_rewrites _ parenthetical). simpl. lia.
  - apply sub_no_pair_kept; [simpl; lia|cbn; intuition discriminate..|].
    apply (@delimited_removed (ch "[") (ch "]") [] (sub parenthetical [] text)).
    apply (@sub_rewrites _ bracketed). simpl. lia.
  - apply newlines_collapsed.
Qed.

(** ** Names *)

Lemma names_fold_length (names : list str) :
  (forall name, In name names ->
     rigid (p_re (name_pattern name)) = true /\
     min_len (p_re (name_pattern name)) = List.length name /\ 0 < List.length name) ->
  forall text,
  List.length (fold_left (fun text name => sub (name_pattern name) name text) names text) =
  List.length text.
Proof.
  induction names as [|name names IH]; intros H text; [reflexivity|].
  cbn [fold_left]. rewrite IH by (intros; apply H; right; assumption).
  destruct (H name (or_introl eq_refl)) as (Hr & Hm & Hl).
  apply (@rewrites_length _ (name_pattern name) name [] text).
  - intros pre' w t' mt E He. rewrite <- Hm. eapply try_at_rigid; eauto.
  - apply sub_rewrites. lia.
Qed.

(** X6. normalize_character_names keeps the length of the text: every
    occurrence of a name is overwritten in place by its canonical form. *)
Theorem normalize_keeps_length text :
  List.length (normalize_character_names text) = List.length text.
Proof.
  apply names_fold_length. intros name Hin. cbn in Hin.
  members Hin ltac:(fun E => rewrite <- E; vm_compute; repeat split; lia).
Qed.

End Asides.

(** * Extraction *)

(** ** Where the characters of a piece come from *)

Lemma slice_in s a b (x : char) : In x (slice s a b) -> In x s.
Proof.
  unfold slice. intros H.
  rewrite <- (firstn_skipn a s). apply in_or_app. right.
  rewrite <- (firstn_skipn (b - a) (skipn a s)). apply in_or_app. left. exact H.
Qed.

Lemma strip_in s x : In x (strip s) -> In x s.
Proof.
  unfold strip. intros H.
  destruct (lstrip_suffix s) as (pre & E). rewrite E. apply in_or_app. right.
  destruct (rstrip_prefix (lstrip s)) as (post & E'). rewrite E'. apply in_or_app. left.
  exact H.
Qed.

Lemma join_in sep parts (c : char) :
  In c (join sep parts) -> In c sep \/ exists p, In p parts /\ In c p.
Proof.
  induction parts as [|p [|q parts] IH]; cbn [join].
  - intros [].
  - intros H. right. exists p. split; [left; reflexivity|exact H].
  - rewrite !in_app_iff. intros [H|[H|H]].
    + right. exists p. split; [left; reflexivity|exact H].
    + left. exact H.
    + destruct (IH H) as [Hs|(p' & Hp & Hc)]; [left; exact Hs|].
      right. exists p'. split; [right; exact Hp|exact Hc].
Qed.

Lemma for_each_inv {A B} (P : B -> Prop) (body : A -> B -> py B) xs : forall acc r,
  P acc ->
  (forall x a b, In x xs -> P a -> body x a = Ret b -> P b) ->
  for_each xs acc body = Ret r -> P r.
Proof.
  induction xs as [|x xs IH]; intros acc r Hacc Hbody; simpl.
  - intros E. inversion E; subst. exact Hacc.
  - destruct (body x acc) as [b|e] eqn:Eb; simpl; [|discriminate].
    apply IH.
    + eapply Hbody; [left; reflexivity|exact Hacc|exact Eb].
    + intros y a b' Hy. apply Hbody. right. exact Hy.
Qed.

Lemma fold_left_const {A B} (xs : list A) (acc : B) : fold_left (fun a _ => a) xs acc = acc.
Proof. induction xs; simpl; auto. Qed.

Section Extraction.

Context {U : unicode}.

Lemma not_leet_contains s :
  (forall c, In c s -> is_leet_char c = false) -> contains_leetspeak s = false.
Proof.
  intros H. rewrite contains_leetspeak_existsb.
  destruct (existsb is_leet_char s) eqn:E; [|reflexivity].
  apply existsb_exists in E. destruct E as (x & Hx & Hl). rewrite (H x Hx) in Hl. discriminate.
Qed.

(** ** Speaker spans *)

(** A match of [house_pattern] needs a newline: its look-ahead starts at the
    beginning of a line, and the label lies before it. *)
Lemma house_pattern_newline p adv mt :
  try_at house_pattern p adv = Some mt -> In NL (rest p).
Proof.
  intros H. apply try_at_sound in H. destruct H as (p' & H & _).
  cbn [house_pattern p_re p_flags compile seq] in H.
  apply matches_seq_inv in H. destruct H as (p1 & c1 & H1 & H).
  apply matches_seq_inv in H. destruct H as (p2 & c2 & H2 & H).
  apply matches_seq_inv in H. destruct H as (p3 & c3 & H3 & H).
  apply matches_seq_inv in H. destruct H as (p4 & c4 & H4 & H).
  apply matches_seq_inv in H. destruct H as (p5 & c5 & H5 & H).
  apply matches_seq_inv in H. destruct H as (p6 & c6 & H6 & H).
  apply matches_seq_inv in H. destruct H as (p7 & c7 & H7 & H).
  apply matches_ahead in H1. destruct H1 as (w1 & A1 & _).
  apply matches_ahead in H2. destruct H2 as (w2 & A2 & _).
  apply matches_ahead in H3. destruct H3 as (w3 & A3 & L3).
  apply matches_ahead in H4. destruct H4 as (w4 & A4 & _).
  apply matches_ahead in H5. destruct H5 as (w5 & A5 & _).
  apply matches_ahead in H6. destruct H6 as (w6 & A6 & _).
  apply matches_ahead in H7. destruct H7 as (w7 & A7 & _).
  assert (A : ahead_by (w1 ++ w2 ++ w3 ++ w4 ++ w5 ++ w6 ++ w7) p p7)
    by (repeat (eapply ahead_by_trans; [eassumption|]); assumption).
  set (w := w1 ++ w2 ++ w3 ++ w4 ++ w5 ++ w6 ++ w7) in A.
  assert (Hw : 5 <= List.length w).
  { unfold w. rewrite !length_app. change (min_len _) with 5 in L3. lia. }
  destruct A as (Hr & _ & Hp). rewrite Hr.
  inversion H; subst.
  match goal with Hm : matches _ (Seq line_start _) _ _ _ _ |- _ =>
    apply matches_seq_inv in Hm; destruct Hm as (q & e & Hl & _) end.
  apply matches_alt_inv in Hl. destruct Hl as [Hl|Hl]; inversion Hl; subst.
  - match goal with Hb : at_bol _ _ = true |- _ => unfold at_bol in Hb; rewrite Hp in Hb end.
    destruct (rev w) as [|x rw] eqn:Erw.
    + apply (f_equal (@List.length char)) in Erw. rewrite length_rev in Erw. simpl in Erw. lia.
    + simpl in *.
      match goal with Hb : chr_eqb x NL = true |- _ => apply chr_eqb_eq in Hb; subst x end.
      apply in_or_app. left. apply in_rev. rewrite Erw. left. reflexivity.
  - match goal with
    | Hx : rest _ = ?x :: _, Hc : chr_match _ NL ?x = true |- _ =>
        rewrite Hx; change (chr_eqb NL x = true) in Hc; apply chr_eqb_eq in Hc; subst x
    end.
    apply in_or_app. right. left. reflexivity.
Qed.

(** X7. In a text without a newline house_pattern finds nothing, so a response
    of one line is never read as House's dialogue, whatever it says. *)
Theorem one_line_no_dialogue response :
  ~ In NL response ->
  finditer house_pattern response = [] /\
  house_segments (sub fence [] response) = Ret [].
Proof.
  intros Hnl.
  assert (Hnone : forall s, ~ In NL s -> finditer house_pattern s = []).
  { intros s Hs. destruct (finditer house_pattern s) as [|mt l] eqn:E; [reflexivity|].
    exfalso. destruct (@finditer_in _ house_pattern s mt) as (pre & t & adv & -> & Ht).
    - rewrite E. left. reflexivity.
    - apply house_pattern_newline in Ht. apply Hs. apply in_or_app. right. exact Ht. }
  split; [apply Hnone; exact Hnl|].
  unfold house_segments. rewrite Hnone; [reflexivity|].
  intros Hin. apply sub_in in Hin. destruct Hin as [[]|Hin]. auto.
Qed.

(** What [house_segments] collects. *)
Lemma house_segments_in response l :
  house_segments response = Ret l ->
  forall d, In d l ->
    d <> [] /\ strip d = d /\ contains_leetspeak d = true /\
    forall c, In c d -> In c response.
Proof.
  unfold house_segments.
  apply (@for_each_inv _ _
           (fun acc => forall d, In d acc ->
              d <> [] /\ strip d = d /\ contains_leetspeak d = true /\
              forall c, In c d -> In c response)).
  - intros d [].
  - intros mt a b Hin Ha.
    apply finditer_in in Hin. destruct Hin as (pre & t & adv & _ & Ht).
    apply house_pattern_group in Ht. destruct Ht as (i & j & Hc).
    unfold group. rewrite Hc. cbn [nth_error bind].
    destruct (nonempty (strip (slice response i j))) eqn:En;
      [destruct (contains_leetspeak (strip (slice response i j))) eqn:Ec|]; cbn [andb];
      intros E; inversion E; subst b; try exact Ha.
    intros d Hd. apply in_app_or in Hd. destruct Hd as [Hd|[<-|[]]]; [apply Ha; exact Hd|].
    repeat split.
    + intros E0. rewrite E0 in En. discriminate.
    + apply strip_idem.
    + exact Ec.
    + intros c Hc'. apply strip_in, slice_in in Hc'. exact Hc'.
Qed.

(** ** Bullets *)

Lemma bullet_bodies_in text b :
  In b (bullet_bodies text) -> strip b = b /\ forall c, In c b -> In c text.
Proof.
  unfold bullet_bodies. intros H. apply in_map_iff in H. destruct H as ([i mt] & <- & _).
  split; [apply strip_idem|]. intros c Hc. apply strip_in, slice_in in Hc. exact Hc.
Qed.

(** ** Trimmed text *)

Lemma lstrip_fixed_head c s : lstrip (c :: s) = c :: s -> is_space c = false.
Proof.
  simpl. destruct (is_space c); [|reflexivity]. intros E.
  destruct (lstrip_suffix s) as (pre & Hs).
  apply (f_equal (@List.length char)) in Hs. rewrite length_app, E in Hs. simpl in Hs. lia.
Qed.

Lemma lstrip_app a t : lstrip a = a -> a <> [] -> lstrip (a ++ t) = a ++ t.
Proof.
  destruct a as [|c a]; [congruence|]. intros E _.
  apply lstrip_fixed_head in E. simpl. rewrite E. reflexivity.
Qed.

Lemma rstrip_fixed_rev z : rstrip z = z -> lstrip (rev z) = rev z.
Proof. unfold rstrip. intros E. rewrite <- E at 2. rewrite rev_involutive. reflexivity. Qed.

Lemma rstrip_app t z : rstrip z = z -> z <> [] -> rstrip (t ++ z) = t ++ z.
Proof.
  intros E Hz. unfold rstrip. rewrite rev_app_distr.
  rewrite lstrip_app.
  - rewrite rev_app_distr, !rev_involutive. reflexivity.
  - apply rstrip_fixed_rev. exact E.
  - intros Hr. apply Hz. rewrite <- (rev_involutive z), Hr. reflexivity.
Qed.

Lemma strip_fixed_sides s : strip s = s -> lstrip s = s /\ rstrip s = s.
Proof.
  intros E. assert (Hl : lstrip s = s).
  { rewrite <- E. unfold strip. apply lstrip_rstrip. apply lstrip_idem. }
  split; [exact Hl|]. unfold strip in E. rewrite Hl in E. exact E.
Qed.

(** Trimmed pieces, none of them empty, joined: the result is trimmed. *)
Lemma join_trimmed sep parts :
  parts <> [] ->
  (forall p, In p parts -> p <> [] /\ strip p = p) ->
  join sep parts <> [] /\ lstrip (join sep parts) = join sep parts /\
  rstrip (join sep parts) = join sep parts.
Proof.
  induction parts as [|p [|q parts] IH]; intros Hne H; [congruence| |].
  - cbn [join]. destruct (H p (or_introl eq_refl)) as (Hp & Hs).
    apply strip_fixed_sides in Hs. tauto.
  - change (join sep (p :: q :: parts)) with (p ++ sep ++ join sep (q :: parts)).
    destruct (H p (or_introl eq_refl)) as (Hp & Hs).
    apply strip_fixed_sides in Hs. destruct Hs as (Hl & _).
    destruct IH as (Jn & _ & Jr); [discriminate|intros; apply H; right; assumption|].
    set (J := join sep (q :: parts)) in *.
    repeat split.
    + destruct p; [congruence|discriminate].
    + apply lstrip_app; assumption.
    + rewrite !app_assoc. apply rstrip_app; assumption.
Qed.

Lemma strip_of_sides s : lstrip s = s -> rstrip s = s -> strip s = s.
Proof. intros Hl Hr. unfold strip. rewrite Hl. exact Hr. Qed.

Lemma filter_nonempty_in (l : list str) p : In p (filter nonempty l) -> In p l /\ p <> [].
Proof.
  intros H. apply filter_In in H. destruct H as (H & Hn). split; [exact H|].
  intros ->. discriminate.
Qed.

(** X8. What _extract_full_bullet_content returns, when it is not None, is not
    empty, has no white space at either end, and is made of characters of the
    text and of the newlines that join the bullets. *)
Theorem bullet_content_trimmed text content :
  _extract_full_bullet_content text = Ret (Some content) ->
  content <> [] /\ strip content = content /\
  forall c, In c content -> In c text \/ c = NL.
Proof.
  rewrite extract_full_bullet_content_spec.
  destruct (filter nonempty (bullet_bodies text)) as [|b bs] eqn:E; [discriminate|].
  intros H. inversion H; subst content. clear H.
  assert (Hparts : forall p, In p (b :: bs) ->
            p <> [] /\ strip p = p /\ forall c, In c p -> In c text).
  { intros p Hp. rewrite <- E in Hp. apply filter_nonempty_in in Hp.
    destruct Hp as (Hp & Hn). apply bullet_bodies_in in Hp. tauto. }
  destruct (@join_trimmed [NL; NL] (b :: bs)) as (Jn & Jl & Jr);
    [discriminate|intros p Hp; apply Hparts in Hp; tauto|].
  split; [exact Jn|]. split; [apply strip_of_sides; assumption|].
  intros c Hc. apply (@join_in [NL; NL] (b :: bs)) in Hc. destruct Hc as [Hc|(p & Hp & Hc)].
  - right. simpl in Hc. intuition congruence.
  - left. apply Hparts in Hp. apply Hp. exact Hc.
Qed.

(** ** The cascade *)

Lemma leet_paragraphs_in response c :
  In c (leet_paragraphs_or_all response) -> In c response \/ c = NL.
Proof.
  unfold leet_paragraphs_or_all.
  destruct (filter contains_leetspeak (split blank_line response)) as [|p ps] eqn:E; [auto|].
  intros Hc. apply join_in in Hc. destruct Hc as [Hc|(q & Hq & Hc)].
  - right. simpl in Hc. intuition congruence.
  - left. rewrite <- E in Hq. apply filter_In in Hq. destruct Hq as (Hq & _).
    eapply split_in; eassumption.
Qed.

(** X9. extract_leetspeak invents nothing: every character of its result is a
    character of the response, or one of the newlines that join the pieces. *)
Theorem extract_leetspeak_from_response response :
  exists r, extract_leetspeak response = Ret r /\
            forall c, In c r -> In c response \/ c = NL.
Proof.
  destruct (extract_leetspeak_total response) as (r & Hr). exists r. split; [exact Hr|].
  revert Hr. unfold extract_leetspeak.
  destruct (negb (nonempty response) || (List.length (strip response) =? 0)).
  { intros E. inversion E; subst. intros c []. }
  set (r' := sub fence [] response).
  assert (Hsub : forall c, In c r' -> In c response).
  { intros c Hc. apply sub_in in Hc. destruct Hc as [[]|Hc]. exact Hc. }
  destruct (house_segments r') as [l|e] eqn:Hl; cbn [bind]; [|discriminate].
  assert (Hbul : forall t o,
            (forall c, In c t -> In c response \/ c = NL) ->
            (x <- _extract_full_bullet_content t ;;
             match x with
             | Some ((_ :: _) as content) => Ret content
             | _ => Ret o
             end) = Ret r ->
            (forall c, In c o -> In c response \/ c = NL) ->
            forall c, In c r -> In c response \/ c = NL).
  { intros t o Ht E Ho c Hc.
    destruct (_extract_full_bullet_content t) as [[content|]|e] eqn:Eb; cbn [bind] in E;
      try discriminate.
    - destruct content as [|y content].
      + inversion E; subst. auto.
      + inversion E; subst. apply bullet_content_trimmed in Eb.
        destruct Eb as (_ & _ & Hin). destruct (Hin c Hc) as [H|H]; auto.
    - inversion E; subst. auto. }
  destruct l as [|d l].
  - match goal with |- context [if ?b then _ else _] => destruct b end.
    + intros E. eapply Hbul; [|exact E|].
      * intros c Hc. left. apply Hsub. exact Hc.
      * intros c Hc. unfold r' in Hc. rewrite code_blocks_skipped in Hc.
        apply leet_paragraphs_in in Hc. destruct Hc as [Hc|Hc]; auto.
    + cbn [bind]. intros E. inversion E; subst. intros c Hc.
      unfold r' in Hc. rewrite code_blocks_skipped in Hc.
      apply leet_paragraphs_in in Hc. destruct Hc as [Hc|Hc]; auto.
  - assert (Hcomb : forall c, In c (join [NL] (d :: l)) -> In c response \/ c = NL).
    { intros c Hc. apply join_in in Hc. destruct Hc as [Hc|(p & Hp & Hc)].
      - right. simpl in Hc. intuition congruence.
      - left. apply Hsub. eapply house_segments_in; eassumption. }
    destruct (findall1 bullet_pattern (join [NL] (d :: l))).
    + intros E. inversion E; subst. exact Hcomb.
    + intros E. eapply Hbul; [exact Hcomb|exact E|exact Hcomb].
Qed.

(** X10. A response that is not blank, holds no digit and no underscore, and
    has no bullet marker once its fences are gone, is returned whole, without
    its fences. *)
Theorem prose_returned_whole response :
  blank response = false ->
  (forall c, In c response -> is_leet_char c = false) ->
  finditer bullet_marker (sub fence [] response) = [] ->
  extract_leetspeak response = Ret (sub fence [] response).
Proof.
  intros Hnb Hplain Hbm. unfold extract_leetspeak.
  assert (Hguard : negb (nonempty response) || (List.length (strip response) =? 0) = false).
  { apply orb_false_iff. split.
    - destruct response; [discriminate|reflexivity].
    - apply Nat.eqb_neq. intros Hl. apply length_zero_iff_nil in Hl.
      apply strip_nil_blank in Hl. congruence. }
  rewrite Hguard. set (r := sub fence [] response) in *.
  assert (Hr : forall c, In c r -> is_leet_char c = false).
  { intros c Hc. apply sub_in in Hc. destruct Hc as [[]|Hc]. auto. }
  assert (Hseg : house_segments r = Ret []).
  { unfold house_segments.
    rewrite (@for_each_ret _ _ _ (fun _ acc => acc)); [rewrite fold_left_const; reflexivity|].
    intros mt acc Hin.
    apply finditer_in in Hin. destruct Hin as (pre & t & adv & _ & Ht).
    apply house_pattern_group in Ht. destruct Ht as (i & j & Hc).
    unfold group. rewrite Hc. cbn [nth_error bind].
    rewrite (@not_leet_contains (strip (slice r i j))), andb_false_r; [reflexivity|].
    intros c Hin. apply Hr. apply strip_in, slice_in in Hin. exact Hin. }
  rewrite Hseg. cbn [bind].
  assert (Hnone : _extract_full_bullet_content r = Ret None).
  { unfold _extract_full_bullet_content. rewrite Hbm. reflexivity. }
  rewrite Hnone.
  replace (if has_char BULLET r || has_char (ch "*") r || has_char (ch "-") r
           then Ret None else Ret None) with (@Ret (option str) None)
    by (destruct (has_char BULLET r || has_char (ch "*") r || has_char (ch "-") r); reflexivity).
  cbn [bind]. unfold r at 1. rewrite code_blocks_skipped. fold r.
  unfold leet_paragraphs_or_all. rewrite filter_none; [reflexivity|].
  intros piece Hp. apply not_leet_contains. intros c Hc. apply Hr.
  eapply split_in; eassumption.
Qed.

End Extraction.

(** X10, witness: a line of prose inside fences. *)
Lemma prose_returned_whole_witness :
  @extract_leetspeak plain_unicode (u "```Lupus. Never lupus.```") =
  Ret (u "Lupus. Never lupus.").
Proof.
  apply (@prose_returned_whole plain_unicode (u "```Lupus. Never lupus.```")).
  - reflexivity.
  - intros c Hc. cbn in Hc. members Hc ltac:(fun E => rewrite <- E; reflexivity).
  - reflexivity.
Defined.

(** X7, witness: a line that names House and ends without a newline. *)
Lemma one_line_no_dialogue_witness :
  @finditer plain_unicode house_pattern (u "HOUSE: 17 15 lupus.") = [] /\
  @house_segments plain_unicode (@sub plain_unicode fence [] (u "HOUSE: 17 15 lupus.")) = Ret [].
Proof.
  apply (@one_line_no_dialogue plain_unicode (u "HOUSE: 17 15 lupus.")).
  cbn. intuition discriminate.
Defined.

(** X8, witness: two bullets. *)
Lemma bullet_content_trimmed_witness :
  let content := u "f00" ++ [NL; NL] ++ u "b4r" in
  content <> [] /\ strip content = content /\
  forall c, In c content -> In c (u "* f00 " ++ [NL] ++ u "* b4r ") \/ c = NL.
Proof.
  apply (@bullet_content_trimmed plain_unicode (u "* f00 " ++ [NL] ++ u "* b4r ")).
  reflexivity.
Defined.

(** * The table and its inverse *)

Lemma str_eqb_refl a : str_eqb a a = true.
Proof. induction a as [|x a IH]; simpl; [reflexivity|]. rewrite chr_eqb_refl. exact IH. Qed.

Lemma str_eqb_neq a b : a <> b -> str_eqb a b = false.
Proof.
  intros H. destruct (str_eqb a b) eqn:E; [|reflexivity]. apply str_eqb_eq in E. contradiction.
Qed.

Lemma dict_get_set d k v k' :
  dict_get (dict_set d k v) k' = if str_eqb k k' then Some v else dict_get d k'.
Proof.
  induction d as [|[k0 v0] d IH]; simpl.
  - reflexivity.
  - destruct (str_eqb k0 k) eqn:E0.
    + apply str_eqb_eq in E0. subst k0. simpl. destruct (str_eqb k k'); reflexivity.
    + simpl. rewrite IH. destruct (str_eqb k0 k') eqn:E1; [|reflexivity].
      apply str_eqb_eq in E1. subst k0.
      destruct (str_eqb k k') eqn:E2; [|reflexivity].
      apply str_eqb_eq in E2. subst k'. rewrite str_eqb_refl in E0. discriminate.
Qed.

Lemma dict_get_app (d1 d2 : dict) k :
  dict_get (d1 ++ d2) k =
  match dict_get d1 k with Some v => Some v | None => dict_get d2 k end.
Proof.
  induction d1 as [|[k0 v0] d1 IH]; simpl; [reflexivity|].
  destruct (str_eqb k0 k); [reflexivity|exact IH].
Qed.

Lemma dict_get_fold items k : forall d,
  dict_get (fold_left (fun d kv => dict_set d (fst kv) (snd kv)) items d) k =
  match dict_get (rev items) k with Some v => Some v | None => dict_get d k end.
Proof.
  induction items as [|[k0 v0] items IH]; intros d; simpl; [reflexivity|].
  rewrite IH, dict_get_app, dict_get_set. simpl.
  destruct (dict_get (rev items) k); [reflexivity|].
  destruct (str_eqb k0 k); reflexivity.
Qed.

(** A dict display or comprehension: of the items with the same key the last
    one counts. *)
Lemma dict_get_dict_of items k : dict_get (dict_of items) k = dict_get (rev items) k.
Proof.
  unfold dict_of. rewrite dict_get_fold. destruct (dict_get (rev items) k); reflexivity.
Qed.

Lemma dict_set_fresh d k v :
  ~ In k (map fst d) -> dict_set d k v = d ++ [(k, v)].
Proof.
  induction d as [|[k0 v0] d IH]; simpl; intros H; [reflexivity|].
  rewrite str_eqb_neq by (intros ->; apply H; left; reflexivity).
  rewrite IH by (intros Hin; apply H; right; exact Hin). reflexivity.
Qed.

Lemma dict_of_nodup_fold items : forall d,
  NoDup (map fst (d ++ items)) ->
  fold_left (fun d kv => dict_set d (fst kv) (snd kv)) items d = d ++ items.
Proof.
  induction items as [|[k v] items IH]; intros d H; simpl.
  - rewrite app_nil_r. reflexivity.
  - assert (Hk : ~ In k (map fst d)).
    { rewrite map_app in H. simpl in H. apply NoDup_remove_2 in H.
      intros Hin. apply H. apply in_or_app. left. exact Hin. }
    rewrite dict_set_fresh by exact Hk.
    rewrite IH by (rewrite <- app_assoc; exact H).
    rewrite <- app_assoc. reflexivity.
Qed.

Lemma dict_of_nodup items : NoDup (map fst items) -> dict_of items = items.
Proof. intros H. apply (dict_of_nodup_fold items []). exact H. Qed.

Lemma dict_get_nodup (d : dict) k v :
  NoDup (map fst d) -> In (k, v) d -> dict_get d k = Some v.
Proof.
  induction d as [|[k0 v0] d IH]; simpl; intros Hn Hin; [destruct Hin|].
  inversion Hn; subst. destruct Hin as [E|Hin].
  - inversion E; subst. rewrite str_eqb_refl. reflexivity.
  - rewrite str_eqb_neq; [apply IH; assumption|].
    intros ->. match goal with Hk : ~ In _ _ |- _ => apply Hk end.
    apply in_map_iff. exists (k, v). auto.
Qed.

Section Tables.

Context {U : unicode}.
Variable table : dict.

(** X11. Looking a leet form up in reverse_table gives the key of the last
    entry of the table that has this value: when two keys share a value, the
    earlier one is lost to decoding. *)
Theorem reverse_table_last_wins leet :
  dict_get (reverse_table table) leet = dict_get (rev (map swap table)) leet.
Proof. unfold reverse_table. apply dict_get_dict_of. Qed.

(** X12. For a table no two entries of which share a value, reverse_table holds
    the entries of the table, each turned round, in the order of the table, and
    gives back the key of every entry. *)
Theorem reverse_table_inverts :
  NoDup (map snd table) ->
  reverse_table table = map swap table /\
  forall k v, In (k, v) table -> dict_get (reverse_table table) v = Some k.
Proof.
  intros H.
  assert (Hkeys : map fst (map swap table) = map snd table).
  { rewrite map_map. reflexivity. }
  assert (E : reverse_table table = map swap table).
  { unfold reverse_table. apply dict_of_nodup. rewrite <- Hkeys in H. exact H. }
  split; [exact E|].
  intros k v Hin. rewrite E. apply dict_get_nodup.
  - rewrite Hkeys. exact H.
  - apply in_map_iff. exists (k, v). auto.
Qed.

End Tables.

(** X12, witness: the documented table. *)
Lemma reverse_table_inverts_witness :
  reverse_table documented_table = map swap documented_table /\
  forall k v, In (k, v) documented_table -> dict_get (reverse_table documented_table) v = Some k.
Proof.
  apply (@reverse_table_inverts documented_table).
  cbn. repeat (constructor; [cbn; intuition discriminate|]). constructor.
Defined.

(** * Encoding *)

Lemma ascii_lower_ascii c : is_ascii c = true -> is_ascii (ascii_lower c) = true.
Proof.
  unfold is_ascii, ascii_lower. intros H. apply N.ltb_lt in H.
  destruct ((65 <=? c) && (c <=? 90))%N eqn:E; apply N.ltb_lt; [|exact H].
  apply andb_prop in E. destruct E as (_ & E). apply N.leb_le in E. lia.
Qed.

Lemma ascii_lower_idem c : ascii_lower (ascii_lower c) = ascii_lower c.
Proof.
  unfold ascii_lower. destruct ((65 <=? c) && (c <=? 90))%N eqn:E; [|rewrite E; reflexivity].
  apply andb_prop in E. destruct E as (E1 & E2). apply N.leb_le in E1, E2.
  replace ((65 <=? c + 32) && (c + 32 <=? 90))%N with false; [reflexivity|].
  symmetry. apply andb_false_iff. right. apply N.leb_gt. lia.
Qed.

Lemma ascii_lower_not_upper c : ((65 <=? ascii_lower c) && (ascii_lower c <=? 90))%N = false.
Proof.
  unfold ascii_lower. destruct ((65 <=? c) && (c <=? 90))%N eqn:E; [|exact E].
  apply andb_prop in E. destruct E as (E1 & E2). apply N.leb_le in E1, E2.
  apply andb_false_iff. right. apply N.leb_gt. lia.
Qed.

Section Encoding.

Context {U : unicode}.

Lemma lower_ascii s : forallb is_ascii s = true -> lower s = map ascii_lower s.
Proof. intros H. unfold lower. rewrite H. reflexivity. Qed.

Lemma lower_ascii_is_ascii s :
  forallb is_ascii s = true -> forallb is_ascii (map ascii_lower s) = true.
Proof.
  rewrite !forallb_forall. intros H c Hc. apply in_map_iff in Hc.
  destruct Hc as (x & <- & Hx). apply ascii_lower_ascii. auto.
Qed.

Lemma lower_idem s : forallb is_ascii s = true -> lower (lower s) = lower s.
Proof.
  intros H. rewrite (lower_ascii s H), lower_ascii by (apply lower_ascii_is_ascii; exact H).
  rewrite map_map. apply map_ext. intros c. apply ascii_lower_idem.
Qed.

Lemma lower_app a b :
  forallb is_ascii a = true -> forallb is_ascii b = true ->
  lower (a ++ b) = lower a ++ lower b.
Proof.
  intros Ha Hb. rewrite !lower_ascii; try assumption.
  - apply map_app.
  - rewrite forallb_app, Ha, Hb. reflexivity.
Qed.

Variable table : dict.

(** X13. On ASCII text to_leetspeak does not tell upper case from lower case,
    and it encodes a text piece by piece: the encoding of a concatenation is
    the concatenation of the encodings. *)
Theorem to_leetspeak_ascii a b :
  forallb is_ascii a = true -> forallb is_ascii b = true ->
  to_leetspeak table (lower a) = to_leetspeak table a /\
  to_leetspeak table (a ++ b) = to_leetspeak table a ++ to_leetspeak table b.
Proof.
  intros Ha Hb. split.
  - unfold to_leetspeak. rewrite lower_idem by exact Ha. reflexivity.
  - rewrite !to_leetspeak_flat_map, lower_app by assumption. apply flat_map_app.
Qed.

Lemma dict_get_reachable (d : dict) c :
  ((65 <=? c) && (c <=? 90))%N = false ->
  dict_get (filter (fun kv => reachable (fst kv)) d) [c] = dict_get d [c].
Proof.
  intros Hc. induction d as [|[k v] d IH]; simpl; [reflexivity|].
  destruct (reachable k) eqn:R; simpl.
  - rewrite IH. reflexivity.
  - rewrite IH. destruct (str_eqb k [c]) eqn:E; [|reflexivity].
    apply str_eqb_eq in E. subst k. simpl in R. rewrite Hc in R. discriminate.
Qed.

(** X14. On ASCII text the entries of the table whose key is longer than one
    character, empty, or an upper-case ASCII letter never take part in the
    encoding: to_leetspeak gives the same result without them. *)
Theorem to_leetspeak_dead_keys text :
  forallb is_ascii text = true ->
  to_leetspeak (filter (fun kv => reachable (fst kv)) table) text = to_leetspeak table text.
Proof.
  intros H. rewrite !to_leetspeak_flat_map, (lower_ascii text H).
  induction text as [|c text IH]; [reflexivity|].
  simpl in H. apply andb_prop in H. destruct H as (_ & H).
  cbn [map flat_map]. rewrite (IH H), dict_get_reachable by apply ascii_lower_not_upper.
  reflexivity.
Qed.

End Encoding.

(** X13, witness: [Hello] and [ World] at the documented table. *)
Lemma to_leetspeak_ascii_witness :
  @to_leetspeak plain_unicode documented_table (@lower plain_unicode (u "Hello")) =
  @to_leetspeak plain_unicode documented_table (u "Hello") /\
  @to_leetspeak plain_unicode documented_table (u "Hello" ++ u " World") =
  @to_leetspeak plain_unicode documented_table (u "Hello") ++
  @to_leetspeak plain_unicode documented_table (u " World").
Proof.
  apply (@to_leetspeak_ascii plain_unicode documented_table (u "Hello") (u " World"));
    reflexivity.
Defined.

(** X14, witness: a table with an upper-case key and a key of two characters. *)
Lemma to_leetspeak_dead_keys_witness :
  let table := [(u "A", u "4"); (u "e", u "3"); (u "ll", u "11")] in
  @to_leetspeak plain_unicode (filter (fun kv => reachable (fst kv)) table) (u "All else") =
  @to_leetspeak plain_unicode table (u "All else").
Proof.
  apply (@to_leetspeak_dead_keys plain_unicode
           [(u "A", u "4"); (u "e", u "3"); (u "ll", u "11")] (u "All else")).
  reflexivity.
Defined.

(** * The prompt *)

Lemma starts_with_fits w : forall a b,
  List.length w <= List.length a -> starts_with w (a ++ b) = starts_with w a.
Proof.
  induction w as [|x w IH]; intros [|y a] b Hl; simpl in *; try reflexivity; [lia|].
  rewrite IH by lia. reflexivity.
Qed.

Lemma starts_with_overlap w : forall b r,
  starts_with w (b ++ r) = true -> starts_with (skipn (List.length b) w) r = true.
Proof.
  induction w as [|x w IH]; intros [|y b] r; simpl; auto.
  intros H. apply andb_prop in H. apply IH, H.
Qed.

Lemma replace_from_skip old new w : forall t,
  replace_from old new (w ++ t) (List.length w) = replace_from old new t 0.
Proof.
  induction w as [|x w IH]; intros t; simpl.
  - destruct t; reflexivity.
  - apply IH.
Qed.

Lemma length_removelast (l : str) : l <> [] -> List.length l = S (List.length (removelast l)).
Proof.
  induction l as [|x [|y l] IH]; intros H; [congruence|reflexivity|].
  change (removelast (x :: y :: l)) with (x :: removelast (y :: l)).
  cbn [List.length] in *. rewrite <- IH by discriminate. reflexivity.
Qed.

(** Where [old] first occurs. *)
Lemma replace_from_first old new pre post :
  old <> [] ->
  occurs old (pre ++ removelast old) = false ->
  replace_from old new (pre ++ old ++ post) 0 =
  pre ++ new ++ replace_from old new post 0.
Proof.
  intros Hold. induction pre as [|c pre IH]; intros Hocc.
  - destruct old as [|x old]; [congruence|]. cbn [app].
    cbn [replace_from]. change (x :: old ++ post) with ((x :: old) ++ post).
    rewrite starts_with_app.
    replace (List.length (x :: old) - 1) with (List.length old) by (simpl; lia).
    rewrite replace_from_skip. reflexivity.
  - cbn [app] in *. cbn [occurs] in Hocc. apply orb_false_iff in Hocc.
    destruct Hocc as (Hs & Hocc). cbn [replace_from].
    replace (starts_with old (c :: pre ++ old ++ post)) with false.
    + rewrite IH by exact Hocc. reflexivity.
    + symmetry. rewrite <- Hs.
      rewrite (app_removelast_last 0%N Hold) at 2.
      rewrite <- app_assoc, app_comm_cons, app_assoc.
      apply starts_with_fits.
      assert (Hl := length_removelast Hold).
      cbn [List.length]. rewrite length_app. lia.
Qed.

(** The placeholder does not overlap itself. *)
Lemma placeholder_unbordered b :
  starts_with LEETSPEAK_PLACEHOLDER (b ++ removelast LEETSPEAK_PLACEHOLDER) = true ->
  starts_with LEETSPEAK_PLACEHOLDER b = true.
Proof.
  intros H.
  destruct (Nat.le_gt_cases (List.length LEETSPEAK_PLACEHOLDER) (List.length b)) as [Hl|Hl].
  - rewrite starts_with_fits in H by exact Hl. exact H.
  - exfalso. apply starts_with_overlap in H.
    assert (Hall : forallb (fun k => negb (starts_with (skipn k LEETSPEAK_PLACEHOLDER)
                                             (removelast LEETSPEAK_PLACEHOLDER)))
                     (List.seq 0 (List.length LEETSPEAK_PLACEHOLDER)) = true) by reflexivity.
    rewrite forallb_forall in Hall. specialize (Hall (List.length b)).
    rewrite H in Hall. discriminate Hall. apply in_seq. lia.
Qed.

Lemma placeholder_first pre :
  occurs LEETSPEAK_PLACEHOLDER pre = false ->
  occurs LEETSPEAK_PLACEHOLDER (pre ++ removelast LEETSPEAK_PLACEHOLDER) = false.
Proof.
  induction pre as [|c pre IH]; [reflexivity|].
  cbn [occurs app]. intros H. apply orb_false_iff in H. destruct H as (Hs & Ho).
  rewrite IH by exact Ho. rewrite orb_false_r.
  destruct (starts_with LEETSPEAK_PLACEHOLDER (c :: pre ++ removelast LEETSPEAK_PLACEHOLDER))
    eqn:E; [|reflexivity].
  apply (placeholder_unbordered (c :: pre)) in E. congruence.
Qed.

(** X15. create_prompt returns a template without the placeholder as it is,
    whatever the query; and where the placeholder stands behind a text that
    holds none, it writes the query there, as it is, and goes on behind the
    placeholder. *)
Theorem create_prompt_fills query :
  (forall template,
     occurs LEETSPEAK_PLACEHOLDER template = false -> create_prompt template query = template) /\
  (forall pre post,
     occurs LEETSPEAK_PLACEHOLDER pre = false ->
     create_prompt (pre ++ LEETSPEAK_PLACEHOLDER ++ post) query =
     pre ++ query ++ create_prompt post query).
Proof.
  split.
  - intros template H. apply replace_absent. exact H.
  - intros pre post H. unfold create_prompt.
    change (replace LEETSPEAK_PLACEHOLDER query (pre ++ LEETSPEAK_PLACEHOLDER ++ post))
      with (replace_from LEETSPEAK_PLACEHOLDER query (pre ++ LEETSPEAK_PLACEHOLDER ++ post) 0).
    rewrite replace_from_first; [reflexivity|discriminate|].
    apply placeholder_first. exact H.
Qed.

(** X15, witness: a template with one placeholder, and a query that holds the
    placeholder itself. *)
Lemma create_prompt_fills_witness :
  create_prompt (u "<q>{{LEETSPEAK_PLACEHOLDER}}</q>") (u "{{LEETSPEAK_PLACEHOLDER}}") =
  u "<q>{{LEETSPEAK_PLACEHOLDER}}</q>" /\
  create_prompt (u "plain") (u "h0w") = u "plain".
Proof.
  split.
  - apply (proj2 (create_prompt_fills (u "{{LEETSPEAK_PLACEHOLDER}}")) (u "<q>") (u "</q>")).
    reflexivity.
  - apply (proj1 (create_prompt_fills (u "h0w")) (u "plain")). reflexivity.
Defined.

(** * The debug flags *)

Lemma toggle_sets_all command st :
  let st' := snd (toggle_debug_mode command st) in
  match fst (toggle_debug_mode command st) with
  | Some _ => st' = init_debug_flags (debug_mode st')
  | None => st' = st
  end.
Proof.
  unfold toggle_debug_mode.
  destruct (str_eqb command (u "debug on")); [reflexivity|].
  destruct (str_eqb command (u "debug off")); reflexivity.
Qed.

(** X16. Whatever commands toggle_debug_mode is given, one after the other,
    starting from the flags the construction sets, the debug flags of the
    translator, of the client and of its rate limiter are equal to the debug
    mode of the application. *)
Theorem debug_flags_agree initial commands :
  let st := toggle_all commands (init_debug_flags initial) in
  translator_debug st = debug_mode st /\
  client_debug st = debug_mode st /\
  limiter_debug st = debug_mode st.
Proof.
  cbn zeta.
  assert (H : forall cs st, st = init_debug_flags (debug_mode st) ->
            toggle_all cs st = init_debug_flags (debug_mode (toggle_all cs st))).
  { unfold toggle_all. induction cs as [|c cs IH]; intros st Hst; [exact Hst|].
    cbn [fold_left]. apply IH.
    assert (T := toggle_sets_all c st). cbn zeta in T.
    destruct (fst (toggle_debug_mode c st)); [exact T|].
    rewrite T. exact Hst. }
  rewrite (H commands (init_debug_flags initial) eq_refl). simpl. auto.
Qed.

(** * The whole pipeline *)

Section Pipeline.

Context {U : unicode}.
Variable table : dict.

(** The characters the steps behind [from_leetspeak] can add. *)
Lemma names_fold_in (names : list str) : forall text c,
  In c (fold_left (fun text name => sub (name_pattern name) name text) names text) ->
  In c text \/ exists name, In name names /\ In c name.
Proof.
  induction names as [|name names IH]; intros text c; simpl; [auto|].
  intros H. apply IH in H. destruct H as [H|(name' & Hin & Hc)].
  - apply sub_in in H. destruct H as [H|H]; [right; exists name; auto|auto].
  - right. exists name'. auto.
Qed.

Lemma post_decode_in decoded c :
  In c (post_decode decoded) ->
  In c decoded \/ c = NL \/ exists name, In name character_names /\ In c name.
Proof.
  unfold post_decode. intros H. apply strip_in in H.
  apply sub_in in H. destruct H as [H|H]; [simpl in H; intuition congruence|].
  apply sub_in in H. destruct H as [[]|H].
  apply sub_in in H. destruct H as [[]|H].
  apply names_fold_in in H. tauto.
Qed.

(** A key of the extended table that the numeric pass never writes is in no
    decoded text. *)
Lemma decoded_without_key s c b :
  In (c, b) extended_pairs ->
  (forall w n, In (w, n) numeric_fixes -> ~ In c n) ->
  ~ In c (from_leetspeak table s).
Proof.
  intros Hk Hn Hc. unfold from_leetspeak in Hc. destruct s as [|x s]; [destruct Hc|].
  apply numeric_fold_in in Hc. destruct Hc as [Hc|([w n] & Hin & Hc)].
  - eapply extended_pass_no_key; [exact Hk|exact Hc|reflexivity].
  - eapply Hn; eassumption.
Qed.

Lemma numeric_fixes_digits w n c :
  In (w, n) numeric_fixes -> In c n -> is_digit c = true /\ c <> ch "6".
Proof.
  intros Hin Hc. vm_compute in Hin.
  members Hin ltac:(fun E => inversion E; subst; cbn in Hc;
    members Hc ltac:(fun E' => rewrite <- E'; split; [reflexivity|discriminate])).
Qed.

(** X17. For every table and every response, process_response returns a text
    without white space at either end, without three newlines in a row, without
    an underscore and without the digit 6. *)
Theorem process_response_shape response :
  exists y, process_response table response = Ret y /\
            strip y = y /\ occurs NL3 y = false /\
            ~ In (ch "_") y /\ ~ In (ch "6") y.
Proof.
  destruct (extract_leetspeak_total response) as (r & Hr).
  unfold process_response. rewrite Hr. cbn [bind].
  eexists. split; [reflexivity|].
  destruct (post_decode_shape
              (from_leetspeak table
                 (clean_stage_directions (sub house_prefix [] (sub house_action [] r)))))
    as (Hnl & Hs).
  repeat split; try assumption.
  - intros Hc. apply post_decode_in in Hc. destruct Hc as [Hc|[Hc|(name & Hn & Hc)]].
    + revert Hc. apply decoded_without_key with (b := ch " "); [cbn; tauto|].
      intros w n Hin Hc. destruct (numeric_fixes_digits _ Hin Hc) as (Hd & _). discriminate.
    + discriminate.
    + cbn in Hn. members Hn ltac:(fun E => rewrite <- E in Hc; cbn in Hc; intuition discriminate).
  - intros Hc. apply post_decode_in in Hc. destruct Hc as [Hc|[Hc|(name & Hn & Hc)]].
    + revert Hc. apply decoded_without_key with (b := ch "g"); [cbn; tauto|].
      intros w n Hin Hc. destruct (numeric_fixes_digits _ Hin Hc) as (_ & Hd). congruence.
    + discriminate.
    + cbn in Hn. members Hn ltac:(fun E => rewrite <- E in Hc; cbn in Hc; intuition discriminate).
Qed.

Lemma process_response_blank response :
  blank response = true -> process_response table response = Ret [].
Proof.
  intros H. unfold process_response. rewrite blank_gives_empty by exact H. reflexivity.
Qed.

(** X18. When generate_content returns the empty string, as it does after a
    failed request or for a reply without candidates, or returns white space
    only, handle_query returns the empty string. *)
Theorem handle_query_blank_reply prompt_template (generate_content : str -> str) query :
  blank (generate_content (create_prompt prompt_template (to_leetspeak table query))) = true ->
  handle_query table prompt_template generate_content query = Ret [].
Proof.
  intros H. unfold handle_query. rewrite process_response_blank by exact H. reflexivity.
Qed.

End Pipeline.

(** X18, witness: a request that fails. *)
Lemma handle_query_blank_reply_witness :
  @handle_query plain_unicode documented_table (u "<q>{{LEETSPEAK_PLACEHOLDER}}</q>")
    (fun _ => []) (u "what is lupus") = Ret [].
Proof.
  apply (@handle_query_blank_reply plain_unicode documented_table
           (u "<q>{{LEETSPEAK_PLACEHOLDER}}</q>") (fun _ => []) (u "what is lupus")).
  reflexivity.
Defined.

(** * Names *)

Lemma seq_cons r rs : rs <> [] -> seq (r :: rs) = Seq r (seq rs).
Proof. destruct rs; [congruence|reflexivity]. Qed.

Lemma ascii_chars_all x : is_ascii x = true -> In x ascii_chars.
Proof.
  unfold is_ascii, ascii_chars. intros H. apply N.ltb_lt in H.
  apply in_map_iff. exists (N.to_nat x). split; [apply N2Nat.id|].
  apply in_seq. lia.
Qed.

Section NameCase.

Context {U : unicode}.

Lemma rewrites_map_on (P : char -> Prop) (f : char -> char) pt repl pre t o :
  (forall pre' w t' mt,
     (forall c, In c w -> P c) ->
     try_at pt (pos_at pre' (w ++ t')) false = Some mt ->
     m_end mt = List.length pre' + List.length w ->
     map f w = map f repl) ->
  rewrites pt repl pre t o -> (forall c, In c t -> P c) -> map f o = map f t.
Proof.
  intros Hf. induction 1 as [pre|pre x t o E H IH|pre w t o mt E Hw He H IH]; intros HP; simpl.
  - reflexivity.
  - rewrite IH by (intros; apply HP; right; assumption). reflexivity.
  - rewrite !map_app, IH by (intros; apply HP; apply in_or_app; right; assumption).
    rewrite (Hf _ _ _ _ (fun c Hc => HP c (in_or_app _ _ _ (or_introl Hc))) E He).
    reflexivity.
Qed.

(** What a match of the letters of a name, each in either case, spans. *)
Lemma either_case_span fl name : forall p c p' c',
  matches fl (seq (map (fun c => Cls (either_case c)) name ++ [WordB])) p c p' c' ->
  exists w, rest p = w ++ rest p' /\
            Forall2 (fun c x => cls_match fl (either_case c) x = true) name w.
Proof.
  induction name as [|a name IH]; intros p c p' c' H.
  - simpl in H. inversion H; subst. exists []. split; [reflexivity|constructor].
  - cbn [map app] in H. rewrite seq_cons in H by (destruct name; discriminate).
    apply matches_seq_inv in H. destruct H as (p1 & c1 & H1 & H2).
    inversion H1; subst. apply IH in H2. destruct H2 as (w & Hr & Hw).
    match goal with Hx : rest p = ?x :: _ |- _ => exists (x :: w); rewrite Hx end.
    simpl in Hr. rewrite Hr. split; [reflexivity|]. constructor; assumption.
Qed.

Lemma name_pattern_span name pre w t mt :
  try_at (name_pattern name) (pos_at pre (w ++ t)) false = Some mt ->
  m_end mt = List.length pre + List.length w ->
  Forall2 (fun c x => cls_match (p_flags (name_pattern name)) (either_case c) x = true) name w.
Proof.
  intros E He. apply try_at_sound in E. destruct E as (p' & Hm & _ & He' & _).
  assert (Hl := matches_ahead Hm). destruct Hl as (w0 & (Hr0 & Hi0 & _) & _).
  unfold name_pattern in Hm. cbn [p_re p_flags compile] in Hm.
  rewrite seq_cons in Hm by (destruct name; discriminate).
  apply matches_seq_inv in Hm. destruct Hm as (p1 & c1 & H1 & H2).
  inversion H1; subst.
  apply (either_case_span name) in H2. destruct H2 as (w1 & Hr & Hw).
  simpl in Hr, Hr0, Hi0.
  assert (Hlen : List.length w1 = List.length w).
  { assert (E0 : w0 = w1).
    { rewrite Hr in Hr0. apply (f_equal (@List.length char)) in Hr0 as Hl.
      rewrite !length_app in Hl.
      apply app_inv_length in Hr0; [symmetry; tauto|lia]. }
    subst w0. lia. }
  apply app_inv_length in Hr; [|symmetry; exact Hlen]. destruct Hr as (-> & _). exact Hw.
Qed.

(** On ASCII characters a letter in either case matches nothing but this
    letter, in either case. *)
Lemma either_case_ascii name c x :
  In name character_names -> In c name -> is_ascii x = true ->
  cls_match {| IGNORECASE := true; MULTILINE := false; DOTALL := false |} (either_case c) x = true ->
  ascii_lower x = ascii_lower c.
Proof.
  intros Hn Hc Hx Hm.
  assert (Hall : forallb (fun name =>
            forallb (fun c =>
              forallb (fun x =>
                implb (cls_match {| IGNORECASE := true; MULTILINE := false; DOTALL := false |}
                         (either_case c) x)
                      (chr_eqb (ascii_lower x) (ascii_lower c))) ascii_chars) name)
            character_names = true) by (vm_compute; reflexivity).
  rewrite forallb_forall in Hall. specialize (Hall name Hn).
  rewrite forallb_forall in Hall. specialize (Hall c Hc).
  rewrite forallb_forall in Hall. specialize (Hall x (ascii_chars_all x Hx)).
  rewrite Hm in Hall. simpl in Hall. apply chr_eqb_eq. exact Hall.
Qed.

Lemma names_ascii name c : In name character_names -> In c name -> is_ascii c = true.
Proof.
  intros Hn Hc.
  assert (Hall : forallb (forallb is_ascii) character_names = true) by reflexivity.
  rewrite forallb_forall in Hall. specialize (Hall name Hn).
  rewrite forallb_forall in Hall. exact (Hall c Hc).
Qed.

Lemma either_case_lower name cs w :
  In name character_names ->
  (forall c, In c cs -> In c name) ->
  (forall x, In x w -> is_ascii x = true) ->
  Forall2 (fun c x =>
             cls_match {| IGNORECASE := true; MULTILINE := false; DOTALL := false |}
               (either_case c) x = true) cs w ->
  map ascii_lower w = map ascii_lower cs.
Proof.
  intros Hname Hin Hw E. induction E as [|c x cs w Hcx E IHE]; [reflexivity|].
  simpl. rewrite IHE by (intros; (apply Hin || apply Hw); right; assumption).
  f_equal. eapply either_case_ascii; [exact Hname| | |exact Hcx].
  - apply Hin. left. reflexivity.
  - apply Hw. left. reflexivity.
Qed.

Lemma names_fold_case (names : list str) :
  (forall name, In name names -> In name character_names) ->
  forall text, forallb is_ascii text = true ->
  let text' := fold_left (fun text name => sub (name_pattern name) name text) names text in
  forallb is_ascii text' = true /\ map ascii_lower text' = map ascii_lower text.
Proof.
  induction names as [|name names IH]; intros Hn text Ht; cbn zeta; [auto|].
  cbn [fold_left].
  assert (Hname : In name character_names) by (apply Hn; left; reflexivity).
  assert (Hsub : forallb is_ascii (sub (name_pattern name) name text) = true).
  { apply forallb_forall. intros c Hc. apply sub_in in Hc. destruct Hc as [Hc|Hc].
    - eapply names_ascii; eassumption.
    - rewrite forallb_forall in Ht. auto. }
  destruct (IH (fun n Hin => Hn n (or_intror Hin)) _ Hsub) as (Ha & Hm).
  split; [exact Ha|]. rewrite Hm.
  apply (@rewrites_map_on (fun c => is_ascii c = true) ascii_lower
           (name_pattern name) name [] text).
  - intros pre' w t' mt Hw E He. apply name_pattern_span in E; [|exact He].
    apply (@either_case_lower name name w Hname); auto.
  - apply sub_rewrites.
    assert (Hall : forallb (fun name => 0 <? min_len (p_re (name_pattern name)))
                     character_names = true) by reflexivity.
    rewrite forallb_forall in Hall. apply Nat.ltb_lt. apply Hall. exact Hname.
  - rewrite forallb_forall in Ht. exact Ht.
Qed.

(** X19. On ASCII text normalize_character_names changes nothing but the case of
    letters: its output is ASCII text and has the same lower-case form as its
    input. *)
Theorem normalize_changes_case_only text :
  forallb is_ascii text = true ->
  forallb is_ascii (normalize_character_names text) = true /\
  lower (normalize_character_names text) = lower text.
Proof.
  intros Ht.
  destruct (@names_fold_case character_names (fun _ H => H) text Ht) as (Ha & Hm).
  fold (normalize_character_names text) in Ha, Hm.
  split; [exact Ha|]. rewrite !lower_ascii by assumption. exact Hm.
Qed.

End NameCase.

(** X19, witness: [hOuSe and Wilson]. *)
Lemma normalize_changes_case_only_witness :
  forallb is_ascii (@normalize_character_names plain_unicode (u "hOuSe and Wilson")) = true /\
  @lower plain_unicode (@normalize_character_names plain_unicode (u "hOuSe and Wilson")) =
  @lower plain_unicode (u "hOuSe and Wilson").
Proof.
  apply (@normalize_changes_case_only plain_unicode (u "hOuSe and Wilson")). reflexivity.
Defined.

(** * A line of House *)

Lemma neq_chr_eqb (a b : char) : a <> b -> chr_eqb a b = false.
Proof.
  intros H. destruct (chr_eqb a b) eqn:E; [apply chr_eqb_eq in E; contradiction|reflexivity].
Qed.

Lemma last_cons (x : char) w pv :
  match rev (x :: w) with y :: _ => Some y | [] => pv end =
  match rev w with y :: _ => Some y | [] => Some x end.
Proof. simpl. destruct (rev w); reflexivity. Qed.

Lemma last_not_newline (w : str) y0 :
  ~ In NL w -> y0 <> NL ->
  exists y, match rev w with x :: _ => Some x | [] => Some y0 end = Some y /\ y <> NL.
Proof.
  intros Hw Hy. destruct (rev w) as [|x rw] eqn:E; [eauto|].
  exists x. split; [reflexivity|]. intros ->. apply Hw. apply in_rev. rewrite E. left. reflexivity.
Qed.

Section HouseLine.

Context {U : unicode}.

(** ** The matcher, step by step *)

(** The lazy repetition goes on as long as what follows it fails. *)
Lemma rep_lazy_through (t : char -> bool) (k : pos -> option result) w : forall pv i s,
  forallb t w = true ->
  (forall w1 x w2, w = w1 ++ x :: w2 ->
     k {| prev := match rev w1 with y :: _ => Some y | [] => pv end;
          idx := i + List.length w1; rest := x :: w2 ++ s |} = None) ->
  rep_lazy t 0 pv i (w ++ s) k =
  rep_lazy t 0 (match rev w with y :: _ => Some y | [] => pv end) (i + List.length w) s k.
Proof.
  induction w as [|x w IH]; intros pv i s Ht Hk.
  - simpl. rewrite Nat.add_0_r. reflexivity.
  - simpl in Ht. apply andb_prop in Ht. destruct Ht as (Hx & Ht).
    cbn [app rep_lazy Nat.eqb].
    assert (H0 := Hk [] x w eq_refl). simpl in H0. rewrite Nat.add_0_r in H0.
    rewrite H0, Hx. cbn [pred].
    rewrite IH; [|exact Ht|].
    + rewrite last_cons. cbn [List.length]. rewrite Nat.add_succ_r. reflexivity.
    + intros w1 y w2 E. specialize (Hk (x :: w1) y w2). rewrite last_cons in Hk.
      cbn [List.length] in Hk. rewrite Nat.add_succ_r in Hk. apply Hk. rewrite E. reflexivity.
Qed.

Lemma chr_match_newline x : chr_match house_flags NL x = chr_eqb NL x.
Proof. reflexivity. Qed.

Lemma chr_match_paren x : chr_match house_flags (ch "(") x = chr_eqb (ch "(") x.
Proof. reflexivity. Qed.

(** Inside a line the look-ahead fails. *)
Lemma next_speaker_fails y x t i c (k : pos -> caps -> option result) :
  y <> NL -> x <> NL ->
  m house_flags next_speaker {| prev := Some y; idx := i; rest := x :: t |} c k = None.
Proof.
  intros Hy Hx. unfold next_speaker. cbn [seq].
  change (m house_flags (Seq line_start ?r) ?p c k)
    with (m house_flags line_start p c (fun p' c' => m house_flags r p' c' k)).
  set (k1 := fun p' c' => m house_flags _ p' c' k).
  unfold line_start. cbn [m at_bol prev one rest house_flags MULTILINE andb].
  rewrite (neq_chr_eqb Hy), chr_match_newline, (neq_chr_eqb (fun E => Hx (eq_sym E))).
  reflexivity.
Qed.

(** Before the newline that ends the text it succeeds. *)
Lemma next_speaker_last_line y i c :
  y <> NL ->
  exists q, m house_flags next_speaker {| prev := Some y; idx := i; rest := [NL] |} c
              (fun p' c' => Some (p', c')) = Some (q, c).
Proof.
  intros Hy. unfold next_speaker. cbn [seq].
  change (m house_flags (Seq line_start ?r) ?p c ?k)
    with (m house_flags line_start p c (fun p' c' => m house_flags r p' c' k)).
  unfold line_start. cbn [m at_bol prev one rest house_flags MULTILINE andb].
  rewrite (neq_chr_eqb Hy), chr_match_newline, chr_eqb_refl.
  eexists. reflexivity.
Qed.

Section Line.

Variable b0 : char.
Variable body' : str.
Hypothesis no_space : is_space b0 = false.
Hypothesis no_paren : b0 <> ch "(".
Hypothesis one_line : ~ In NL (b0 :: body').

(** What follows the match, and what it gives at the end of the line. *)
Variable k : pos -> caps -> option result.
Variable x : result.
Hypothesis at_line_end :
  k {| prev := match rev (b0 :: body') with y :: _ => Some y | [] => Some (ch " ") end;
       idx := 7 + List.length (b0 :: body'); rest := [NL] |}
    [Some (7, 7 + List.length (b0 :: body'))] = Some x.

(** The group takes the line, and no more. *)
Lemma house_line_group :
  m house_flags (Seq (Grp 1 (star_lazy CAny)) (Ahead next_speaker))
    {| prev := Some (ch " "); idx := 7; rest := (b0 :: body') ++ [NL] |} [None] k = Some x.
Proof.
  change (m house_flags (Seq (Grp 1 (star_lazy CAny)) (Ahead next_speaker)) ?p [None] k)
    with (rep_lazy (cls_match house_flags CAny) 0 (prev p) (idx p) (rest p)
            (fun p' => m house_flags (Ahead next_speaker) p' (set_cap 1 (idx p, idx p') [None]) k)).
  cbn [prev idx rest]. rewrite rep_lazy_through.
  - cbn [rep_lazy Nat.eqb].
    destruct (@last_not_newline (b0 :: body') (ch " ") one_line ltac:(discriminate))
      as (y & Ey & Hy).
    change (m house_flags (Ahead next_speaker) ?p ?c k)
      with (match m house_flags next_speaker p c (fun p' c' => Some (p', c')) with
            | Some (_, c') => k p c'
            | None => None
            end).
    rewrite Ey in *.
    destruct (@next_speaker_last_line y (7 + List.length (b0 :: body'))
                (set_cap 1 (7, 7 + List.length (b0 :: body')) [None]) Hy) as (q & Eq).
    cbn [idx]. rewrite Eq. cbn [set_cap set_nth]. rewrite at_line_end. reflexivity.
  - apply forallb_forall. intros c _. reflexivity.
  - intros w1 c w2 E.
    change (m house_flags (Ahead next_speaker) ?p ?d k)
      with (match m house_flags next_speaker p d (fun p' c' => Some (p', c')) with
            | Some (_, c') => k p c'
            | None => None
            end).
    destruct (@last_not_newline w1 (ch " ")) as (y & Ey & Hy).
    + intros Hin. apply one_line. rewrite E. apply in_or_app. left. exact Hin.
    + discriminate.
    + rewrite Ey. rewrite next_speaker_fails; [reflexivity|exact Hy|].
      intros ->. apply one_line. rewrite E. apply in_or_app. right. left. reflexivity.
Qed.

(** The first way [house_pattern] matches at the start of the line: the
    label with its colon, no stage direction, the white space, and the line
    as group 1. *)
Lemma house_line_first :
  m house_flags (p_re house_pattern)
    {| prev := None; idx := 0; rest := HOUSE_LABEL ++ (b0 :: body') ++ [NL] |} [None] k = Some x.
Proof.
  assert (S7 := house_line_group).
  set (R7 := Seq (Grp 1 (star_lazy CAny)) (Ahead next_speaker)) in S7.
  (* the white space before the dialogue *)
  assert (S6 : m house_flags (Seq (star CSpace) R7)
                 {| prev := Some (ch ":"); idx := 6; rest := ch " " :: (b0 :: body') ++ [NL] |}
                 [None] k = Some x).
  { change (m house_flags (Seq (star CSpace) R7) ?p [None] k)
      with (rep_greedy (cls_match house_flags CSpace) 0 (prev p) (idx p) (rest p)
              (fun p' => m house_flags R7 p' [None] k)).
    remember (fun p' => m house_flags R7 p' [None] k) as k7 eqn:Ek.
    cbn [prev idx rest app rep_greedy cls_match Nat.eqb pred].
    rewrite no_space. change (is_space (ch " ")) with true. cbn iota.
    change (b0 :: body' ++ [NL]) with ((b0 :: body') ++ [NL]).
    rewrite Ek. rewrite S7. reflexivity. }
  set (R6 := Seq (star CSpace) R7) in S6.
  (* no stage direction *)
  assert (S5 : m house_flags
                 (Seq (Opt (seq [star CSpace; Chr (ch "("); star not_rparen; Chr (ch ")")])) R6)
                 {| prev := Some (ch ":"); idx := 6; rest := ch " " :: (b0 :: body') ++ [NL] |}
                 [None] k = Some x).
  { cbn [seq].
    change (m house_flags (Seq (Opt (Seq (star CSpace) ?r)) R6) ?p [None] k)
      with (match rep_greedy (cls_match house_flags CSpace) 0 (prev p) (idx p) (rest p)
                    (fun p' => m house_flags r p' [None]
                                 (fun p'' c'' => m house_flags R6 p'' c'' k)) with
            | Some res => Some res
            | None => m house_flags R6 p [None] k
            end).
    rewrite S6.
    match goal with |- context [rep_greedy ?t 0 ?a ?b ?c ?k'] =>
      replace (rep_greedy t 0 a b c k') with (@None result); [reflexivity|] end.
    cbn [prev idx rest app rep_greedy cls_match Nat.eqb pred].
    rewrite no_space. change (is_space (ch " ")) with true. cbn iota.
    change (m house_flags (Seq (Chr (ch "(")) ?r) ?p ?c ?k')
      with (one (chr_match house_flags (ch "(")) p (fun p' => m house_flags r p' c k')).
    cbn [one rest]. rewrite !chr_match_paren.
    rewrite (neq_chr_eqb (fun E => no_paren (eq_sym E))). reflexivity. }
  set (R5 := Seq (Opt _) R6) in S5.
  (* the colon *)
  assert (S4 : m house_flags
                 (Seq (Opt (Alt (Seq (star CSpace) (Chr (ch ":"))) (Chr (ch ".")))) R5)
                 {| prev := Some (ch "E"); idx := 5;
                    rest := ch ":" :: ch " " :: (b0 :: body') ++ [NL] |}
                 [None] k = Some x).
  { change (m house_flags (Seq (Opt (Alt (Seq (star CSpace) (Chr (ch ":"))) ?b)) R5) ?p [None] k)
      with (match
              match rep_greedy (cls_match house_flags CSpace) 0 (prev p) (idx p) (rest p)
                      (fun p' => one (chr_match house_flags (ch ":")) p'
                                   (fun p'' => m house_flags R5 p'' [None] k)) with
              | Some res => Some res
              | None => m house_flags b p [None] (fun p'' c'' => m house_flags R5 p'' c'' k)
              end
            with
            | Some res => Some res
            | None => m house_flags R5 p [None] k
            end).
    cbn [prev idx rest rep_greedy cls_match Nat.eqb pred one].
    change (is_space (ch ":")) with false. cbn iota.
    change (chr_match house_flags (ch ":") (ch ":")) with true. cbn iota.
    change (S 5) with 6. rewrite S5. reflexivity. }
  set (R4 := Seq (Opt _) R5) in S4.
  (* the label *)
  change (m house_flags line_start
            {| prev := None; idx := 0; rest := HOUSE_LABEL ++ (b0 :: body') ++ [NL] |} [None]
            (fun p1 c1 => m house_flags (star CSpace) p1 c1
               (fun p2 c2 => m house_flags (Alt (lit (u "HOUSE")) (lit (u "HoUse"))) p2 c2
                  (fun p' c' => m house_flags R4 p' c' k))) = Some x).
  remember (fun p' c' => m house_flags R4 p' c' k) as k4 eqn:Ek.
  assert (E5 : k4 {| prev := Some (ch "E"); idx := 5;
                     rest := ch ":" :: ch " " :: (b0 :: body') ++ [NL] |} [None]
               = Some x) by (rewrite Ek; exact S4).
  clear Ek S4 S5 S6 S7 at_line_end.
  cbn. cbn in E5. rewrite E5. reflexivity.
Qed.

End Line.

(** ** The search *)

(** In a text shorter than any match nothing is found. *)
Lemma scan_short pt t : forall pre,
  List.length t < min_len (p_re pt) ->
  scan pt (hd_error (rev pre)) (List.length pre) t 0 = map TChar t.
Proof.
  induction t as [|c t IH]; intros pre Hl.
  - cbn [scan]. rewrite here_nonempty by lia.
    change {| prev := hd_error (rev pre); idx := List.length pre; rest := [] |}
      with (pos_at pre []).
    destruct (try_at pt (pos_at pre []) false) as [mt|] eqn:E; [|reflexivity].
    apply try_at_span in E. destruct E as (w & t' & Ht & _ & Hw).
    apply (f_equal (@List.length char)) in Ht. rewrite length_app in Ht. simpl in *. lia.
  - cbn [scan]. rewrite here_nonempty by lia.
    change {| prev := hd_error (rev pre); idx := List.length pre; rest := c :: t |}
      with (pos_at pre (c :: t)).
    destruct (try_at pt (pos_at pre (c :: t)) false) as [mt|] eqn:E.
    + apply try_at_span in E. destruct E as (w & t' & Ht & _ & Hw).
      apply (f_equal (@List.length char)) in Ht. rewrite length_app in Ht. simpl in *. lia.
    + cbn [map app]. rewrite scan_snoc, IH by (simpl in Hl; lia). reflexivity.
Qed.

Lemma house_line_tokens b0 body' :
  is_space b0 = false -> b0 <> ch "(" -> ~ In NL (b0 :: body') ->
  tokens house_pattern (HOUSE_LABEL ++ (b0 :: body') ++ [NL]) =
  [ TMatch {| m_start := 0; m_end := 7 + List.length (b0 :: body');
              m_caps := [Some (7, 7 + List.length (b0 :: body'))] |};
    TChar NL ].
Proof.
  intros Hs Hp Hn. set (body := b0 :: body') in *.
  assert (Htry : try_at house_pattern
                   {| prev := None; idx := 0; rest := HOUSE_LABEL ++ body ++ [NL] |} false =
                 Some {| m_start := 0; m_end := 7 + List.length body;
                         m_caps := [Some (7, 7 + List.length body)] |}).
  { unfold try_at. change (repeat None (ngroups (p_re house_pattern))) with [@None (nat * nat)].
    change (p_flags house_pattern) with house_flags.
    rewrite (@house_line_first b0 body' Hs Hp Hn _
               ({| prev := match rev body with y :: _ => Some y | [] => Some (ch " ") end;
                   idx := 7 + List.length body; rest := [NL] |},
                [Some (7, 7 + List.length body)]) eq_refl).
    reflexivity. }
  unfold tokens.
  change (HOUSE_LABEL ++ body ++ [NL]) with (ch "H" :: u "OUSE: " ++ body ++ [NL]).
  cbn [scan]. rewrite here_nonempty by (simpl; lia).
  change (ch "H" :: u "OUSE: " ++ body ++ [NL]) with (HOUSE_LABEL ++ body ++ [NL]).
  rewrite Htry. cbn [m_end idx map app].
  replace (7 + List.length body - 0 - 1) with (List.length (u "OUSE: " ++ body))
    by (rewrite length_app; simpl; lia).
  rewrite (app_assoc (u "OUSE: ") body [NL]).
  rewrite (@scan_snoc _ house_pattern [] (ch "H")).
  rewrite scan_skip by (rewrite !length_app; simpl; lia).
  rewrite firstn_app, Nat.sub_diag, firstn_all, firstn_O, app_nil_r.
  rewrite skipn_app, Nat.sub_diag, skipn_all. cbn [skipn app].
  rewrite scan_short by (simpl; lia). reflexivity.
Qed.

Lemma slice_middle (a b c : str) :
  slice (a ++ b ++ c) (List.length a) (List.length a + List.length b) = b.
Proof.
  unfold slice. rewrite skipn_app, skipn_all, Nat.sub_diag. cbn [skipn app].
  replace (List.length a + List.length b - List.length a) with (List.length b) by lia.
  rewrite firstn_app, firstn_all, Nat.sub_diag, firstn_O, app_nil_r. reflexivity.
Qed.

(** ** Text without fences, bullets and blank lines *)

Lemma no_backtick_no_fence s : ~ In (ch "`") s -> sub fence [] s = s.
Proof.
  intros H. apply sub_no_match. apply never_matches_without with (w := FENCE).
  - intros p adv mt. apply fence_some.
  - destruct (occurs FENCE s) eqn:E; [|reflexivity].
    apply occurs_iff in E. destruct E as (pre & t & ->).
    exfalso. apply H. apply in_or_app. right. left. reflexivity.
Qed.

Lemma bullet_char_mem fl c :
  IGNORECASE fl = false -> cls_match fl bullet_char c = true -> In c [BULLET; ch "*"; ch "-"].
Proof.
  intros Hf. unfold cls_match, bullet_char. rewrite Hf. cbn [andb existsb item_mem xorb].
  intros H. apply orb_prop in H. destruct H as [H|H]; [apply chr_eqb_eq in H; subst; cbn; tauto|].
  apply orb_prop in H. destruct H as [H|H]; [apply chr_eqb_eq in H; subst; cbn; tauto|].
  apply orb_prop in H. destruct H as [H|H]; [apply chr_eqb_eq in H; subst; cbn; tauto|discriminate].
Qed.

Lemma bullet_pattern_some p adv mt :
  try_at bullet_pattern p adv = Some mt ->
  exists c, In c (rest p) /\ In c [BULLET; ch "*"; ch "-"].
Proof.
  intros H. apply try_at_sound in H. destruct H as (p' & H & _).
  cbn [bullet_pattern p_re compile seq] in H.
  apply matches_seq_inv in H. destruct H as (p1 & c1 & H1 & H).
  apply matches_seq_inv in H. destruct H as (p2 & c2 & H2 & H).
  apply matches_seq_inv in H. destruct H as (p3 & c3 & H3 & _).
  apply matches_ahead in H1. destruct H1 as (w1 & (R1 & _) & _).
  apply matches_ahead in H2. destruct H2 as (w2 & (R2 & _) & _).
  inversion H3; subst.
  match goal with Hx : rest p2 = ?c :: _, Hc : cls_match _ bullet_char ?c = true |- _ =>
    exists c; split;
    [rewrite R1, R2, Hx; apply in_or_app; right; apply in_or_app; right; left; reflexivity|];
    apply bullet_char_mem in Hc; [exact Hc|reflexivity]
  end.
Qed.

Lemma bullet_marker_some p adv mt :
  try_at bullet_marker p adv = Some mt ->
  exists c, In c (rest p) /\ In c [BULLET; ch "*"; ch "-"].
Proof.
  intros H. apply try_at_sound in H. destruct H as (p' & H & _).
  cbn [bullet_marker p_re compile seq] in H.
  apply matches_seq_inv in H. destruct H as (p1 & c1 & H1 & H).
  apply matches_seq_inv in H. destruct H as (p2 & c2 & H2 & H).
  apply matches_seq_inv in H. destruct H as (p3 & c3 & H3 & _).
  apply matches_ahead in H1. destruct H1 as (w1 & (R1 & _) & _).
  apply matches_ahead in H2. destruct H2 as (w2 & (R2 & _) & _).
  inversion H3; subst.
  match goal with Hx : rest p2 = ?c :: _, Hc : cls_match _ bullet_char ?c = true |- _ =>
    exists c; split;
    [rewrite R1, R2, Hx; apply in_or_app; right; apply in_or_app; right; left; reflexivity|];
    apply bullet_char_mem in Hc; [exact Hc|reflexivity]
  end.
Qed.

Lemma no_bullets_never pt s :
  (forall p adv mt, try_at pt p adv = Some mt ->
     exists c, In c (rest p) /\ In c [BULLET; ch "*"; ch "-"]) ->
  (forall c, In c s -> ~ In c [BULLET; ch "*"; ch "-"]) ->
  never_matches pt s.
Proof.
  intros Hsome Hs pre t ->.
  destruct (try_at pt (pos_at pre t) false) as [mt|] eqn:E; [|reflexivity].
  apply Hsome in E. destruct E as (c & Hc & Hb). exfalso.
  apply (Hs c); [apply in_or_app; right; exact Hc|exact Hb].
Qed.

Lemma blank_line_some p adv mt : try_at blank_line p adv = Some mt -> In NL (rest p).
Proof.
  intros H. apply try_at_sound in H. destruct H as (p' & H & _).
  cbn [blank_line p_re compile seq] in H.
  apply matches_seq_inv in H. destruct H as (p1 & c1 & H1 & _).
  inversion H1; subst.
  match goal with Hx : rest p = ?c :: _, Hc : chr_match _ NL ?c = true |- _ =>
    rewrite Hx; change (chr_eqb NL c = true) in Hc; apply chr_eqb_eq in Hc; subst c
  end.
  left. reflexivity.
Qed.

Lemma one_line_one_paragraph s : ~ In NL s -> split blank_line s = [s].
Proof.
  intros H. apply split_no_match. intros pre t ->.
  destruct (try_at blank_line (pos_at pre t) false) as [mt|] eqn:E; [|reflexivity].
  apply blank_line_some in E. exfalso. apply H. apply in_or_app. right. exact E.
Qed.

Lemma strip_blank_sides s : exists pre post, s = pre ++ strip s ++ post /\ blank pre = true /\ blank post = true.
Proof.
  assert (Hl : forall t, exists pre, t = pre ++ lstrip t /\ blank pre = true).
  { induction t as [|c t IH]; [exists []; auto|].
    simpl. destruct (is_space c) eqn:E.
    - destruct IH as (pre & Ht & Hb). exists (c :: pre). simpl. rewrite E, Hb, <- Ht. auto.
    - exists []. auto. }
  destruct (Hl s) as (pre & Hs & Hpre).
  destruct (Hl (rev (lstrip s))) as (q & Hr & Hq).
  exists pre, (rev q). unfold strip, rstrip. repeat split.
  - rewrite Hs at 1. f_equal.
    rewrite <- rev_app_distr, <- Hr, rev_involutive. reflexivity.
  - exact Hpre.
  - unfold blank in *. rewrite forallb_forall in *. intros c Hc. apply Hq. apply in_rev. exact Hc.
Qed.

Lemma contains_leetspeak_strip s : contains_leetspeak (strip s) = contains_leetspeak s.
Proof.
  rewrite !contains_leetspeak_existsb.
  destruct (strip_blank_sides s) as (pre & post & Hs & Hpre & Hpost).
  rewrite Hs at 2. rewrite !existsb_app.
  assert (Hb : forall t, blank t = true -> existsb is_leet_char t = false).
  { intros t Ht. destruct (existsb is_leet_char t) eqn:E; [|reflexivity].
    apply existsb_exists in E. destruct E as (c & Hc & Hl).
    assert (Hsp := @blank_in t c Ht Hc).
    unfold is_leet_char, is_digit, is_space, chr_eqb, ch in *. cbn in Hl, Hsp.
    exfalso. revert Hl Hsp. bool_lia. }
  rewrite (Hb pre Hpre), (Hb post Hpost), orb_false_r. reflexivity.
Qed.

(** The label is no white space and breaks no line. *)
Lemma house_label_plain :
  (forall c, In c HOUSE_LABEL -> ~ In c LINE_BREAKERS) /\
  (forall t, negb (nonempty (HOUSE_LABEL ++ t)) ||
             (List.length (strip (HOUSE_LABEL ++ t)) =? 0) = false).
Proof.
  split.
  - intros c Hc. cbn in Hc. members Hc ltac:(fun E => rewrite <- E; cbn; intuition discriminate).
  - intros t. apply orb_false_iff. split; [reflexivity|].
    apply Nat.eqb_neq. intros Hl. apply length_zero_iff_nil in Hl.
    apply strip_nil_blank in Hl. discriminate Hl.
Qed.

(** One line of House that a newline ends. *)
Lemma house_line_with_newline b0 body' :
  is_space b0 = false -> b0 <> ch "(" ->
  (forall c, In c (b0 :: body') -> ~ In c LINE_BREAKERS) ->
  contains_leetspeak (b0 :: body') = true ->
  extract_leetspeak (HOUSE_LABEL ++ (b0 :: body') ++ [NL]) = Ret (strip (b0 :: body')).
Proof.
  intros Hs Hp Hfree Hleet.
  assert (Hn : ~ In NL (b0 :: body')) by (intros H; apply (Hfree _ H); cbn; tauto).
  destruct house_label_plain as (Hlabel & Hguard).
  unfold extract_leetspeak. rewrite Hguard.
  rewrite no_backtick_no_fence.
  2:{ intros H. apply in_app_or in H. destruct H as [H|H]; [apply (Hlabel _ H); cbn; tauto|].
      apply in_app_or in H. destruct H as [H|[H|[]]]; [apply (Hfree _ H); cbn; tauto|discriminate]. }
  unfold house_segments, finditer. rewrite house_line_tokens by assumption.
  cbn [matches_of for_each group m_caps nth_error bind].
  assert (Hslice : slice (HOUSE_LABEL ++ (b0 :: body') ++ [NL]) 7
                     (7 + List.length (b0 :: body')) = b0 :: body')
    by apply (slice_middle HOUSE_LABEL (b0 :: body') [NL]).
  rewrite !Hslice.
  rewrite contains_leetspeak_strip, Hleet.
  assert (Hne : nonempty (strip (b0 :: body')) = true).
  { destruct (strip (b0 :: body')) eqn:E; [|reflexivity].
    rewrite <- contains_leetspeak_strip, E in Hleet. discriminate Hleet. }
  rewrite Hne. cbn [andb app join bind].
  unfold findall1. rewrite finditer_no_match; [reflexivity|].
  apply no_bullets_never; [apply bullet_pattern_some|].
  intros c Hc Hb. apply strip_in in Hc. apply (Hfree c Hc). cbn in *. tauto.
Qed.

(** X20. A response that is one line of House, [HOUSE: ] and a text that starts
    with a character other than white space and the opening parenthesis, holds a
    digit or an underscore, and holds no newline, backtick or bullet character:
    when a newline ends the response, extract_leetspeak returns the text,
    trimmed; when none does, the speaker pattern does not match and it returns
    the whole response, label included. *)
Theorem house_line_extracted b0 body' :
  let body := b0 :: body' in
  is_space b0 = false -> b0 <> ch "(" ->
  (forall c, In c body -> ~ In c LINE_BREAKERS) ->
  contains_leetspeak body = true ->
  extract_leetspeak (HOUSE_LABEL ++ body ++ [NL]) = Ret (strip body) /\
  extract_leetspeak (HOUSE_LABEL ++ body) = Ret (HOUSE_LABEL ++ body).
Proof.
  cbn zeta. intros Hs Hp Hfree Hleet.
  destruct house_label_plain as (Hlabel & Hguard).
  split; [apply house_line_with_newline; assumption|].
  assert (Hline : forall c, In c (HOUSE_LABEL ++ (b0 :: body')) -> ~ In c LINE_BREAKERS).
  { intros c Hc. apply in_app_or in Hc. destruct Hc; auto. }
  unfold extract_leetspeak. rewrite Hguard.
  rewrite no_backtick_no_fence by (intros H; apply (Hline _ H); cbn; tauto).
  unfold house_segments.
  assert (Hnone : finditer house_pattern (HOUSE_LABEL ++ (b0 :: body')) = []).
  { destruct (finditer house_pattern (HOUSE_LABEL ++ (b0 :: body'))) as [|mt l] eqn:E; [reflexivity|].
    exfalso.
    destruct (@finditer_in _ house_pattern (HOUSE_LABEL ++ (b0 :: body')) mt) as (pre & t & adv & Ht & Hm).
    - rewrite E. left. reflexivity.
    - apply house_pattern_newline in Hm. cbn [pos_at rest] in Hm.
      apply (Hline NL); [rewrite Ht; apply in_or_app; right; exact Hm|cbn; tauto]. }
  rewrite Hnone. cbn [for_each bind].
  assert (Hb : forall c, In c [BULLET; ch "*"; ch "-"] ->
               has_char c (HOUSE_LABEL ++ (b0 :: body')) = false).
  { intros c Hc. apply has_char_not_in. intros Hin. apply (Hline c Hin). cbn in *. tauto. }
  rewrite !Hb by (cbn; tauto). cbn [orb bind].
  unfold code_blocks_or_later.
  replace (findall1 code_block (HOUSE_LABEL ++ (b0 :: body'))) with (@nil str).
  2:{ symmetry. apply code_block_unreachable.
      destruct (occurs FENCE (HOUSE_LABEL ++ (b0 :: body'))) eqn:E; [|reflexivity].
      apply occurs_iff in E. destruct E as (pre & t & E). exfalso.
      apply (Hline (ch "`")); [rewrite E; apply in_or_app; right; left; reflexivity|cbn; tauto]. }
  unfold leet_paragraphs_or_all.
  rewrite one_line_one_paragraph by (intros H; apply (Hline _ H); cbn; tauto).
  cbn [filter].
  assert (Hc : contains_leetspeak (HOUSE_LABEL ++ (b0 :: body')) = true).
  { rewrite contains_leetspeak_existsb, existsb_app.
    rewrite contains_leetspeak_existsb in Hleet. rewrite Hleet. apply orb_true_r. }
  rewrite Hc. reflexivity.
Qed.

End HouseLine.

(** X20, witness: House answers in one line. *)
Lemma house_line_extracted_witness :
  @extract_leetspeak plain_unicode (HOUSE_LABEL ++ u "17 15 lupus. " ++ [NL]) =
  Ret (u "17 15 lupus.") /\
  @extract_leetspeak plain_unicode (HOUSE_LABEL ++ u "17 15 lupus. ") =
  Ret (HOUSE_LABEL ++ u "17 15 lupus. ").
Proof.
  apply (@house_line_extracted plain_unicode (ch "1") (u "7 15 lupus. ")).
  - reflexivity.
  - discriminate.
  - intros c Hc. cbn in Hc.
    members Hc ltac:(fun E => rewrite <- E; cbn; intuition discriminate).
  - reflexivity.
Defined.

(** * A reply of House, end to end *)

Section Members.

Context {U : unicode}.

(** A pattern whose matches all reach a character the text does not hold. *)
Lemma never_without_member pt (a : char) s :
  (forall p adv mt, try_at pt p adv = Some mt -> In a (rest p)) ->
  ~ In a s -> never_matches pt s.
Proof.
  intros Hsome Hs pre t ->.
  destruct (try_at pt (pos_at pre t) false) as [mt|] eqn:E; [|reflexivity].
  apply Hsome in E. exfalso. apply Hs. apply in_or_app. right. exact E.
Qed.

Lemma delimited_some a b p adv mt :
  try_at (compile no_flags (delimited a b)) p adv = Some mt -> In a (rest p).
Proof.
  intros H. apply try_at_sound in H. destruct H as (p' & H & _).
  cbn [p_flags p_re compile delimited seq] in H.
  apply matches_seq_inv in H. destruct H as (p1 & c1 & H1 & _).
  inversion H1; subst.
  match goal with Hx : rest p = ?x :: _, Hc : chr_match _ a ?x = true |- _ =>
    rewrite Hx; rewrite chr_match_sensitive in Hc by reflexivity;
    apply chr_eqb_eq in Hc; subst x
  end.
  left. reflexivity.
Qed.

Lemma newlines3_member p adv mt : try_at newlines3 p adv = Some mt -> In NL (rest p).
Proof.
  intros H. apply newlines3_some, starts_with_iff in H. destruct H as (t & ->).
  left. reflexivity.
Qed.

Lemma scene_marker_member p adv mt :
  try_at scene_marker p adv = Some mt -> In (ch "[") (rest p).
Proof.
  intros H. apply scene_marker_some in H.
  destruct H as [H|H]; apply starts_with_iff in H; destruct H as (t & ->); left; reflexivity.
Qed.

Lemma house_action_member p adv mt :
  try_at house_action p adv = Some mt -> In (ch "(") (rest p).
Proof.
  intros H. apply try_at_sound in H. destruct H as (p' & H & _).
  cbn [house_action p_flags p_re compile seq] in H.
  apply matches_seq_inv in H. destruct H as (p1 & c1 & H1 & H).
  apply matches_seq_inv in H. destruct H as (p2 & c2 & H2 & H).
  apply matches_seq_inv in H. destruct H as (p3 & c3 & H3 & _).
  apply matches_ahead in H1. destruct H1 as (w1 & (R1 & _) & _).
  apply matches_ahead in H2. destruct H2 as (w2 & (R2 & _) & _).
  inversion H3; subst.
  match goal with Hx : rest p2 = ?x :: _, Hc : chr_match _ _ ?x = true |- _ =>
    change (chr_eqb (ch "(") x = true) in Hc; apply chr_eqb_eq in Hc; subst x;
    rewrite R1, R2, Hx
  end.
  apply in_or_app. right. apply in_or_app. right. left. reflexivity.
Qed.

(** The label of [house_prefix] stands at the start of a line and begins with
    the letter h, in either case. *)
Lemma house_prefix_some p adv mt :
  try_at house_prefix p adv = Some mt ->
  (prev p = None \/ prev p = Some NL) /\
  exists x t, rest p = x :: t /\ tolower x = ch "h".
Proof.
  intros H. apply try_at_sound in H. destruct H as (p' & H & _).
  cbn [house_prefix p_flags p_re compile seq] in H.
  apply matches_seq_inv in H. destruct H as (p1 & c1 & H1 & H).
  apply matches_seq_inv in H. destruct H as (p2 & c2 & H2 & _).
  inversion H1; subst. split.
  - match goal with Hb : at_bol _ _ = true |- _ => unfold at_bol in Hb; cbn [MULTILINE andb] in Hb end.
    destruct (prev p1) as [y|]; [|left; reflexivity].
    match goal with Hb : chr_eqb _ _ = true |- _ => apply chr_eqb_eq in Hb; subst y end.
    right. reflexivity.
  - assert (Hone : forall w q e q' e',
              matches {| IGNORECASE := true; MULTILINE := true; DOTALL := false |}
                (Seq (Chr (ch "H")) w) q e q' e' ->
              exists x t, rest q = x :: t /\ tolower x = ch "h").
    { intros w q e q' e' Hm. apply matches_seq_inv in Hm. destruct Hm as (q1 & e1 & Hm & _).
      inversion Hm; subst.
      match goal with Hx : rest q = ?x :: ?t, Hc : chr_match _ _ ?x = true |- _ =>
        exists x, t; split; [exact Hx|];
        change (chr_eqb (tolower x) (ch "h") = true) in Hc; apply chr_eqb_eq in Hc; exact Hc
      end. }
    unfold house_label in H2. cbn [alt] in H2.
    apply matches_alt_inv in H2. destruct H2 as [H2|H2]; [eapply Hone; exact H2|].
    apply matches_alt_inv in H2. destruct H2 as [H2|H2]; eapply Hone; exact H2.
Qed.

End Members.

(** The keys of the extended table are no white space and no markup, and
    none is the letter h. *)
Lemma extended_keys_plain {U : unicode} a b :
  In (a, b) extended_pairs ->
  is_space a = false /\ ~ In a MARKUP /\ tolower a <> ch "h".
Proof.
  intros Hin. cbn in Hin.
  members Hin ltac:(fun E => inversion E; subst;
    split; [reflexivity|split; [cbn; intuition discriminate|discriminate]]).
Qed.

Section Reply.

Context {U : unicode}.
Variable table : dict.
Hypothesis agrees : agrees_with_extended table.

(** For a table whose entries the extended table undoes, the encoding is a
    substitution of characters, each by itself or by a key of the extended
    table that stands for it. *)
Lemma to_leetspeak_map s :
  lower s = s ->
  exists g, to_leetspeak table s = map g s /\
            forall c, g c = c \/ In (g c, c) extended_pairs.
Proof.
  intros Hl.
  exists (fun c => match dict_get table [c] with Some (a :: _) => a | _ => c end).
  split.
  - rewrite to_leetspeak_flat_map, Hl. clear Hl.
    induction s as [|c s IH]; [reflexivity|]. cbn [flat_map map]. rewrite IH.
    destruct (dict_get table [c]) as [v|] eqn:E; [|reflexivity].
    apply dict_get_in, (table_entry_pair agrees) in E.
    destruct E as (a & b & -> & _ & _). reflexivity.
  - intros c. destruct (dict_get table [c]) as [v|] eqn:E; [|left; reflexivity].
    apply dict_get_in, (table_entry_pair agrees) in E.
    destruct E as (a & b & -> & Eb & Hin). inversion Eb; subst b. right. exact Hin.
Qed.

Lemma rstrip_map (g : char -> char) s :
  (forall c, is_space c = false -> is_space (g c) = false) ->
  rstrip s = s -> rstrip (map g s) = map g s.
Proof.
  intros Hg Hs. apply rstrip_fixed_rev in Hs. unfold rstrip.
  rewrite <- map_rev.
  destruct (rev s) as [|y r] eqn:E.
  - apply (f_equal (@rev char)) in E. rewrite rev_involutive in E. subst s. reflexivity.
  - apply lstrip_fixed_head in Hs. cbn [map lstrip]. rewrite (Hg y Hs).
    change (g y :: map g r) with (map g (y :: r)). rewrite <- E, map_rev, rev_involutive.
    reflexivity.
Qed.

(** X21. A reply of one line of House, read back. For a table whose entries the
    extended table undoes and a text in lower case, trimmed, that does not
    begin with the letter h and holds no digit, no character of [REPLACED], no
    markup, no numeric-fix word and no name that normalize_character_names
    would rewrite: when the encoding of the text holds a digit or an
    underscore, process_response turns the response [HOUSE: ], the encoding,
    newline, into the text itself. *)
Theorem house_reply_decoded c0 s' :
  let s := c0 :: s' in
  lower s = s -> strip s = s -> tolower c0 <> ch "h" ->
  (forall c, In c s -> is_digit c = false /\ ~ In c REPLACED /\ ~ In c MARKUP) ->
  (forall w d, In (w, d) numeric_fixes -> word_occurs w s = false) ->
  normalize_character_names s = s ->
  contains_leetspeak (to_leetspeak table s) = true ->
  process_response table (HOUSE_LABEL ++ to_leetspeak table s ++ [NL]) = Ret s.
Proof.
  cbn zeta. intros Hl Hst Hh Hs Hw Hnorm Hleet.
  destruct (strip_fixed_sides Hst) as (Hls & Hrs).
  destruct (to_leetspeak_map Hl) as (g & He & Hg).
  assert (Hsp : forall c, is_space c = false -> is_space (g c) = false).
  { intros c Hc. destruct (Hg c) as [->|Hin]; [exact Hc|].
    apply extended_keys_plain in Hin. tauto. }
  assert (Hplain : forall x, In x (to_leetspeak table (c0 :: s')) -> ~ In x MARKUP).
  { intros x Hx. rewrite He in Hx. apply in_map_iff in Hx. destruct Hx as (c & <- & Hc).
    destruct (Hg c) as [->|Hin]; [apply Hs; exact Hc|].
    apply extended_keys_plain in Hin. tauto. }
  assert (Hstrip : strip (to_leetspeak table (c0 :: s')) = to_leetspeak table (c0 :: s')).
  { rewrite He. apply strip_of_sides.
    - cbn [map lstrip]. rewrite (Hsp c0 (lstrip_fixed_head Hls)). reflexivity.
    - apply rstrip_map; assumption. }
  assert (Hdec : from_leetspeak table (to_leetspeak table (c0 :: s')) = c0 :: s').
  { rewrite (from_leetspeak_agreeing agrees).
    assert (D := extended_pass_decodes agrees Hl (fun c Hc => conj (proj1 (Hs c Hc))
                                                     (proj1 (proj2 (Hs c Hc))))).
    rewrite He in *. cbn [map] in *. rewrite D. apply numeric_pass_absent. exact Hw. }
  assert (Hline : extract_leetspeak (HOUSE_LABEL ++ to_leetspeak table (c0 :: s') ++ [NL]) =
                  Ret (to_leetspeak table (c0 :: s'))).
  { rewrite <- Hstrip at 2. revert Hplain Hleet. rewrite He. cbn [map]. intros Hplain Hleet.
    apply house_line_with_newline.
    - apply Hsp. exact (lstrip_fixed_head Hls).
    - intros E. apply (Hplain (g c0)); [left; reflexivity|]. rewrite E. cbn. tauto.
    - intros c Hc Hb. apply (Hplain c Hc). unfold MARKUP. apply in_or_app. left. exact Hb.
    - exact Hleet. }
  assert (Hno : forall a, In a MARKUP -> ~ In a (to_leetspeak table (c0 :: s'))).
  { intros a Ha Hin. exact (Hplain a Hin Ha). }
  assert (Hnos : forall a, In a MARKUP -> ~ In a (c0 :: s')).
  { intros a Ha Hin. destruct (Hs a Hin) as (_ & _ & H). exact (H Ha). }
  unfold process_response. rewrite Hline. cbn [bind]. cbv zeta.
  rewrite (@sub_no_match _ house_action).
  2:{ apply never_without_member with (a := ch "("); [apply house_action_member|].
      apply Hno. cbn. tauto. }
  rewrite (@sub_no_match _ house_prefix).
  2:{ intros pre t Et.
      destruct (try_at house_prefix (pos_at pre t) false) as [mt|] eqn:E; [|reflexivity].
      exfalso. apply house_prefix_some in E. destruct E as (Hprev & x & t' & Hx & Htl).
      cbn [pos_at prev rest] in Hprev, Hx. subst t.
      destruct (rev pre) as [|y r] eqn:Er.
      - apply (f_equal (@rev char)) in Er. rewrite rev_involutive in Er. subst pre.
        cbn [rev app] in Et. rewrite He in Et. cbn [map] in Et. inversion Et; subst x.
        destruct (Hg c0) as [E0|Hin]; [rewrite E0 in Htl; exact (Hh Htl)|].
        apply extended_keys_plain in Hin. tauto.
      - cbn [hd_error] in Hprev. destruct Hprev as [Hp|Hp]; [discriminate|].
        inversion Hp; subst y.
        apply (Hno NL); [cbn; tauto|]. rewrite Et. apply in_or_app. left.
        apply in_rev. rewrite Er. left. reflexivity. }
  unfold clean_stage_directions. cbv zeta.
  rewrite (@sub_no_match _ parenthetical).
  2:{ apply never_without_member with (a := ch "(");
        [intros p adv mt; apply (@delimited_some _ (ch "(") (ch ")"))|].
      apply Hno. cbn. tauto. }
  rewrite (@sub_no_match _ bracketed).
  2:{ apply never_without_member with (a := ch "[");
        [intros p adv mt; apply (@delimited_some _ (ch "[") (ch "]"))|].
      apply Hno. cbn. tauto. }
  rewrite (@sub_no_match _ newlines3).
  2:{ apply never_without_member with (a := NL); [apply newlines3_member|].
      apply Hno. cbn. tauto. }
  rewrite Hdec. unfold post_decode. cbv zeta. rewrite Hnorm.
  rewrite no_backtick_no_fence by (apply Hnos; cbn; tauto).
  rewrite (@sub_no_match _ scene_marker).
  2:{ apply never_without_member with (a := ch "["); [apply scene_marker_member|].
      apply Hnos. cbn. tauto. }
  rewrite (@sub_no_match _ newlines3).
  2:{ apply never_without_member with (a := NL); [apply newlines3_member|].
      apply Hnos. cbn. tauto. }
  rewrite Hst. reflexivity.
Qed.

End Reply.

(** X21, witness: House answers [m337_7h3_g047] at the documented table. *)
Lemma house_reply_decoded_witness :
  @process_response plain_unicode documented_table
    (HOUSE_LABEL ++ @to_leetspeak plain_unicode documented_table (u "meet the goat") ++ [NL]) =
  Ret (u "meet the goat").
Proof.
  apply (@house_reply_decoded plain_unicode documented_table documented_table_agrees
           (ch "m") (u "eet the goat")).
  - reflexivity.
  - reflexivity.
  - discriminate.
  - intros c Hc. cbn in Hc.
    members Hc ltac:(fun E => rewrite <- E; split;
      [reflexivity|split; cbn; intuition discriminate]).
  - intros w d Hin. vm_compute in Hin. members Hin ltac:(fun E => inversion E; reflexivity).
  - vm_compute. reflexivity.
  - reflexivity.
Defined.

(** * Bullet lists *)

Section Scanning.

Context {U : unicode}.
Variable pt : pattern.

(** The scan runs over a stretch without matches. *)
Lemma scan_stretch w : forall pre R,
  (forall a x z, w = a ++ x :: z ->
     try_at pt (pos_at (pre ++ a) (x :: z ++ R)) false = None) ->
  scan pt (hd_error (rev pre)) (List.length pre) (w ++ R) 0 =
  map TChar w ++ scan pt (hd_error (rev (pre ++ w))) (List.length (pre ++ w)) R 0.
Proof.
  induction w as [|x w IH]; intros pre R Hno.
  - rewrite app_nil_r. reflexivity.
  - cbn [app scan]. unfold here. fold (pos_at pre (x :: w ++ R)).
    assert (E := Hno [] x w eq_refl). rewrite app_nil_r in E. rewrite E.
    cbn [map app]. rewrite scan_snoc, IH.
    + rewrite <- !app_assoc. reflexivity.
    + intros a y z ->. rewrite <- app_assoc. apply (Hno (x :: a) y z). reflexivity.
Qed.

(** The scan jumps over a match that is not empty. *)
Lemma scan_match pre t mt n :
  try_at pt (pos_at pre t) false = Some mt ->
  m_end mt = List.length pre + S n -> S n <= List.length t ->
  scan pt (hd_error (rev pre)) (List.length pre) t 0 =
  TMatch mt :: scan pt (hd_error (rev (pre ++ firstn (S n) t)))
                 (List.length (pre ++ firstn (S n) t)) (skipn (S n) t) 0.
Proof.
  intros E He Hn. destruct t as [|x t]; [simpl in Hn; lia|].
  cbn [scan]. unfold here. fold (pos_at pre (x :: t)). rewrite E.
  cbn [pos_at idx]. rewrite He.
  replace (List.length pre + S n =? List.length pre) with false
    by (symmetry; apply Nat.eqb_neq; lia).
  replace (List.length pre + S n - List.length pre) with (S n) by lia.
  cbn [map app firstn skipn]. f_equal.
  rewrite scan_snoc, scan_skip by (simpl in Hn; lia).
  rewrite <- app_assoc. reflexivity.
Qed.

End Scanning.

Lemma matches_of_app a b : matches_of (a ++ b) = matches_of a ++ matches_of b.
Proof.
  induction a as [|[c|mt] a IH]; cbn [app matches_of]; [reflexivity|exact IH|].
  rewrite IH. reflexivity.
Qed.

(** A run of white space before a character that is none begins where it
    begins, however it is cut. *)
Lemma blank_prefix_unique (a a' : str) x x' r r' :
  blank a = true -> blank a' = true -> is_space x = false -> is_space x' = false ->
  a ++ x :: r = a' ++ x' :: r' -> a = a' /\ x = x' /\ r = r'.
Proof.
  revert a'. induction a as [|y a IH]; intros [|y' a'] Ha Ha' Hx Hx' E; cbn in *.
  - inversion E. auto.
  - inversion E; subst. apply andb_prop in Ha'. destruct Ha' as (Hy & _). congruence.
  - inversion E; subst. apply andb_prop in Ha. destruct Ha as (Hy & _). congruence.
  - inversion E; subst. apply andb_prop in Ha. apply andb_prop in Ha'.
    destruct (IH a' (proj2 Ha) (proj2 Ha') Hx Hx' H1) as (-> & -> & ->). auto.
Qed.

Lemma bullet_marks_no_space b : In b BULLET_MARKS -> is_space b = false /\ b <> NL.
Proof.
  intros H. cbn in H. members H ltac:(fun E => rewrite <- E; split; [reflexivity|discriminate]).
Qed.

Section Markers.

Context {U : unicode}.

(** What a match of [bullet_marker] spans: the newline, unless the text starts
    here, white space, a mark and white space. *)
Lemma bullet_marker_shape p adv mt :
  try_at bullet_marker p adv = Some mt ->
  exists w0 ws x sp t,
    rest p = w0 ++ ws ++ x :: sp ++ t /\
    (w0 = [] /\ prev p = None \/ w0 = [NL]) /\
    blank ws = true /\ In x BULLET_MARKS /\ blank sp = true /\ sp <> [] /\
    m_start mt = idx p /\
    m_end mt = idx p + List.length w0 + List.length ws + 1 + List.length sp /\
    m_caps mt = [].
Proof.
  intros H. apply try_at_sound in H. destruct H as (p' & H & Hs & He & _).
  cbn [bullet_marker p_re p_flags compile seq] in H.
  assert (Hc := matches_no_group H eq_refl).
  apply matches_seq_inv in H. destruct H as (p1 & c1 & H1 & H).
  apply matches_seq_inv in H. destruct H as (p2 & c2 & H2 & H).
  apply matches_seq_inv in H. destruct H as (p3 & c3 & H3 & H4).
  apply matches_rep_inv in H2. destruct H2 as (n2 & _ & R2 & _).
  apply run_ahead in R2. destruct R2 as (ws & _ & Hws & (A2 & I2 & _)).
  apply matches_rep_inv in H4. destruct H4 as (n4 & L4 & R4 & _).
  apply run_ahead in R4. destruct R4 as (sp & Lsp & Hsp & (A4 & I4 & _)).
  assert (Hne : sp <> []) by (intros ->; simpl in Lsp; lia).
  assert (H3' : exists b, In b BULLET_MARKS /\ rest p2 = b :: rest p3 /\ idx p3 = S (idx p2)).
  { inversion H3; subst.
    match goal with Hx : rest p2 = ?x :: _, Hm : cls_match _ bullet_char ?x = true |- _ =>
      exists x; apply bullet_char_mem in Hm; [|reflexivity]; auto
    end. }
  destruct H3' as (b & Hb & A3 & I3).
  assert (H1' : exists w0, (w0 = [] /\ prev p = None \/ w0 = [NL]) /\
                           rest p = w0 ++ rest p1 /\ idx p1 = idx p + List.length w0).
  { unfold line_start in H1. apply matches_alt_inv in H1. destruct H1 as [H1|H1].
    - inversion H1; subst.
      match goal with Hb : at_bol _ _ = true |- _ =>
        unfold at_bol in Hb; cbn [MULTILINE no_flags andb] in Hb
      end.
      exists []. split; [left; split; [reflexivity|]|split; [reflexivity|simpl; lia]].
      destruct (prev p1); [discriminate|reflexivity].
    - inversion H1; subst.
      match goal with Hx : rest p = ?x :: _, Hm : chr_match _ NL ?x = true |- _ =>
        rewrite chr_match_sensitive in Hm by reflexivity; apply chr_eqb_eq in Hm; subst x;
        exists [NL]; split; [right; reflexivity|split; [exact Hx|simpl; lia]]
      end. }
  destruct H1' as (w0 & Hw0 & A1 & I1).
  exists w0, ws, b, sp, (rest p').
  split; [rewrite A1, A2, A3, A4; reflexivity|].
  repeat split; auto. lia.
Qed.

(** Where a mark, a space and a character that is no white space follow the
    start of a line, the marker matches, and spans them. *)
Lemma bullet_marker_at pre (w0 : str) b c t :
  (w0 = [] /\ pre = [] \/ w0 = [NL]) ->
  In b BULLET_MARKS -> is_space c = false ->
  try_at bullet_marker (pos_at pre (w0 ++ b :: ch " " :: c :: t)) false =
  Some {| m_start := List.length pre; m_end := List.length pre + List.length w0 + 2;
          m_caps := [] |}.
Proof.
  intros Hw0 Hb Hc.
  destruct (bullet_marks_no_space Hb) as (Hbs & Hbn).
  set (p := pos_at pre (w0 ++ b :: ch " " :: c :: t)).
  assert (Hsome : try_at bullet_marker p false <> None).
  { assert (Hline : exists p1, matches no_flags line_start p [] p1 [] /\
                               rest p1 = b :: ch " " :: c :: t).
    { destruct Hw0 as [[-> ->] | ->].
      - exists p. split; [|reflexivity]. apply M_AltL. apply M_Bol. reflexivity.
      - exists (step p NL (b :: ch " " :: c :: t)). split; [|reflexivity].
        apply M_AltR. apply M_Chr; [reflexivity|].
        rewrite chr_match_sensitive by reflexivity. apply chr_eqb_refl. }
    destruct Hline as (p1 & H1 & R1).
    eapply try_at_complete with (c := []) (c' := []).
    cbn [bullet_marker p_re p_flags compile seq].
    eapply M_Seq; [exact H1|].
    eapply M_Seq; [apply M_Rep with (n := 0); [lia|apply run_stop]|].
    eapply M_Seq; [apply M_Cls with (s' := ch " " :: c :: t); [exact R1|]|].
    { cbn in Hb. members Hb ltac:(fun E => rewrite <- E; reflexivity). }
    apply M_Rep with (n := 1); [lia|].
    eapply run_more; [reflexivity|reflexivity|apply run_stop]. }
  destruct (try_at bullet_marker p false) as [mt|] eqn:E; [clear Hsome|congruence].
  apply bullet_marker_shape in E.
  destruct E as (w0' & ws & x & sp & t' & Hr & Hw0' & Hws & Hx & Hsp & Hne & Hs & He & Hcaps).
  subst p. cbn [pos_at rest idx] in Hr, Hs, He.
  assert (Hblank : blank w0 = true /\ blank w0' = true).
  { split.
    - destruct Hw0 as [(-> & _) | ->]; reflexivity.
    - destruct Hw0' as [(-> & _) | ->]; reflexivity. }
  destruct Hblank as (B0 & B0').
  assert (Hcut : w0 ++ b :: ch " " :: c :: t = (w0' ++ ws) ++ x :: sp ++ t')
    by (rewrite Hr, <- app_assoc; reflexivity).
  apply blank_prefix_unique in Hcut; auto.
  2:{ unfold blank in *. rewrite forallb_app, B0', Hws. reflexivity. }
  2:{ apply bullet_marks_no_space, Hx. }
  destruct Hcut as (Hpre & _ & Hpost).
  assert (Hone : List.length sp = 1).
  { destruct sp as [|s1 [|s2 sp]]; [congruence|reflexivity|].
    exfalso. cbn [app] in Hpost. inversion Hpost; subst.
    unfold blank in Hsp. cbn [forallb] in Hsp.
    apply andb_prop in Hsp. destruct Hsp as (_ & Hsp).
    apply andb_prop in Hsp. destruct Hsp as (Hsp & _). congruence. }
  apply (f_equal (@List.length char)) in Hpre. rewrite length_app in Hpre.
  destruct mt as [ms me mc]. cbn in Hs, He, Hcaps. subst ms mc.
  replace me with (List.length pre + List.length w0 + 2) by lia. reflexivity.
Qed.

(** Inside a line no marker starts. *)
Lemma bullet_marker_inside pre x t :
  pre <> [] -> x <> NL -> try_at bullet_marker (pos_at pre (x :: t)) false = None.
Proof.
  intros Hpre Hx.
  destruct (try_at bullet_marker (pos_at pre (x :: t)) false) as [mt|] eqn:E; [|reflexivity].
  exfalso. apply bullet_marker_shape in E.
  destruct E as (w0 & ws & y & sp & t' & Hr & Hw0 & _).
  cbn [pos_at rest prev] in Hr, Hw0. destruct Hw0 as [(-> & Hp) | ->].
  - destruct (rev pre) as [|z r] eqn:Er; [|discriminate].
    apply (f_equal (@rev char)) in Er. rewrite rev_involutive in Er. exact (Hpre Er).
  - inversion Hr. congruence.
Qed.

(** In white space no marker starts. *)
Lemma bullet_marker_blank pre t :
  blank t = true -> try_at bullet_marker (pos_at pre t) false = None.
Proof.
  intros Ht.
  destruct (try_at bullet_marker (pos_at pre t) false) as [mt|] eqn:E; [|reflexivity].
  exfalso. apply bullet_marker_shape in E.
  destruct E as (w0 & ws & y & sp & t' & Hr & _ & _ & Hy & _).
  cbn [pos_at rest] in Hr.
  assert (Hin : In y t).
  { rewrite Hr. apply in_or_app. right. apply in_or_app. right. left. reflexivity. }
  apply (blank_in _ _ Ht) in Hin. apply bullet_marks_no_space in Hy. destruct Hy. congruence.
Qed.

End Markers.

Lemma join_cons2 (sep p q : str) r : join sep (p :: q :: r) = p ++ sep ++ join sep (q :: r).
Proof. reflexivity. Qed.

Lemma lstrip_blank_app a t : blank a = true -> lstrip (a ++ t) = lstrip t.
Proof.
  induction a as [|x a IH]; cbn [app lstrip]; [reflexivity|].
  intros H. apply andb_prop in H. destruct H as (Hx & Ha). rewrite Hx. apply IH, Ha.
Qed.

(** White space behind a trimmed text is trimmed away. *)
Lemma strip_blank_tail s tail :
  s <> [] -> strip s = s -> blank tail = true -> strip (s ++ tail) = s.
Proof.
  intros Hne Hs Ht. destruct (strip_fixed_sides Hs) as (Hl & Hr).
  unfold strip. rewrite lstrip_app by assumption.
  unfold rstrip. rewrite rev_app_distr, lstrip_blank_app.
  - exact Hr.
  - unfold blank in *. rewrite forallb_forall in *. intros x Hx. apply Ht, in_rev, Hx.
Qed.

Lemma bodies_between_cons2 text m1 m2 ms :
  bodies_between text (m1 :: m2 :: ms) =
  slice text (m_end m1) (m_start m2) :: bodies_between text (m2 :: ms).
Proof. reflexivity. Qed.

(** The bodies of the bullets are the texts between the markers. *)
Lemma bodies_between_enumerate text (ms : list rmatch) : forall suf pre,
  ms = pre ++ suf ->
  map (fun im => strip (slice text (m_end (snd im)) (body_end ms text (fst im))))
      (enumerate_from (List.length pre) suf) =
  map strip (bodies_between text suf).
Proof.
  induction suf as [|mt suf IH]; intros pre E; [reflexivity|].
  cbn [enumerate_from map bodies_between fst snd]. f_equal.
  - unfold body_end. rewrite E.
    replace (S (List.length pre)) with (List.length (pre ++ [mt]))
      by (rewrite length_app; simpl; lia).
    replace (pre ++ mt :: suf) with ((pre ++ [mt]) ++ suf) by (rewrite <- app_assoc; reflexivity).
    rewrite nth_error_app2, Nat.sub_diag by lia.
    destruct suf; reflexivity.
  - replace (S (List.length pre)) with (List.length (pre ++ [mt]))
      by (rewrite length_app; simpl; lia).
    apply IH. rewrite E, <- app_assoc. reflexivity.
Qed.

Section BulletLists.

Context {U : unicode}.
Variable b : char.
Hypothesis mark : In b BULLET_MARKS.

Lemma bullet_bodies_between text :
  bullet_bodies text = map strip (bodies_between text (finditer bullet_marker text)).
Proof.
  unfold bullet_bodies, enumerate.
  apply (@bodies_between_enumerate text (finditer bullet_marker text)
           (finditer bullet_marker text) []).
  reflexivity.
Qed.

Lemma bullet_list_cons item items :
  bullet_list b (item :: items) = b :: ch " " :: item ++ more_bullets b items.
Proof.
  unfold bullet_list, more_bullets. revert item.
  induction items as [|i2 items IH]; intros item.
  - cbn [map join flat_map]. rewrite app_nil_r. reflexivity.
  - cbn [map flat_map]. rewrite join_cons2.
    change ((b :: ch " " :: i2) :: map (fun item => b :: ch " " :: item) items)
      with (map (fun item => b :: ch " " :: item) (i2 :: items)).
    rewrite IH. cbn [app]. reflexivity.
Qed.

Lemma scan_tail pre tail :
  blank tail = true ->
  scan bullet_marker (hd_error (rev pre)) (List.length pre) tail 0 = map TChar tail.
Proof.
  intros Ht. rewrite <- (app_nil_r tail) at 1. rewrite scan_stretch.
  - cbn [scan]. unfold here. fold (pos_at (pre ++ tail) []).
    rewrite bullet_marker_blank by reflexivity. cbn [map app]. apply app_nil_r.
  - intros a x z E. apply bullet_marker_blank. rewrite app_nil_r.
    unfold blank in *. rewrite forallb_forall in *. intros y Hy. apply Ht.
    rewrite E. apply in_or_app. right. exact Hy.
Qed.

Lemma scan_item pre item R :
  pre <> [] -> ~ In NL item ->
  scan bullet_marker (hd_error (rev pre)) (List.length pre) (item ++ R) 0 =
  map TChar item ++
  scan bullet_marker (hd_error (rev (pre ++ item))) (List.length (pre ++ item)) R 0.
Proof.
  intros Hpre Hn. apply scan_stretch. intros a x z E. apply bullet_marker_inside.
  - destruct pre; [congruence|discriminate].
  - intros ->. apply Hn. rewrite E. apply in_or_app. right. left. reflexivity.
Qed.

(** The markers of the lines after the first. *)
Lemma finditer_more tail items : forall pre,
  pre <> [] -> blank tail = true ->
  (forall item, In item items -> item <> [] /\ strip item = item /\ ~ In NL item) ->
  matches_of (scan bullet_marker (hd_error (rev pre)) (List.length pre)
                (more_bullets b items ++ tail) 0) =
  marker_places (List.length pre) items.
Proof.
  induction items as [|item items IH]; intros pre Hpre Ht Hok.
  - cbn [more_bullets flat_map app]. rewrite scan_tail by exact Ht. apply matches_of_chars.
  - destruct (Hok item (or_introl eq_refl)) as (Hne & Hs & Hn).
    destruct item as [|c item']; [congruence|].
    assert (Hc : is_space c = false)
      by (apply (@lstrip_fixed_head c item'), (strip_fixed_sides Hs)).
    unfold more_bullets. cbn [flat_map].
    fold (more_bullets b items).
    change ((NL :: b :: ch " " :: c :: item') ++ more_bullets b items)
      with ([NL] ++ b :: ch " " :: c :: (item' ++ more_bullets b items)).
    rewrite <- app_assoc. cbn [app].
    rewrite (@scan_match _ bullet_marker pre
               (NL :: b :: ch " " :: c :: (item' ++ more_bullets b items) ++ tail)
               {| m_start := List.length pre; m_end := List.length pre + 1 + 2; m_caps := [] |} 2).
    + cbn [firstn skipn matches_of marker_places]. f_equal; [f_equal; lia|].
      change (c :: (item' ++ more_bullets b items) ++ tail)
        with (((c :: item') ++ more_bullets b items) ++ tail).
      rewrite <- app_assoc.
      rewrite scan_item by (try exact Hn; destruct pre; discriminate).
      rewrite matches_of_app, matches_of_chars. cbn [app].
      rewrite IH.
      * f_equal. rewrite !length_app. simpl. lia.
      * destruct pre; discriminate.
      * exact Ht.
      * intros i Hi. apply Hok. right. exact Hi.
    + apply (@bullet_marker_at _ pre [NL] b c); auto.
    + cbn [m_end]. lia.
    + simpl. lia.
Qed.

(** The markers of a bullet list. *)
Lemma finditer_bullet_list item items tail :
  blank tail = true ->
  (forall i, In i (item :: items) -> i <> [] /\ strip i = i /\ ~ In NL i) ->
  finditer bullet_marker (bullet_list b (item :: items) ++ tail) =
  {| m_start := 0; m_end := 2; m_caps := [] |} :: marker_places (2 + List.length item) items.
Proof.
  intros Ht Hok. destruct (Hok item (or_introl eq_refl)) as (Hne & Hs & Hn).
  destruct item as [|c item']; [congruence|].
  assert (Hc : is_space c = false)
    by (apply (@lstrip_fixed_head c item'), (strip_fixed_sides Hs)).
  unfold finditer, tokens. rewrite bullet_list_cons.
  change (scan bullet_marker None 0) with (scan bullet_marker (hd_error (rev [])) (List.length (@nil char))).
  rewrite (@scan_match _ bullet_marker []
             ((b :: ch " " :: (c :: item') ++ more_bullets b items) ++ tail)
             {| m_start := 0; m_end := 2; m_caps := [] |} 1).
  - cbn [firstn skipn matches_of app]. f_equal.
    change (c :: (item' ++ more_bullets b items) ++ tail)
      with (((c :: item') ++ more_bullets b items) ++ tail).
    rewrite <- app_assoc.
    rewrite scan_item by (try exact Hn; discriminate).
    rewrite matches_of_app, matches_of_chars. cbn [app].
    rewrite finditer_more.
    + f_equal.
    + discriminate.
    + exact Ht.
    + intros i Hi. apply Hok. right. exact Hi.
  - apply (@bullet_marker_at _ [] [] b c); auto.
  - reflexivity.
  - simpl. lia.
Qed.

(** The texts between the markers of a bullet list are its items. *)
Lemma bodies_of_items tail items : forall pre item s0,
  blank tail = true ->
  (forall i, In i (item :: items) -> i <> [] /\ strip i = i /\ ~ In NL i) ->
  map strip (bodies_between (pre ++ item ++ more_bullets b items ++ tail)
               ({| m_start := s0; m_end := List.length pre; m_caps := [] |}
                :: marker_places (List.length pre + List.length item) items)) =
  item :: items.
Proof.
  induction items as [|i2 items IH]; intros pre item s0 Ht Hok;
    destruct (Hok item (or_introl eq_refl)) as (Hne & Hs & _).
  - cbn [more_bullets flat_map app marker_places bodies_between map m_end]. f_equal.
    unfold slice. rewrite skipn_app, skipn_all, Nat.sub_diag. cbn [skipn app].
    rewrite firstn_all2 by (rewrite !length_app; lia).
    apply strip_blank_tail; assumption.
  - change (marker_places (List.length pre + List.length item) (i2 :: items))
      with ({| m_start := List.length pre + List.length item;
               m_end := List.length pre + List.length item + 3; m_caps := [] |}
            :: marker_places (List.length pre + List.length item + 3 + List.length i2) items).
    rewrite bodies_between_cons2. cbn [map m_end m_start]. f_equal.
    + rewrite slice_middle. exact Hs.
    + unfold more_bullets. cbn [flat_map]. fold (more_bullets b items).
      replace (pre ++ item ++ ((NL :: b :: ch " " :: i2) ++ more_bullets b items) ++ tail)
        with ((pre ++ item ++ [NL; b; ch " "]) ++ i2 ++ more_bullets b items ++ tail)
        by (rewrite <- !app_assoc; reflexivity).
      replace (List.length pre + List.length item + 3)
        with (List.length (pre ++ item ++ [NL; b; ch " "]))
        by (rewrite !length_app; simpl; lia).
      apply IH; [exact Ht|]. intros i Hi. apply Hok. right. exact Hi.
Qed.

(** The bodies of the bullets of a bullet list are its items. *)
Lemma bullet_list_bodies item items tail :
  blank tail = true ->
  (forall i, In i (item :: items) -> i <> [] /\ strip i = i /\ ~ In NL i) ->
  bullet_bodies (bullet_list b (item :: items) ++ tail) = item :: items.
Proof.
  intros Ht Hok.
  rewrite bullet_bodies_between.
  rewrite finditer_bullet_list by assumption.
  rewrite bullet_list_cons.
  change ((b :: ch " " :: item ++ more_bullets b items) ++ tail)
    with ([b; ch " "] ++ (item ++ more_bullets b items) ++ tail).
  rewrite <- app_assoc.
  change 2 with (List.length [b; ch " "]).
  apply bodies_of_items; assumption.
Qed.

Lemma filter_nonempty_all (items : list str) :
  (forall i, In i items -> i <> []) -> filter nonempty items = items.
Proof.
  intros H. apply forallb_filter_id. apply forallb_forall. intros i Hi.
  specialize (H i Hi). destruct i; [congruence|reflexivity].
Qed.

(** X22. A bullet list read back. For a list of one or more items, each not
    empty, trimmed and without a newline, written one to a line as a bullet
    mark, a space and the item, with nothing but white space behind the last:
    _extract_full_bullet_content returns the items, a blank line between
    them. *)
Theorem bullet_list_extracted item items tail :
  blank tail = true ->
  (forall i, In i (item :: items) -> i <> [] /\ strip i = i /\ ~ In NL i) ->
  _extract_full_bullet_content (bullet_list b (item :: items) ++ tail) =
  Ret (Some (join [NL; NL] (item :: items))).
Proof.
  intros Ht Hok.
  rewrite extract_full_bullet_content_spec.
  rewrite bullet_list_bodies by assumption.
  rewrite filter_nonempty_all; [reflexivity|].
  intros i Hi. apply Hok, Hi.
Qed.

End BulletLists.

(** X22, witness: the list of [41ph4] and [b3t4 - g4mm4], with stars. *)
Lemma bullet_list_extracted_witness :
  @_extract_full_bullet_content plain_unicode
    (bullet_list (ch "*") [u "41ph4"; u "b3t4 - g4mm4"] ++ [NL]) =
  Ret (Some (u "41ph4" ++ [NL; NL] ++ u "b3t4 - g4mm4")).
Proof.
  apply (@bullet_list_extracted plain_unicode (ch "*")).
  - cbn. tauto.
  - reflexivity.
  - intros i Hi. cbn [In] in Hi.
    members Hi ltac:(fun E => rewrite <- E; split; [discriminate|split; [reflexivity|]];
                              cbn; intuition discriminate).
Defined.

(** * A reply that is a bullet list *)

(** No ASCII white space is the letter h. *)
Lemma ascii_space_not_h {U : unicode} x :
  is_ascii x = true -> is_space x = true -> tolower x <> ch "h".
Proof.
  intros Ha Hs. unfold tolower. rewrite Ha.
  assert (Hall : forallb (fun x => implb (is_space x) (negb (chr_eqb (ascii_lower x) (ch "h"))))
                   ascii_chars = true) by (vm_compute; reflexivity).
  rewrite forallb_forall in Hall. specialize (Hall x (ascii_chars_all x Ha)).
  rewrite Hs in Hall. cbn [implb] in Hall. intros E. rewrite E in Hall. discriminate.
Qed.

(** Where a text without a newline ends inside a longer one. *)
Lemma split_after (A : str) : forall X L rest',
  ~ In NL A -> A ++ X = L ++ NL :: rest' ->
  exists L', L = A ++ L' /\ X = L' ++ NL :: rest'.
Proof.
  induction A as [|a A IH]; intros X L rest' Hn E.
  - exists L. auto.
  - destruct L as [|l L]; cbn [app] in E; inversion E; subst.
    + exfalso. apply Hn. left. reflexivity.
    + destruct (IH X L rest') as (L' & -> & HX); [intros H; apply Hn; right; exact H|assumption|].
      exists L'. auto.
Qed.

(** What follows a newline of a bullet list: the mark of the next line, or
    the rest of what stands behind the list. *)
Lemma line_starts b tail items : forall L rest',
  b <> NL -> (forall i, In i items -> ~ In NL i) ->
  more_bullets b items ++ tail = L ++ NL :: rest' ->
  (exists r', rest' = b :: r') \/ (exists t1, tail = t1 ++ NL :: rest').
Proof.
  induction items as [|i items IH]; intros L rest' Hb Hn E.
  - right. exists L. exact E.
  - unfold more_bullets in E. cbn [flat_map] in E. fold (more_bullets b items) in E.
    rewrite <- app_assoc in E.
    destruct L as [|l L]; cbn [app] in E.
    + injection E as E. left. eexists. symmetry. exact E.
    + injection E as _ E.
      assert (Hline : ~ In NL (b :: ch " " :: i)).
      { intros [H|[H|H]]; [congruence|discriminate|].
        apply (Hn i); [left; reflexivity|exact H]. }
      destruct (@split_after (b :: ch " " :: i) _ _ _ Hline E) as (L' & _ & HX).
      apply (IH L' rest'); [exact Hb| |exact HX].
      intros j Hj. apply Hn. right. exact Hj.
Qed.

Lemma in_more_bullets b items c :
  In c (more_bullets b items) ->
  In c [NL; b; ch " "] \/ exists i, In i items /\ In c i.
Proof.
  unfold more_bullets. intros H. apply in_flat_map in H. destruct H as (i & Hi & Hc).
  destruct Hc as [Hc|[Hc|[Hc|Hc]]]; [left; cbn; tauto..|right; eauto].
Qed.

Section BulletReply.

Context {U : unicode}.

(** Where [house_pattern] matches, a line starts, and white space and a
    letter h, in either case, follow. *)
Lemma house_pattern_start p adv mt :
  try_at house_pattern p adv = Some mt ->
  exists w0 ws x r,
    rest p = w0 ++ ws ++ x :: r /\
    (w0 = [] /\ (prev p = None \/ prev p = Some NL) \/ w0 = [NL]) /\
    blank ws = true /\ tolower x = ch "h".
Proof.
  intros H. apply try_at_sound in H. destruct H as (p' & H & _).
  cbn [house_pattern p_re p_flags compile seq] in H.
  apply matches_seq_inv in H. destruct H as (p1 & c1 & H1 & H).
  apply matches_seq_inv in H. destruct H as (p2 & c2 & H2 & H).
  apply matches_seq_inv in H. destruct H as (p3 & c3 & H3 & _).
  apply matches_rep_inv in H2. destruct H2 as (n2 & _ & R2 & _).
  apply run_ahead in R2. destruct R2 as (ws & _ & Hws & (A2 & _)).
  assert (H3' : exists x r, rest p2 = x :: r /\ tolower x = ch "h").
  { apply matches_alt_inv in H3. destruct H3 as [H3|H3];
      cbn [lit u map list_ascii_of_string] in H3;
      apply matches_seq_inv in H3; destruct H3 as (q & e & H3 & _);
      inversion H3; subst;
      match goal with Hx : rest p2 = ?x :: ?r, Hc : chr_match _ _ ?x = true |- _ =>
        exists x, r; split; [exact Hx|];
        change (chr_eqb (tolower x) (ch "h") = true) in Hc; apply chr_eqb_eq in Hc; exact Hc
      end. }
  destruct H3' as (x & r & A3 & Hx).
  assert (H1' : exists w0, (w0 = [] /\ (prev p = None \/ prev p = Some NL) \/ w0 = [NL]) /\
                           rest p = w0 ++ rest p1).
  { unfold line_start in H1. apply matches_alt_inv in H1. destruct H1 as [H1|H1].
    - inversion H1; subst.
      match goal with Hb : at_bol _ _ = true |- _ =>
        unfold at_bol in Hb; cbn [MULTILINE andb] in Hb
      end.
      exists []. split; [left; split; [reflexivity|]|reflexivity].
      destruct (prev p1) as [y|]; [|left; reflexivity].
      match goal with Hb : chr_eqb _ _ = true |- _ => apply chr_eqb_eq in Hb; subst y end.
      right. reflexivity.
    - inversion H1; subst.
      match goal with Hx : rest p = ?x :: _, Hm : chr_match _ NL ?x = true |- _ =>
        change (chr_eqb NL x = true) in Hm; apply chr_eqb_eq in Hm; subst x;
        exists [NL]; split; [right; reflexivity|exact Hx]
      end. }
  destruct H1' as (w0 & Hw0 & A1).
  exists w0, ws, x, r. split; [rewrite A1, A2, A3; reflexivity|]. auto.
Qed.

Variable b : char.
Hypothesis mark : In b [ch "*"; ch "-"].

Lemma star_dash_mark : In b BULLET_MARKS.
Proof. cbn in *. tauto. Qed.

Lemma mark_not_h : tolower b <> ch "h".
Proof.
  cbn in mark. destruct mark as [E|[E|[]]]; rewrite <- E; discriminate.
Qed.

(** In a bullet list [house_pattern] matches nowhere: every line starts with
    the mark. *)
Lemma bullet_list_no_house item items tail :
  blank tail = true -> forallb is_ascii tail = true ->
  (forall i, In i (item :: items) -> ~ In NL i) ->
  never_matches house_pattern (bullet_list b (item :: items) ++ tail).
Proof.
  intros Ht Ha Hn pre t E.
  destruct (try_at house_pattern (pos_at pre t) false) as [mt|] eqn:Hm; [exfalso|reflexivity].
  apply house_pattern_start in Hm.
  destruct Hm as (w0 & ws & x & r & Hr & Hw0 & Hws & Hx).
  cbn [pos_at rest prev] in Hr, Hw0. subst t.
  destruct (bullet_marks_no_space star_dash_mark) as (Hbs & Hbn).
  rewrite bullet_list_cons in E.
  (* a line start before [ws ++ x :: r] *)
  assert (Hstart : (exists r', ws ++ x :: r = b :: r') \/
                   (exists t1, tail = t1 ++ NL :: ws ++ x :: r)).
  { assert (Hcut : pre ++ w0 = [] \/ exists L, pre ++ w0 = L ++ [NL]).
    { destruct Hw0 as [(-> & [Hp|Hp]) | ->].
      - left. rewrite app_nil_r. destruct (rev pre) as [|y l] eqn:Er; [|discriminate].
        apply (f_equal (@rev char)) in Er. rewrite rev_involutive in Er. exact Er.
      - right. rewrite app_nil_r. destruct (rev pre) as [|y l] eqn:Er; [discriminate|].
        inversion Hp; subst y. exists (rev l).
        apply (f_equal (@rev char)) in Er. rewrite rev_involutive in Er. exact Er.
      - right. exists pre. reflexivity. }
    rewrite app_assoc in E.
    destruct Hcut as [Hcut|(L & Hcut)]; rewrite Hcut in E.
    - left. cbn [app] in E. eexists. symmetry. exact E.
    - rewrite <- !app_assoc in E. cbn [app] in E. rewrite <- !app_assoc in E.
      change (b :: ch " " :: item ++ more_bullets b items ++ tail)
        with ((b :: ch " " :: item) ++ more_bullets b items ++ tail) in E.
      assert (Hline : ~ In NL (b :: ch " " :: item)).
      { intros [H|[H|H]]; [congruence|discriminate|].
        apply (Hn item); [left; reflexivity|exact H]. }
      destruct (@split_after (b :: ch " " :: item) _ _ _ Hline E) as (L' & _ & E').
      apply (@line_starts b tail items L') ; [exact Hbn| |exact E'].
      intros i Hi. apply Hn. right. exact Hi. }
  destruct Hstart as [(r' & Hs)|(t1 & Hs)].
  - destruct ws as [|y ws]; cbn [app] in Hs; inversion Hs; subst.
    + exact (mark_not_h Hx).
    + cbn in Hws. rewrite Hbs in Hws. discriminate.
  - assert (Hin : In x tail).
    { rewrite Hs. apply in_or_app. right. right. apply in_or_app. right. left. reflexivity. }
    apply (@ascii_space_not_h _ x); [|apply (blank_in _ _ Ht Hin)|exact Hx].
    rewrite forallb_forall in Ha. apply Ha, Hin.
Qed.

(** X23. A reply that is a bullet list. For a list of one or more items, each
    not empty, trimmed and without a newline or a backtick, written one to a
    line as a star or a dash, a space and the item, with nothing but ASCII
    white space behind the last: extract_leetspeak returns the items, a blank
    line between them, whether they hold leetspeak or not, and whatever name
    stands in them. *)
Theorem bullet_reply_extracted item items tail :
  blank tail = true -> forallb is_ascii tail = true ->
  (forall i, In i (item :: items) ->
     i <> [] /\ strip i = i /\ ~ In NL i /\ ~ In (ch "`") i) ->
  extract_leetspeak (bullet_list b (item :: items) ++ tail) =
  Ret (join [NL; NL] (item :: items)).
Proof.
  intros Ht Ha Hok.
  destruct (bullet_marks_no_space star_dash_mark) as (Hbs & Hbn).
  assert (Hok' : forall i, In i (item :: items) -> i <> [] /\ strip i = i /\ ~ In NL i).
  { intros i Hi. destruct (Hok i Hi) as (H1 & H2 & H3 & _). auto. }
  set (text := bullet_list b (item :: items) ++ tail).
  assert (Etext : text = b :: ch " " :: item ++ more_bullets b items ++ tail).
  { unfold text. rewrite bullet_list_cons. cbn [app]. rewrite <- app_assoc. reflexivity. }
  assert (Hguard : negb (nonempty text) || (List.length (strip text) =? 0) = false).
  { apply orb_false_iff. split; [rewrite Etext; reflexivity|].
    apply Nat.eqb_neq. intros Hl. apply length_zero_iff_nil in Hl.
    apply strip_nil_blank in Hl. rewrite Etext in Hl. cbn in Hl.
    rewrite Hbs in Hl. discriminate. }
  assert (Hfence : sub fence [] text = text).
  { apply no_backtick_no_fence. rewrite Etext. intros [H|[H|H]].
    - cbn in mark. destruct mark as [E|[E|[]]]; rewrite <- E in H; discriminate.
    - discriminate.
    - apply in_app_or in H. destruct H as [H|H].
      + destruct (Hok item (or_introl eq_refl)) as (_ & _ & _ & Hq). exact (Hq H).
      + apply in_app_or in H. destruct H as [H|H].
        * apply in_more_bullets in H. destruct H as [H|(i & Hi & H)].
          -- cbn in H. destruct H as [H|[H|[H|[]]]]; try discriminate.
             cbn in mark. destruct mark as [E|[E|[]]]; rewrite <- E in H; discriminate.
          -- destruct (Hok i (or_intror Hi)) as (_ & _ & _ & Hq). exact (Hq H).
        * apply (blank_in _ _ Ht) in H. discriminate. }
  unfold extract_leetspeak. fold text. rewrite Hguard, Hfence.
  unfold house_segments. unfold text at 1.
  rewrite finditer_no_match
    by (apply bullet_list_no_house; try assumption; intros i Hi; apply Hok', Hi).
  cbn [for_each bind].
  assert (Hb : has_char BULLET text || has_char (ch "*") text || has_char (ch "-") text = true).
  { assert (H : In b text) by (rewrite Etext; left; reflexivity).
    rewrite !orb_true_iff, !has_char_in.
    destruct mark as [E|[E|[]]]; rewrite E; auto. }
  rewrite Hb. unfold text at 1.
  rewrite extract_full_bullet_content_spec.
  rewrite (bullet_list_bodies star_dash_mark) by assumption.
  rewrite filter_nonempty_all by (intros i Hi; apply Hok', Hi).
  cbn [bind].
  destruct (Hok item (or_introl eq_refl)) as (Hne & _).
  destruct item as [|c item']; [congruence|].
  destruct items; reflexivity.
Qed.

End BulletReply.

(** X23, witness: two items without leetspeak, the second with a name. *)
Lemma bullet_reply_extracted_witness :
  @extract_leetspeak plain_unicode
    (bullet_list (ch "-") [u "alpha"; u "HOUSE: beta"] ++ [NL]) =
  Ret (u "alpha" ++ [NL; NL] ++ u "HOUSE: beta").
Proof.
  apply (@bullet_reply_extracted plain_unicode (ch "-")).
  - cbn. tauto.
  - reflexivity.
  - reflexivity.
  - intros i Hi. cbn [In] in Hi.
    members Hi ltac:(fun E => rewrite <- E; split; [discriminate|split; [reflexivity|]];
                              split; cbn; intuition discriminate).
Defined.
